(** * NodeModal: the row normaliser, the document patcher and the edit session

    A shallow embedding of [src/features/modals/NodeModal/index.tsx]
    ([normalizeNodeData], [jsonPathToString], [updateJsonAtPath], [handleEdit],
    [handleSave], [handleCancel] and what the component renders of the
    session) together with the parts of ECMAScript those
    functions call: strings as sequences of UTF-16 code units, property reads
    and writes on JSON data, [ToString], [JSON.parse] and
    [JSON.stringify (_, null, 2)]. *)

From Stdlib Require Import String Ascii.
From Stdlib Require Import List NArith ZArith Bool Lia.
From Stdlib Require Import DecimalN.
Import ListNotations.

Local Open Scope N_scope.
Local Open Scope list_scope.

#[local] Set Warnings "-register-all".

(** ** Strings *)

(** A JavaScript string is a sequence of UTF-16 code units. *)
Definition jstring := list N.

(** [u "abc"] is the string of the code units of an ASCII literal. *)
Definition u (s : string) : jstring :=
  map N_of_ascii (list_ascii_of_string s).

(** [txt] is [u] with every apostrophe read as a double quote, to write JSON
    text legibly: [txt "{'a':1}"] is the text [{"a":1}]. *)
Definition txt (s : string) : jstring :=
  map (fun c => if c =? 39 then 34 else c) (u s).

Fixpoint jstring_eqb (a b : jstring) : bool :=
  match a, b with
  | [], [] => true
  | x :: a', y :: b' => (x =? y) && jstring_eqb a' b'
  | _, _ => false
  end.

(** ** Numbers *)

(** A number is kept as the decimal it was written as: [Fin neg ds pt] is
    [0.d1...dk * 10^pt] with [ds] the digits [d1 ... dk] (values 0..9), so [pt]
    and [length ds] are the [n] and [k] of Number::toString.  Zero is
    [Fin false [] 0] (JavaScript's two zeros print alike and are [===]).
    Rounding to a binary64 is not modelled; overflow is: a literal that rounds
    to an infinity is [Inf]. *)
Inductive JsNum : Type :=
| Fin (neg : bool) (ds : list N) (pt : Z)
| Inf (neg : bool).

Definition num_zero : JsNum := Fin false [] 0.

Definition digit_of_N (d : N) : Decimal.uint -> Decimal.uint :=
  match d with
  | 0 => Decimal.D0 | 1 => Decimal.D1 | 2 => Decimal.D2 | 3 => Decimal.D3
  | 4 => Decimal.D4 | 5 => Decimal.D5 | 6 => Decimal.D6 | 7 => Decimal.D7
  | 8 => Decimal.D8 | _ => Decimal.D9
  end.

Fixpoint uint_of_digits (ds : list N) : Decimal.uint :=
  match ds with
  | [] => Decimal.Nil
  | d :: r => digit_of_N d (uint_of_digits r)
  end.

Fixpoint digits_of_uint (d : Decimal.uint) : list N :=
  match d with
  | Decimal.Nil => []
  | Decimal.D0 r => 0 :: digits_of_uint r
  | Decimal.D1 r => 1 :: digits_of_uint r
  | Decimal.D2 r => 2 :: digits_of_uint r
  | Decimal.D3 r => 3 :: digits_of_uint r
  | Decimal.D4 r => 4 :: digits_of_uint r
  | Decimal.D5 r => 5 :: digits_of_uint r
  | Decimal.D6 r => 6 :: digits_of_uint r
  | Decimal.D7 r => 7 :: digits_of_uint r
  | Decimal.D8 r => 8 :: digits_of_uint r
  | Decimal.D9 r => 9 :: digits_of_uint r
  end.

(** The integer a digit sequence writes, and the digits of an integer. *)
Definition N_of_digits (ds : list N) : N := N.of_uint (uint_of_digits ds).
Definition digits_of_N (n : N) : list N := digits_of_uint (N.to_uint n).

Definition digit_chars (ds : list N) : jstring := map (fun d => 48 + d) ds.

(** The decimal numeral of a natural number, as a string. *)
Definition dec (n : N) : jstring := digit_chars (digits_of_N n).

Definition zeros (n : nat) : jstring := repeat 48 n.

Definition exp_chars (e : Z) : jstring :=
  (if (e <? 0)%Z then 45 else 43) :: dec (Z.abs_N e).

(** Number::toString for a finite non-zero number with digits [ds] and point
    [pt] (ECMA-262, 6.1.6.1.20, steps 6 to 10). *)
Definition num_body (ds : list N) (pt : Z) : jstring :=
  let k := Z.of_nat (length ds) in
  if ((k <=? pt) && (pt <=? 21))%Z then
    digit_chars ds ++ zeros (Z.to_nat (pt - k))
  else if ((0 <? pt) && (pt <=? 21))%Z then
    digit_chars (firstn (Z.to_nat pt) ds) ++ 46 :: digit_chars (skipn (Z.to_nat pt) ds)
  else if ((-6 <? pt) && (pt <=? 0))%Z then
    48 :: 46 :: zeros (Z.to_nat (- pt)) ++ digit_chars ds
  else
    match ds with
    | [] => [48]
    | [d] => (48 + d) :: 101 :: exp_chars (pt - 1)
    | d :: r => (48 + d) :: 46 :: digit_chars r ++ 101 :: exp_chars (pt - 1)
    end.

Definition num_to_string (n : JsNum) : jstring :=
  match n with
  | Fin _ [] _ => [48]
  | Fin neg ds pt => (if neg then [45] else []) ++ num_body ds pt
  | Inf false => u "Infinity"
  | Inf true => u "-Infinity"
  end.

(** The natural number [n] as a number. *)
Fixpoint strip_zeros (ds : list N) : list N :=
  match ds with
  | 0 :: r => strip_zeros r
  | _ => ds
  end.

Definition strip_trailing (ds : list N) : list N := rev (strip_zeros (rev ds)).

Definition num_of_N (n : N) : JsNum :=
  match n with
  | 0 => num_zero
  | _ => let ds := digits_of_N n in Fin false (strip_trailing ds) (Z.of_nat (length ds))
  end.

(** ** Values *)

(** The values the program handles: JSON data, and [undefined], which a read of
    a missing property yields and which an array extended past its end holds
    at the indices in between. An object is the list of its own properties in
    the order [JSON.stringify] and [Object.keys] enumerate them. *)
Inductive JsValue : Type :=
| JUndefined
| JNull
| JBool (b : bool)
| JNum (n : JsNum)
| JStr (s : jstring)
| JArr (elems : list JsValue)
| JObj (props : list (jstring * JsValue)).

Inductive JsError : Type := SyntaxError | TypeError | RangeError.

(** The completion of a piece of code: it returns, it throws, or it reaches a
    member inherited from a built-in prototype or an array's [length] setter,
    whose behaviour belongs to the host realm and is left out of the model. *)
Inductive Outcome (A : Type) : Type :=
| Normal (a : A)
| Throw (e : JsError)
| Unmodelled.
Arguments Normal {A} a.
Arguments Throw {A} e.
Arguments Unmodelled {A}.

Definition bind {A B} (m : Outcome A) (f : A -> Outcome B) : Outcome B :=
  match m with
  | Normal a => f a
  | Throw e => Throw e
  | Unmodelled => Unmodelled
  end.

Notation "x <- m ;; k" := (bind m (fun x => k))
  (at level 61, m at next level, right associativity).

(** ** Property keys *)

Definition is_digit (c : N) : bool := (48 <=? c) && (c <=? 57).

(** An array index is a canonical numeric string below 2^32 - 1. *)
Definition array_index (k : jstring) : option N :=
  if forallb is_digit k then
    let n := N_of_digits (map (fun c => c - 48) k) in
    if jstring_eqb (dec n) k && (n <? 4294967295) then Some n else None
  else None.

Definition s_length : jstring := Eval cbv in u "length".
Definition s_proto : jstring := Eval cbv in u "__proto__".
Definition s_toString : jstring := Eval cbv in u "toString".

Definition mem (k : jstring) (l : list jstring) : bool := existsb (jstring_eqb k) l.

(** The string-named members of the built-in prototypes (ECMA-262 with its
    Annex B). *)
Definition object_members : list jstring := Eval cbv in map u
  [ "constructor"; "__defineGetter__"; "__defineSetter__"; "hasOwnProperty";
    "__lookupGetter__"; "__lookupSetter__"; "isPrototypeOf";
    "propertyIsEnumerable"; "toString"; "valueOf"; "__proto__";
    "toLocaleString" ]%string.

Definition array_members : list jstring := Eval cbv in map u
  [ "at"; "concat"; "copyWithin"; "entries"; "every"; "fill"; "filter"; "find";
    "findIndex"; "findLast"; "findLastIndex"; "flat"; "flatMap"; "forEach";
    "includes"; "indexOf"; "join"; "keys"; "lastIndexOf"; "map"; "pop"; "push";
    "reduce"; "reduceRight"; "reverse"; "shift"; "slice"; "some"; "sort";
    "splice"; "toReversed"; "toSorted"; "toSpliced"; "unshift"; "values";
    "with" ]%string.

Definition string_members : list jstring := Eval cbv in map u
  [ "at"; "charAt"; "charCodeAt"; "codePointAt"; "concat"; "endsWith";
    "includes"; "indexOf"; "isWellFormed"; "lastIndexOf"; "localeCompare";
    "match"; "matchAll"; "normalize"; "padEnd"; "padStart"; "repeat";
    "replace"; "replaceAll"; "search"; "slice"; "split"; "startsWith";
    "substring"; "toLocaleLowerCase"; "toLocaleUpperCase"; "toLowerCase";
    "toUpperCase"; "toWellFormed"; "trim"; "trimEnd"; "trimStart"; "substr";
    "anchor"; "big"; "blink"; "bold"; "fixed"; "fontcolor"; "fontsize";
    "italics"; "link"; "small"; "strike"; "sub"; "sup"; "trimLeft";
    "trimRight" ]%string.

Definition number_members : list jstring := Eval cbv in map u
  [ "toExponential"; "toFixed"; "toPrecision" ]%string.

(** [builtin_member k]: some built-in prototype has a member named [k]. *)
Definition builtin_member (k : jstring) : bool :=
  mem k object_members || mem k array_members || mem k string_members
  || mem k number_members.

(** [inherited v k]: a read of [k] on [v] that finds no own property finds a
    member of a built-in prototype. *)
Definition inherited (v : JsValue) (k : jstring) : bool :=
  match v with
  | JObj _ | JBool _ => mem k object_members
  | JArr _ => mem k array_members || mem k object_members
  | JStr _ => mem k string_members || mem k object_members
  | JNum _ => mem k number_members || mem k object_members
  | JUndefined | JNull => false
  end.

(** ** Own properties *)

Fixpoint obj_get (props : list (jstring * JsValue)) (k : jstring) : option JsValue :=
  match props with
  | [] => None
  | (k', v) :: r => if jstring_eqb k' k then Some v else obj_get r k
  end.

(** [key_before k k']: a new property [k] is enumerated before the existing
    [k']: array indices come first, in ascending order; other keys keep the
    order in which they were created. *)
Definition key_before (k k' : jstring) : bool :=
  match array_index k, array_index k' with
  | Some i, Some j => i <? j
  | Some _, None => true
  | None, _ => false
  end.

(** CreateDataProperty / an assignment to an own or a new property. *)
Fixpoint obj_set (props : list (jstring * JsValue)) (k : jstring) (v : JsValue)
  : list (jstring * JsValue) :=
  match props with
  | [] => [(k, v)]
  | (k', v') :: r =>
      if jstring_eqb k' k then (k, v) :: r
      else if key_before k k' then (k, v) :: props
      else (k', v') :: obj_set r k v
  end.

(** An assignment to index [i] of an array: past the end the array grows, and
    the indices in between are holes, which read as [undefined]. *)
Fixpoint arr_set (l : list JsValue) (i : nat) (v : JsValue) : list JsValue :=
  match i, l with
  | O, [] => [v]
  | O, _ :: r => v :: r
  | S i', [] => JUndefined :: arr_set [] i' v
  | S i', x :: r => x :: arr_set r i' v
  end.

(** [base[k]]: the read of a property. A read that finds a member inherited
    from a built-in prototype gives a function or a prototype object of the
    realm, which [JsValue] does not hold: it is [Unmodelled], and the
    statements below say where they leave such keys out ([plain_path],
    [plain_key]). *)
Definition get (base : JsValue) (k : jstring) : Outcome JsValue :=
  match base with
  | JUndefined | JNull => Throw TypeError
  | JObj props =>
      match obj_get props k with
      | Some v => Normal v
      | None => if inherited base k then Unmodelled else Normal JUndefined
      end
  | JArr l =>
      match array_index k with
      | Some i => Normal (nth (N.to_nat i) l JUndefined)
      | None =>
          if jstring_eqb k s_length then Normal (JNum (num_of_N (N.of_nat (length l))))
          else if inherited base k then Unmodelled else Normal JUndefined
      end
  | JStr s =>
      match array_index k with
      | Some i =>
          match nth_error s (N.to_nat i) with
          | Some c => Normal (JStr [c])
          | None => Normal JUndefined
          end
      | None =>
          if jstring_eqb k s_length then Normal (JNum (num_of_N (N.of_nat (length s))))
          else if inherited base k then Unmodelled else Normal JUndefined
      end
  | JBool _ | JNum _ =>
      if inherited base k then Unmodelled else Normal JUndefined
  end.

(** [base[k] = v] in strict code (the file is a module); the result is [base]
    after the assignment. [__proto__] is the one inherited accessor: its setter
    creates no own property, and on a primitive it returns silently. A key of
    an array that is neither an index nor [length] becomes a property that
    [JSON.stringify] does not see. *)
Definition put (base : JsValue) (k : jstring) (v : JsValue) : Outcome JsValue :=
  match base with
  | JUndefined | JNull => Throw TypeError
  | JBool _ | JNum _ | JStr _ =>
      if jstring_eqb k s_proto then Normal base else Throw TypeError
  | JObj props =>
      match obj_get props k with
      | Some _ => Normal (JObj (obj_set props k v))
      | None =>
          if jstring_eqb k s_proto then Normal base
          else Normal (JObj (obj_set props k v))
      end
  | JArr l =>
      match array_index k with
      | Some i => Normal (JArr (arr_set l (N.to_nat i) v))
      | None => if jstring_eqb k s_length then Unmodelled else Normal base
      end
  end.

(** ** ToString *)

Definition s_undefined : jstring := Eval cbv in u "undefined".
Definition s_null : jstring := Eval cbv in u "null".
Definition s_true : jstring := Eval cbv in u "true".
Definition s_false : jstring := Eval cbv in u "false".
Definition s_object_Object : jstring := Eval cbv in u "[object Object]".

(** ToString, as a template literal applies it. An array is joined by commas
    (Array.prototype.toString), its [null] and [undefined] elements as empty
    strings. An object is [[object Object]], unless an own [toString] property
    hides Object.prototype.toString: JSON data is not callable, and
    OrdinaryToPrimitive then throws. *)
Fixpoint to_string (v : JsValue) : Outcome jstring :=
  match v with
  | JUndefined => Normal s_undefined
  | JNull => Normal s_null
  | JBool true => Normal s_true
  | JBool false => Normal s_false
  | JNum n => Normal (num_to_string n)
  | JStr s => Normal s
  | JArr l =>
      (fix join (l : list JsValue) (first : bool) : Outcome jstring :=
         match l with
         | [] => Normal []
         | x :: r =>
             s <- match x with
                  | JUndefined | JNull => Normal []
                  | _ => to_string x
                  end ;;
             t <- join r false ;;
             Normal ((if first then [] else [44]) ++ s ++ t)
         end) l true
  | JObj props =>
      match obj_get props s_toString with
      | Some _ => Throw TypeError
      | None => Normal s_object_Object
      end
  end.

(** ** JSON.stringify (value, null, 2) *)

Definition hex_digit (d : N) : N := if d <? 10 then 48 + d else 87 + d.

Definition hex4 (c : N) : jstring :=
  [ hex_digit (c / 4096 mod 16); hex_digit (c / 256 mod 16);
    hex_digit (c / 16 mod 16); hex_digit (c mod 16) ].

Definition is_high_surrogate (c : N) : bool := (55296 <=? c) && (c <=? 56319).
Definition is_low_surrogate (c : N) : bool := (56320 <=? c) && (c <=? 57343).

(** The escape of one code unit that is not part of a surrogate pair. *)
Definition quote_unit (c : N) : jstring :=
  if c =? 8 then [92; 98]
  else if c =? 9 then [92; 116]
  else if c =? 10 then [92; 110]
  else if c =? 12 then [92; 102]
  else if c =? 13 then [92; 114]
  else if c =? 34 then [92; 34]
  else if c =? 92 then [92; 92]
  else if (c <? 32) || is_high_surrogate c || is_low_surrogate c
       then 92 :: 117 :: hex4 c
  else [c].

(** The body of QuoteJSONString: a well-formed surrogate pair is copied, every
    other code unit goes through [quote_unit]. *)
Fixpoint quote_body (s : jstring) : jstring :=
  match s with
  | [] => []
  | c :: r =>
      match r with
      | d :: r' =>
          if is_high_surrogate c && is_low_surrogate d
          then c :: d :: quote_body r'
          else quote_unit c ++ quote_body r
      | [] => quote_unit c
      end
  end.

Definition quote (s : jstring) : jstring := 34 :: quote_body s ++ [34].

Definition gap : jstring := [32; 32].

Fixpoint join_with (sep : jstring) (parts : list jstring) : jstring :=
  match parts with
  | [] => []
  | [p] => p
  | p :: r => p ++ sep ++ join_with sep r
  end.

(** The text of a container whose members are [parts], at indentation [ind]. *)
Definition wrap (open close : N) (ind : jstring) (parts : list jstring) : jstring :=
  match parts with
  | [] => [open; close]
  | _ => open :: 10 :: (ind ++ gap)
         ++ join_with (44 :: 10 :: (ind ++ gap)) parts
         ++ 10 :: ind ++ [close]
  end.

(** SerializeJSONProperty at indentation [ind]; [None] is [undefined]. A
    property whose value is [undefined] is left out of an object and written
    [null] in an array, and so is a number that is not finite. *)
Fixpoint ser (ind : jstring) (v : JsValue) : option jstring :=
  match v with
  | JUndefined => None
  | JNull => Some s_null
  | JBool true => Some s_true
  | JBool false => Some s_false
  | JNum (Inf _) => Some s_null
  | JNum n => Some (num_to_string n)
  | JStr s => Some (quote s)
  | JArr l =>
      Some (wrap 91 93 ind
              (map (fun x => match ser (ind ++ gap) x with
                             | Some t => t
                             | None => s_null
                             end) l))
  | JObj props =>
      Some (wrap 123 125 ind
              ((fix members (ps : list (jstring * JsValue)) : list jstring :=
                  match ps with
                  | [] => []
                  | (k, x) :: r =>
                      match ser (ind ++ gap) x with
                      | Some t => (quote k ++ 58 :: 32 :: t) :: members r
                      | None => members r
                      end
                  end) props))
  end.

(** [JSON.stringify (v, null, 2)]; [None] is [undefined]. The length that an
    engine allows a string is left out: past it the call throws a RangeError
    (see [string_limit] and [patch_within_limit] below). *)
Definition JSON_stringify (v : JsValue) : option jstring := ser [] v.

(** ** JSON.parse *)

Definition is_ws (c : N) : bool := (c =? 32) || (c =? 9) || (c =? 10) || (c =? 13).

Fixpoint skip_ws (s : jstring) : jstring :=
  match s with
  | c :: r => if is_ws c then skip_ws r else s
  | [] => []
  end.

Fixpoint span_digits (s : jstring) : list N * jstring :=
  match s with
  | c :: r =>
      if is_digit c then let (ds, r') := span_digits r in ((c - 48) :: ds, r')
      else ([], s)
  | [] => ([], [])
  end.

(** The integer part of a number: [0], or a non-zero digit and more digits. *)
Definition int_part (s : jstring) : option (list N * jstring) :=
  match s with
  | c :: r =>
      if c =? 48 then Some ([0], r)
      else if is_digit c then let (ds, r') := span_digits r in Some ((c - 48) :: ds, r')
      else None
  | [] => None
  end.

Definition frac_part (s : jstring) : option (list N * jstring) :=
  match s with
  | c :: r =>
      if c =? 46 then
        match span_digits r with
        | ([], _) => None
        | (ds, r') => Some (ds, r')
        end
      else Some ([], s)
  | [] => Some ([], [])
  end.

Definition exp_digits (neg : bool) (s : jstring) : option (Z * jstring) :=
  match span_digits s with
  | ([], _) => None
  | (ds, r) => Some (if neg then (- Z.of_N (N_of_digits ds))%Z else Z.of_N (N_of_digits ds), r)
  end.

Definition exp_part (s : jstring) : option (Z * jstring) :=
  match s with
  | c :: r =>
      if (c =? 101) || (c =? 69) then
        match r with
        | sg :: r1 =>
            if sg =? 43 then exp_digits false r1
            else if sg =? 45 then exp_digits true r1
            else exp_digits false r
        | [] => None
        end
      else Some (0%Z, s)
  | [] => Some (0%Z, [])
  end.

(** Literals from 2^1024 - 2^970 on round to an infinity (the midpoint between
    the largest binary64 and 2^1024 rounds to even, away from it). *)
Definition overflow_threshold : Z := (2 ^ 1024 - 2 ^ 970)%Z.

Definition overflows (ds : list N) (pt : Z) : bool :=
  if (pt <=? 308)%Z then false
  else if (310 <=? pt)%Z then true
  else (overflow_threshold * 10 ^ Z.of_nat (length ds)
        <=? Z.of_N (N_of_digits ds) * 10 ^ pt)%Z.

(** The number written with integer digits [int], fraction digits [frac] and
    exponent [e], kept as the decimal it is written as: the rounding to the
    nearest double is left out, but for the overflow to infinity. *)
Definition make_num (neg : bool) (int frac : list N) (e : Z) : JsNum :=
  let all := int ++ frac in
  let sig := strip_zeros all in
  match strip_trailing sig with
  | [] => num_zero
  | ds =>
      let pt := (Z.of_nat (length int) - Z.of_nat (length all - length sig) + e)%Z in
      if overflows ds pt then Inf neg else Fin neg ds pt
  end.

Definition parse_unsigned (neg : bool) (s : jstring) : option (JsNum * jstring) :=
  match int_part s with
  | None => None
  | Some (int, r1) =>
      match frac_part r1 with
      | None => None
      | Some (frac, r2) =>
          match exp_part r2 with
          | None => None
          | Some (e, r3) => Some (make_num neg int frac e, r3)
          end
      end
  end.

Definition parse_number (s : jstring) : option (JsNum * jstring) :=
  match s with
  | c :: r => if c =? 45 then parse_unsigned true r else parse_unsigned false s
  | [] => None
  end.

Definition hex_val (c : N) : option N :=
  if is_digit c then Some (c - 48)
  else if (97 <=? c) && (c <=? 102) then Some (c - 87)
  else if (65 <=? c) && (c <=? 70) then Some (c - 55)
  else None.

Definition unescape (c : N) : option N :=
  if c =? 34 then Some 34
  else if c =? 92 then Some 92
  else if c =? 47 then Some 47
  else if c =? 98 then Some 8
  else if c =? 102 then Some 12
  else if c =? 110 then Some 10
  else if c =? 114 then Some 13
  else if c =? 116 then Some 9
  else None.

(** A string, from after its opening quote to its closing quote. *)
Fixpoint parse_string (s : jstring) : option (jstring * jstring) :=
  match s with
  | [] => None
  | c :: r =>
      if c =? 34 then Some ([], r)
      else if c =? 92 then
        match r with
        | [] => None
        | e :: r1 =>
            if e =? 117 then
              match r1 with
              | h1 :: h2 :: h3 :: h4 :: r2 =>
                  match hex_val h1, hex_val h2, hex_val h3, hex_val h4 with
                  | Some a, Some b, Some c', Some d =>
                      match parse_string r2 with
                      | Some (t, rest) => Some ((4096 * a + 256 * b + 16 * c' + d) :: t, rest)
                      | None => None
                      end
                  | _, _, _, _ => None
                  end
              | _ => None
              end
            else
              match unescape e with
              | Some x =>
                  match parse_string r1 with
                  | Some (t, rest) => Some (x :: t, rest)
                  | None => None
                  end
              | None => None
              end
        end
      else if c <? 32 then None
      else
        match parse_string r with
        | Some (t, rest) => Some (c :: t, rest)
        | None => None
        end
  end.

(** [after lit s]: what follows [lit] at the start of [s]. *)
Fixpoint after (lit s : jstring) : option jstring :=
  match lit, s with
  | [], _ => Some s
  | a :: lit', b :: s' => if a =? b then after lit' s' else None
  | _ :: _, [] => None
  end.

(** The object JSON.parse builds from the members of an object literal, each
    added with CreateDataProperty in turn. *)
Definition build_object (ps : list (jstring * JsValue)) : list (jstring * JsValue) :=
  fold_left (fun o kv => obj_set o (fst kv) (snd kv)) ps [].

(** A value at the start of [s] (no white space before it), and the rest. *)
Fixpoint parse_value (fuel : nat) (s : jstring) : option (JsValue * jstring) :=
  match fuel with
  | O => None
  | S n =>
      match s with
      | [] => None
      | c :: r =>
          if c =? 123 then
            match skip_ws r with
            | [] => None
            | c' :: r' =>
                if c' =? 125 then Some (JObj [], r')
                else match parse_members n (c' :: r') with
                     | Some (ps, rest) => Some (JObj (build_object ps), rest)
                     | None => None
                     end
            end
          else if c =? 91 then
            match skip_ws r with
            | [] => None
            | c' :: r' =>
                if c' =? 93 then Some (JArr [], r')
                else match parse_elements n (c' :: r') with
                     | Some (vs, rest) => Some (JArr vs, rest)
                     | None => None
                     end
            end
          else if c =? 34 then
            match parse_string r with
            | Some (t, rest) => Some (JStr t, rest)
            | None => None
            end
          else
            match after s_null s, after s_true s, after s_false s with
            | Some rest, _, _ => Some (JNull, rest)
            | _, Some rest, _ => Some (JBool true, rest)
            | _, _, Some rest => Some (JBool false, rest)
            | None, None, None =>
                match parse_number s with
                | Some (x, rest) => Some (JNum x, rest)
                | None => None
                end
            end
      end
  end

with parse_elements (fuel : nat) (s : jstring) : option (list JsValue * jstring) :=
  match fuel with
  | O => None
  | S n =>
      match parse_value n s with
      | None => None
      | Some (v, r) =>
          match skip_ws r with
          | [] => None
          | c :: r' =>
              if c =? 93 then Some ([v], r')
              else if c =? 44 then
                match parse_elements n (skip_ws r') with
                | Some (vs, rest) => Some (v :: vs, rest)
                | None => None
                end
              else None
          end
      end
  end

with parse_members (fuel : nat) (s : jstring)
  : option (list (jstring * JsValue) * jstring) :=
  match fuel with
  | O => None
  | S n =>
      match s with
      | [] => None
      | q :: r =>
          if q =? 34 then
            match parse_string r with
            | None => None
            | Some (k, r1) =>
                match skip_ws r1 with
                | [] => None
                | c1 :: r2 =>
                    if c1 =? 58 then
                      match parse_value n (skip_ws r2) with
                      | None => None
                      | Some (v, r3) =>
                          match skip_ws r3 with
                          | [] => None
                          | c3 :: r4 =>
                              if c3 =? 125 then Some ([(k, v)], r4)
                              else if c3 =? 44 then
                                match parse_members n (skip_ws r4) with
                                | Some (ps, rest) => Some ((k, v) :: ps, rest)
                                | None => None
                                end
                              else None
                          end
                      end
                    else None
                end
            end
          else None
      end
  end.

(** [JSON.parse text]; [None] is a SyntaxError. Two units of fuel per code
    unit of the text are enough ([parse_value_fuel]). *)
Definition JSON_parse (text : jstring) : option JsValue :=
  match parse_value (2 * length text + 2) (skip_ws text) with
  | Some (v, r) => match skip_ws r with [] => Some v | _ => None end
  | None => None
  end.

(** ** The node graph *)

(** Modelled from the spec: the type tag of a Row ([types/graph] is not among
    the sources); the code only asks whether it is ["array"] or ["object"]. *)
Inductive RowType : Type := scalar | array | object.

(** Modelled from the spec: a Row has an optional key, a value and a type tag. *)
Record Row : Type := mkRow {
  key : option jstring;
  value : JsValue;
  type : RowType
}.

(** A path segment is a number or a string. The numbers taken are the
    natural numbers; the numeral that [num_of_N] gives one is what ToString
    writes below 2^53 (see [safe_numbers]). *)
Inductive Seg : Type :=
| SNum (n : N)
| SStr (s : jstring).

(** Modelled from the spec: a Node has an identifier, a path (which the code
    allows to be absent) and its Rows, [NodeData["text"]]. *)
Record NodeData : Type := mkNode {
  id : jstring;
  text : list Row;
  path : option (list Seg)
}.

(** [!row.key] is false for a key that is present and not the empty string. *)
Definition truthy (k : option jstring) : bool :=
  match k with
  | Some (_ :: _) => true
  | Some [] | None => false
  end.

(** ToPropertyKey of a segment. *)
Definition key_of_seg (s : Seg) : jstring :=
  match s with
  | SNum n => num_to_string (num_of_N n)
  | SStr k => k
  end.

(** ** normalizeNodeData *)

(** [JSON.stringify (obj, null, 2)] for an object, which is always a string
    ([stringify_object_ser]). *)
Definition stringify_object (props : list (jstring * JsValue)) : jstring :=
  match JSON_stringify (JObj props) with
  | Some s => s
  | None => []
  end.

(** What the object under construction inherits from: [Object.prototype], as
    the literal [{}] does; nothing, once [__proto__] was assigned [null]; or
    the array or object that was assigned to [__proto__]. *)
Inductive Prototype : Type :=
| ObjectPrototype
| NoPrototype
| DataPrototype (v : JsValue).

(** The object [obj] of [normalizeNodeData]: its own properties, in the order
    [JSON.stringify] enumerates them, and its prototype. *)
Record Built : Type := mkBuilt {
  own : list (jstring * JsValue);
  prototype : Prototype
}.

(** [reaches_setter o]: an assignment to [__proto__] on [o] runs the accessor
    of [Object.prototype]. It does not when [o] has an own property of that
    name, when [o] has no prototype, and when the prototype of [o] is an
    object with an own property of that name, which the assignment then
    shadows by an own property of [o]. *)
Definition reaches_setter (o : Built) : bool :=
  match obj_get (own o) s_proto with
  | Some _ => false
  | None =>
      match prototype o with
      | ObjectPrototype => true
      | NoPrototype => false
      | DataPrototype (JObj props) =>
          match obj_get props s_proto with
          | Some _ => false
          | None => true
          end
      | DataPrototype _ => true
      end
  end.

(** [obj[k] = v] on the object under construction. Every member of the
    built-in prototypes but [__proto__] is a writable data property, so the
    assignment creates or overwrites an own property. The setter of
    [__proto__] replaces the prototype when [v] is [null] or an object, and
    does nothing for another [v]. *)
Definition assign (o : Built) (k : jstring) (v : JsValue) : Built :=
  if jstring_eqb k s_proto && reaches_setter o then
    match v with
    | JNull => mkBuilt (own o) NoPrototype
    | JArr _ | JObj _ => mkBuilt (own o) (DataPrototype v)
    | _ => o
    end
  else mkBuilt (obj_set (own o) k v) (prototype o).

(** The body of the [forEach]: [obj] after one row. *)
Definition add_row (obj : Built) (row : Row) : Built :=
  match type row with
  | array | object => obj
  | scalar =>
      match key row with
      | Some (c :: k) => assign obj (c :: k) (value row)
      | Some [] | None => obj
      end
  end.

Definition s_empty_object : jstring := Eval cbv in u "{}".

(** [JSON.stringify] writes the own properties of [obj]: a [toJSON] that
    [obj] has or inherits is JSON data, which is not callable. *)
Definition normalizeNodeData (nodeRows : option (list Row)) : Outcome jstring :=
  match nodeRows with
  | None | Some [] => Normal s_empty_object
  | Some ((row :: rest) as rows) =>
      if match rest with [] => negb (truthy (key row)) | _ => false end
      then to_string (value row)
      else
        let obj := fold_left add_row rows (mkBuilt [] ObjectPrototype) in
        Normal (stringify_object (own obj))
  end.

(** ** jsonPathToString *)

(** A number segment is written bare, a string segment between double quotes
    (and not escaped). *)
Definition seg_text (seg : Seg) : jstring :=
  match seg with
  | SNum n => num_to_string (num_of_N n)
  | SStr k => 34 :: k ++ [34]
  end.

Definition jsonPathToString (path : option (list Seg)) : jstring :=
  match path with
  | None | Some [] => [36]
  | Some segs => 36 :: 91 :: join_with [93; 91] (map seg_text segs) ++ [93]
  end.

(** ** updateJsonAtPath *)

(** The child [child], read from [base[k]] and assigned into since, seen from
    [base]: an object or an array holds a reference to it; a primitive read
    off a string, or [undefined], is not part of [base]. *)
Definition update_own (base : JsValue) (k : jstring) (child : JsValue) : JsValue :=
  match base with
  | JObj props =>
      match obj_get props k with
      | Some _ => JObj (obj_set props k child)
      | None => base
      end
  | JArr l =>
      match array_index k with
      | Some i => if i <? N.of_nat (length l) then JArr (arr_set l (N.to_nat i) child) else base
      | None => base
      end
  | _ => base
  end.

(** The loop [for (let i = 0; i < path.length - 1; i++) current = current[path[i]]],
    run over the segments [segs]: the value of [current] after it. *)
Fixpoint walk (current : JsValue) (segs : list Seg) : Outcome JsValue :=
  match segs with
  | [] => Normal current
  | seg :: rest =>
      next <- get current (key_of_seg seg) ;;
      walk next rest
  end.

(** [obj] as it is once the value reached from it along [segs] has become
    [current']: [current] is a reference into [obj], so the assignment
    [current[...] = newValue] is seen from [obj]. *)
Fixpoint seen_from (obj : JsValue) (segs : list Seg) (current' : JsValue) : JsValue :=
  match segs with
  | [] => current'
  | seg :: rest =>
      match get obj (key_of_seg seg) with
      | Normal child => update_own obj (key_of_seg seg) (seen_from child rest current')
      | _ => obj
      end
  end.

(** The [try] block. *)
Definition updateJsonAtPath_try (json : jstring) (path : option (list Seg))
    (newValue : JsValue) : Outcome (option jstring) :=
  obj <- match JSON_parse json with
         | Some v => Normal v
         | None => Throw SyntaxError
         end ;;
  match path with
  | None | Some [] => Normal (JSON_stringify newValue)
  | Some segs =>
      current <- walk obj (removelast segs) ;;
      current' <- put current (key_of_seg (last segs (SStr []))) newValue ;;
      Normal (JSON_stringify (seen_from obj (removelast segs) current'))
  end.

(** [try { ... } catch { return json; }]. The result is a string, or [None]
    for [undefined]. *)
Definition updateJsonAtPath (json : jstring) (path : option (list Seg))
    (newValue : JsValue) : Outcome (option jstring) :=
  match updateJsonAtPath_try json path newValue with
  | Throw _ => Normal (Some json)
  | r => r
  end.

(** ** The edit session *)

(** Modelled from the spec: the document store ([useJson]) and the node-graph
    store ([useGraph]), which are not among the sources, as the document text
    [json] and the fields [nodes] and [selectedNode]. With them, what else the
    handlers of [NodeModal] read and write: the component's two state cells
    [isEditing] and [editedContent], and what [console.error] was given. *)
Record State : Type := mkState {
  json : jstring;
  nodes : list NodeData;
  selectedNode : option NodeData;
  isEditing : bool;
  editedContent : jstring;
  console : list JsError
}.

(** A handler runs from a state to a state and a completion. *)
Definition M (A : Type) : Type := State -> State * Outcome A.

Definition ret {A} (a : A) : M A := fun st => (st, Normal a).

Definition mbind {A B} (m : M A) (f : A -> M B) : M B :=
  fun st =>
    match m st with
    | (st', Normal a) => f a st'
    | (st', Throw e) => (st', Throw e)
    | (st', Unmodelled) => (st', Unmodelled)
    end.

Notation "x <~ m ;; k" := (mbind m (fun x => k))
  (at level 61, m at next level, right associativity).

Definition lift {A} (o : Outcome A) : M A := fun st => (st, o).

Definition read {A} (f : State -> A) : M A := fun st => (st, Normal (f st)).

(** [try { m } catch (error) { h error }]. *)
Definition try_catch {A} (m : M A) (h : JsError -> M A) : M A :=
  fun st =>
    match m st with
    | (st', Throw e) => h e st'
    | r => r
    end.

(** Modelled from the spec: the document store's [setDocumentText], which
    sets the text. *)
Definition setJson (s : jstring) : M unit :=
  fun st => (mkState s (nodes st) (selectedNode st) (isEditing st)
               (editedContent st) (console st), Normal tt).

(** Modelled from the spec: the node-graph store's combined commit,
    [useGraph.setState ({ nodes, selectedNode })]. *)
Definition setGraph (ns : list NodeData) (sel : NodeData) : M unit :=
  fun st => (mkState (json st) ns (Some sel) (isEditing st)
               (editedContent st) (console st), Normal tt).

Definition setIsEditing (b : bool) : M unit :=
  fun st => (mkState (json st) (nodes st) (selectedNode st) b
               (editedContent st) (console st), Normal tt).

Definition setEditedContent (s : jstring) : M unit :=
  fun st => (mkState (json st) (nodes st) (selectedNode st) (isEditing st)
               s (console st), Normal tt).

Definition console_error (e : JsError) : M unit :=
  fun st => (mkState (json st) (nodes st) (selectedNode st) (isEditing st)
               (editedContent st) (e :: console st), Normal tt).

Fixpoint map_outcome {A B} (f : A -> Outcome B) (l : list A) : Outcome (list B) :=
  match l with
  | [] => Normal []
  | a :: r => b <- f a ;; bs <- map_outcome f r ;; Normal (b :: bs)
  end.

(** [setEditedContent (normalizeNodeData (nodeData?.text ?? []))], then
    [setIsEditing (true)]. *)
Definition handleEdit : M unit :=
  nodeData <~ read selectedNode ;;
  s <~ lift (normalizeNodeData
               (Some match nodeData with Some n => text n | None => [] end)) ;;
  _ <~ setEditedContent s ;;
  setIsEditing true.

(** The row of the merge-back:
    [value: row.key && parsedContent[row.key] !== undefined
            ? parsedContent[row.key] : row.value]. *)
Definition merge_row (parsedContent : JsValue) (row : Row) : Outcome Row :=
  match key row with
  | Some (c :: k) =>
      x <- get parsedContent (c :: k) ;;
      match x with
      | JUndefined => Normal row
      | _ => Normal (mkRow (key row) x (type row))
      end
  | Some [] | None => Normal row
  end.

(** [nodeData] and [editedContent] are the values the callback closed over.
    The document store holds a string: [updateJsonAtPath] gives [undefined]
    only for the new value [undefined], which [JSON.parse] never returns. *)
Definition handleSave : M unit :=
  nodeData <~ read selectedNode ;;
  editedContent0 <~ read editedContent ;;
  try_catch
    match nodeData with
    | None => ret tt
    | Some nodeData =>
        parsedContent <~ lift match JSON_parse editedContent0 with
                              | Some v => Normal v
                              | None => Throw SyntaxError
                              end ;;
        currentJson <~ read json ;;
        updated <~ lift (updateJsonAtPath currentJson (path nodeData) parsedContent) ;;
        updatedJson <~ lift match updated with
                            | Some s => Normal s
                            | None => Unmodelled
                            end ;;
        _ <~ setJson updatedJson ;;
        ns <~ read nodes ;;
        updatedNodes <~ lift (map_outcome
          (fun node =>
             if jstring_eqb (id node) (id nodeData) then
               t <- map_outcome (merge_row parsedContent) (text nodeData) ;;
               Normal (mkNode (id node) t (path node))
             else Normal node) ns) ;;
        t <~ lift (map_outcome (merge_row parsedContent) (text nodeData)) ;;
        _ <~ setGraph updatedNodes (mkNode (id nodeData) t (path nodeData)) ;;
        setIsEditing false
    end
    (fun error => console_error error).

Definition handleCancel : M unit :=
  _ <~ setIsEditing false ;;
  setEditedContent [].

(** ** What NodeModal renders *)

(** The content area of the modal: the highlighted text with the Edit button,
    or the text area with the Cancel and Save buttons. *)
Inductive Content : Type :=
| CodeView (code : jstring)
| EditView (value : jstring).

(** What the component shows of the session: the content area and the text
    under [JSON Path]. The props [opened] and [onClose] go to the [Modal] as
    they are and are left out. *)
Record View : Type := mkView {
  content : Content;
  jsonPath : jstring
}.

(** The body of the component after its hooks: [null] without a selected
    node, else the content area by [isEditing] and the path string. *)
Definition NodeModal (st : State) : Outcome (option View) :=
  match selectedNode st with
  | None => Normal None
  | Some nodeData =>
      c <- (if isEditing st then Normal (EditView (editedContent st))
            else code <- normalizeNodeData (Some (text nodeData)) ;;
                 Normal (CodeView code)) ;;
      Normal (Some (mkView c (jsonPathToString (path nodeData))))
  end.

(** The text area's [onChange]. *)
Definition handleChange (value : jstring) : M unit := setEditedContent value.


(** * The vocabulary of the properties *)

(** ** Paths inside a document *)

Definition is_container (v : JsValue) : bool :=
  match v with
  | JObj _ | JArr _ => true
  | _ => false
  end.

(** The own property [k] of a container: a field of an object, an element of
    an array. *)
Definition own_child (base : JsValue) (k : jstring) : option JsValue :=
  match base with
  | JObj props => obj_get props k
  | JArr l =>
      match array_index k with
      | Some i => nth_error l (N.to_nat i)
      | None => None
      end
  | _ => None
  end.

(** [resolves base segs]: every segment of [segs], walked from [base], names
    an own property that is a container. *)
Fixpoint resolves (base : JsValue) (segs : list Seg) : bool :=
  match segs with
  | [] => true
  | seg :: rest =>
      match own_child base (key_of_seg seg) with
      | Some c => is_container c && resolves c rest
      | None => false
      end
  end.

(** The value at the end of a path of own properties. *)
Fixpoint resolve (base : JsValue) (segs : list Seg) : option JsValue :=
  match segs with
  | [] => Some base
  | seg :: rest =>
      match own_child base (key_of_seg seg) with
      | Some c => resolve c rest
      | None => None
      end
  end.

(** A key that names no built-in member: no member of a built-in prototype
    and not [length]. *)
Definition plain_key (k : jstring) : bool :=
  negb (builtin_member k) && negb (jstring_eqb k s_length).

Definition plain_path (segs : list Seg) : bool :=
  forallb (fun seg => plain_key (key_of_seg seg)) segs.

(** The last segment of a path fits the container it addresses: a field of an
    object (not [__proto__], unless the object has it as an own property), or
    an index of an array. *)
Definition fits_last (base : JsValue) (k : jstring) : bool :=
  match base with
  | JObj props =>
      match obj_get props k with
      | Some _ => true
      | None => negb (jstring_eqb k s_proto)
      end
  | JArr _ =>
      match array_index k with
      | Some _ => true
      | None => false
      end
  | _ => false
  end.

(** [fits base segs]: every segment of [segs] but the last resolves to a
    container inside [base], and the last one fits the container reached. *)
Fixpoint fits (base : JsValue) (segs : list Seg) : bool :=
  match segs with
  | [] => false
  | [last] => fits_last base (key_of_seg last)
  | seg :: rest =>
      match own_child base (key_of_seg seg) with
      | Some c => fits c rest
      | None => false
      end
  end.

(** The loop and the assignment after it as one recursion from [current]
    along [segs]: the result is [current] as the assignment leaves it. *)
Fixpoint assign_at (current : JsValue) (segs : list Seg) (newValue : JsValue)
  : Outcome JsValue :=
  match segs with
  | [] => Normal current
  | [last] => put current (key_of_seg last) newValue
  | seg :: rest =>
      child <- get current (key_of_seg seg) ;;
      child' <- assign_at child rest newValue ;;
      Normal (update_own current (key_of_seg seg) child')
  end.

(** ** JSON values *)

Definition head_nonzero (ds : list N) : bool :=
  match ds with
  | d :: _ => negb (d =? 0)
  | [] => false
  end.

(** The digits of a finite non-zero number: decimal digits, the first and
    the last of them not zero. *)
Definition wf_digits (ds : list N) : bool :=
  forallb (fun d => d <? 10) ds && head_nonzero ds && head_nonzero (rev ds).

(** A number that [JSON.parse] can have produced and [JSON.stringify] writes
    back as it is: zero in its one form, or normalised digits below the
    overflow threshold. *)
Definition wf_num (n : JsNum) : bool :=
  match n with
  | Fin neg [] pt => negb neg && (pt =? 0)%Z
  | Fin _ ds pt => wf_digits ds && negb (overflows ds pt)
  | Inf _ => false
  end.

Definition keys (props : list (jstring * JsValue)) : list jstring := map fst props.

(** The keys of an object as CreateDataProperty leaves them: no key twice,
    and no key after one it would have been created before. *)
Fixpoint wf_keys (ks : list jstring) : bool :=
  match ks with
  | [] => true
  | k :: r =>
      forallb (fun k' => negb (jstring_eqb k' k) && negb (key_before k' k)) r
      && wf_keys r
  end.

(** [wf holes v]: [v] has the shape of parsed JSON: numbers are normalised
    (or an infinity), the keys of every object are in order, and [undefined]
    occurs nowhere, except, when [holes] is set, as an element of an array. *)
Fixpoint wf (holes : bool) (v : JsValue) : bool :=
  match v with
  | JUndefined => false
  | JNull | JBool _ | JStr _ => true
  | JNum (Inf _) => true
  | JNum n => wf_num n
  | JArr l =>
      forallb (fun x => match x with JUndefined => holes | _ => wf holes x end) l
  | JObj props =>
      wf_keys (map fst props) && forallb (fun kv => wf holes (snd kv)) props
  end.

(** An element of an array: a value, or a hole. *)
Definition wf_elem (x : JsValue) : bool :=
  match x with
  | JUndefined => true
  | _ => wf true x
  end.

(** [finite v]: no number in [v] is an infinity. *)
Fixpoint finite (v : JsValue) : bool :=
  match v with
  | JNum (Inf _) => false
  | JArr l => forallb finite l
  | JObj props => forallb (fun kv => finite (snd kv)) props
  | _ => true
  end.

(** A JSON value: what [JSON.stringify] writes and [JSON.parse] reads back
    unchanged. *)
Definition is_json (v : JsValue) : bool := wf false v && finite v.

(** What [JSON.parse] reads back from the text of [v]: an infinity and a hole
    of an array were written [null]. *)
Fixpoint jsonify (v : JsValue) : JsValue :=
  match v with
  | JUndefined => JNull
  | JNum (Inf _) => JNull
  | JArr l => JArr (map jsonify l)
  | JObj props => JObj (map (fun kv => (fst kv, jsonify (snd kv))) props)
  | _ => v
  end.

Definition jsonify_props (props : list (jstring * JsValue)) : list (jstring * JsValue) :=
  map (fun kv => (fst kv, jsonify (snd kv))) props.

(** The values whose ToString is their JSON text. *)
Definition json_scalar (v : JsValue) : bool :=
  match v with
  | JNull | JBool _ => true
  | JNum n => wf_num n
  | _ => false
  end.

(** ** Rows *)

(** The rows the [forEach] assigns: type neither [array] nor [object], and a
    key that is not empty. *)
Definition kept (row : Row) : bool :=
  match type row, key row with
  | scalar, Some (_ :: _) => true
  | _, _ => false
  end.

Definition key_text (row : Row) : jstring :=
  match key row with
  | Some k => k
  | None => []
  end.

(** The fields of the rows [rows] that are assigned, one after the other. *)
Definition row_mapping (rows : list Row) : list (jstring * JsValue) :=
  fold_left (fun m row => if kept row then obj_set m (key_text row) (value row) else m)
    rows [].

(** An assigned row keyed [__proto__]. *)
Definition proto_row (row : Row) : bool :=
  kept row && jstring_eqb (key_text row) s_proto.

(** No assigned row is keyed [__proto__]. *)
Definition proto_free (rows : list Row) : bool :=
  forallb (fun row => negb (proto_row row)) rows.

(** The values whose assignment to [__proto__] puts the inherited setter out
    of reach: [null], which leaves the object without a prototype, and an
    object that has [__proto__] as an own key, which becomes the prototype
    and shadows the setter. *)
Definition cuts_setter (v : JsValue) : bool :=
  match v with
  | JNull => true
  | JObj props =>
      match obj_get props s_proto with
      | Some _ => true
      | None => false
      end
  | _ => false
  end.

(** No assigned row keyed [__proto__] puts the setter out of reach. *)
Definition proto_uncut (rows : list Row) : bool :=
  forallb (fun row => negb (proto_row row && cuts_setter (value row))) rows.

(** The rows without the assigned rows keyed [__proto__]. *)
Definition field_rows (rows : list Row) : list Row :=
  filter (fun row => negb (proto_row row)) rows.


Definition single_keyless (rows : list Row) : bool :=
  match rows with
  | [row] => negb (truthy (key row))
  | _ => false
  end.

(** The rows [handleEdit] normalises: [nodeData?.text ?? []]. *)
Definition selected_rows (st : State) : list Row :=
  match selectedNode st with
  | Some n => text n
  | None => []
  end.

(** What the merge-back makes of a row: key and type stay; a row with a
    non-empty key takes what the read of that key on the draft gives (an own
    property of the draft, or the length of an array or of a string),
    whatever the row's type, and keeps its value when the read gives
    [undefined]. *)
Definition merged (parsedContent : JsValue) (row row' : Row) : Prop :=
  key row' = key row /\ type row' = type row
  /\ forall c k x, key row = Some (c :: k) ->
       get parsedContent (c :: k) = Normal x ->
       value row' = match x with JUndefined => value row | _ => x end.

(** The node list after the merge-back: the nodes with the selected node's
    identifier get its merged rows. *)
Definition merged_nodes (nd : NodeData) (rows' : list Row) (ns : list NodeData)
  : list NodeData :=
  map (fun node =>
         if jstring_eqb (id node) (id nd) then mkNode (id node) rows' (path node)
         else node) ns.

(** ** Reading a text *)

(** What may follow a number in a text: not a character that would extend
    it. *)
Definition num_end (rest : jstring) : bool :=
  match rest with
  | [] => true
  | c :: _ => negb (is_digit c) && negb (c =? 46) && negb (c =? 101) && negb (c =? 69)
  end.

Definition digit_end (rest : jstring) : bool :=
  match rest with
  | [] => true
  | c :: _ => negb (is_digit c)
  end.

Definition cons_parsed (c : N) (r : option (jstring * jstring)) : option (jstring * jstring) :=
  match r with
  | Some (t, rest) => Some (c :: t, rest)
  | None => None
  end.

Definition elem_text (ind : jstring) (x : JsValue) : jstring :=
  match ser ind x with
  | Some t => t
  | None => s_null
  end.

Fixpoint member_texts (ind : jstring) (props : list (jstring * JsValue)) : list jstring :=
  match props with
  | [] => []
  | (k, x) :: r =>
      match ser ind x with
      | Some t => (quote k ++ 58 :: 32 :: t) :: member_texts ind r
      | None => member_texts ind r
      end
  end.

(** The first code unit of the text of a value starts a value. *)
Definition value_start (c : N) : bool :=
  negb (is_ws c) && negb (c =? 93) && negb (c =? 125) && negb (c =? 44).

Definition ws_only (ind : jstring) : bool := forallb is_ws ind.

(** The fuel reading a value takes: one unit for each value and one for each
    member of a container. *)
Fixpoint size (v : JsValue) : nat :=
  match v with
  | JArr l => S (fold_right (fun x a => S (size x + a)) 0%nat l)
  | JObj props => S (fold_right (fun kv a => S (size (snd kv) + a)) 0%nat props)
  | _ => 1
  end.

Definition elems_size (l : list JsValue) : nat :=
  fold_right (fun x a => S (size x + a)) 0%nat l.

Definition members_size (props : list (jstring * JsValue)) : nat :=
  fold_right (fun kv a => S (size (snd kv) + a)) 0%nat props.

Definition reads_back (v : JsValue) : Prop :=
  forall ind rest fuel s,
    wf true v = true -> ws_only ind = true -> ser ind v = Some s ->
    num_end rest = true -> (size v <= fuel)%nat ->
    parse_value fuel (s ++ rest) = Some (jsonify v, rest).

Definition value_fuel_ok (f : nat) : Prop :=
  forall s v r, parse_value f s = Some (v, r) ->
    (length r < length s)%nat
    /\ forall f', (2 * (length s - length r) <= f')%nat -> parse_value f' s = Some (v, r).

Definition elements_fuel_ok (f : nat) : Prop :=
  forall s vs r, parse_elements f s = Some (vs, r) ->
    (length r < length s)%nat
    /\ forall f', (2 * (length s - length r) + 1 <= f')%nat ->
         parse_elements f' s = Some (vs, r).

Definition members_fuel_ok (f : nat) : Prop :=
  forall s ps r, parse_members f s = Some (ps, r) ->
    (length r < length s)%nat
    /\ forall f', (2 * (length s - length r) + 1 <= f')%nat ->
         parse_members f' s = Some (ps, r).

Definition value_wf_ok (f : nat) : Prop :=
  forall s v r, parse_value f s = Some (v, r) -> wf false v = true.

Definition elements_wf_ok (f : nat) : Prop :=
  forall s vs r, parse_elements f s = Some (vs, r) -> forallb (wf false) vs = true.

Definition members_wf_ok (f : nat) : Prop :=
  forall s ps r, parse_members f s = Some (ps, r) ->
    forallb (fun kv => wf false (snd kv)) ps = true.

(** ** Sample inputs *)


Definition editing_invalid : State :=
  mkState (txt "{'a':1}")
    [mkNode (u "n1") [mkRow (Some (u "a")) (JNum (num_of_N 1)) scalar] (Some [])]
    (Some (mkNode (u "n1") [mkRow (Some (u "a")) (JNum (num_of_N 1)) scalar] (Some [])))
    true (txt "{'a':") [].



Definition n2 : JsValue := JNum (num_of_N 2).

Definition editing_a : State :=
  mkState (txt "{'a':1,'b':[1]}")
    [mkNode (u "n1") [mkRow (Some (u "a")) (JNum (num_of_N 1)) scalar;
                      mkRow (Some (u "b")) (JStr (u "[1 item]")) array] (Some [])]
    (Some (mkNode (u "n1") [mkRow (Some (u "a")) (JNum (num_of_N 1)) scalar;
                            mkRow (Some (u "b")) (JStr (u "[1 item]")) array] (Some [])))
    true (txt "{'a':2}") [].



(** ** Path strings, rows and states *)

(** A segment between its brackets, as [jsonPathToString] joins them. *)
Definition bracketed (seg : Seg) : jstring := 91 :: seg_text seg ++ [93].

(** The paths whose number segments are below 10^21, where ToString starts
    to use the exponent notation. *)
Definition small_numbers (segs : list Seg) : bool :=
  forallb (fun seg => match seg with
                      | SNum i => i <? 1000000000000000000000
                      | SStr _ => true
                      end) segs.

(** The paths that have no double quote in a key. *)
Definition unquoted (segs : list Seg) : bool :=
  forallb (fun seg => match seg with
                      | SNum _ => true
                      | SStr k => negb (existsb (N.eqb 34) k)
                      end) segs.

(** A segment as the path string shows it: the decimal numeral of a number,
    a key between double quotes. *)
Definition shown (seg : Seg) : jstring :=
  match seg with
  | SNum i => 91 :: dec i ++ [93]
  | SStr k => 91 :: 34 :: k ++ [34; 93]
  end.


(** Every row that is assigned holds a JSON value. *)
Definition json_rows (rows : list Row) : bool :=
  forallb (fun row => negb (kept row) || is_json (value row)) rows.

(** The state after [console.error] was given [e]. *)
Definition logged (e : JsError) (st : State) : State :=
  mkState (json st) (nodes st) (selectedNode st) (isEditing st) (editedContent st)
    (e :: console st).

(** The state with the document store set to [s]. *)
Definition with_json (s : jstring) (st : State) : State :=
  mkState s (nodes st) (selectedNode st) (isEditing st) (editedContent st) (console st).

(** The segments of a path that may be absent. *)
Definition segments (path : option (list Seg)) : list Seg :=
  match path with
  | Some segs => segs
  | None => []
  end.




(** The paths whose number segments are below 2^53: every such integer is a
    Number, and ToString writes its decimal numeral. (From 2^53 on not every
    integer is a Number, and ToString writes the shortest digits that read
    back, padded with zeros.) *)
Definition safe_numbers (segs : list Seg) : bool :=
  forallb (fun seg => match seg with
                      | SNum i => i <? 9007199254740992
                      | SStr _ => true
                      end) segs.

(** The string of an element in [Array.prototype.join]. *)
Definition element_string (x : JsValue) : Outcome jstring :=
  match x with
  | JUndefined | JNull => Normal []
  | _ => to_string x
  end.

(** A length that every engine allows a string (the lowest limit in use is
    2^28 - 16 code units). Past its engine's limit [JSON.stringify] throws a
    RangeError, which [JSON_stringify] leaves out. *)
Definition string_limit : N := 268435440.

(** The text that the [try] block of [updateJsonAtPath] writes is within
    [string_limit]. *)
Definition patch_within_limit (json : jstring) (path : option (list Seg))
    (newValue : JsValue) : bool :=
  match updateJsonAtPath_try json path newValue with
  | Normal (Some s) => N.of_nat (length s) <=? string_limit
  | _ => true
  end.

(** The keys of the rows of [nd] and the segments of its path name no
    built-in member. *)
Definition plain_node (nd : NodeData) : bool :=
  plain_path (segments (path nd))
  && forallb (fun row => match key row with
                         | Some k => plain_key k
                         | None => true
                         end) (text nd).

Definition selected_plain (st : State) : bool :=
  match selectedNode st with
  | Some nd => plain_node nd
  | None => true
  end.

(** * ECMAScript: reading back what was written *)

(** ** Strings and keys *)

Lemma jstring_eqb_spec (a b : jstring) : reflect (a = b) (jstring_eqb a b).
Proof.
  revert b; induction a as [|x a IH]; intros [|y b]; simpl;
    try (constructor; congruence).
  destruct (N.eqb_spec x y) as [->|Hxy]; simpl.
  - destruct (IH b) as [->|Hab]; constructor; congruence.
  - constructor; congruence.
Qed.

Lemma jstring_eqb_refl (a : jstring) : jstring_eqb a a = true.
Proof. destruct (jstring_eqb_spec a a); congruence. Qed.


Lemma jstring_eqb_neq (a b : jstring) : jstring_eqb a b = false <-> a <> b.
Proof. destruct (jstring_eqb_spec a b); split; congruence. Qed.


(** A member a read can find on a prototype is one of the listed members. *)
Lemma inherited_builtin (v : JsValue) (k : jstring) :
  inherited v k = true -> builtin_member k = true.
Proof.
  unfold builtin_member; destruct v; simpl; try discriminate; intros H;
    repeat (apply orb_true_iff in H; destruct H as [H|H]);
    rewrite H; repeat rewrite orb_true_r; reflexivity.
Qed.

Lemma proto_builtin : builtin_member s_proto = true.
Proof. reflexivity. Qed.

(** ** Own properties of an object *)

Lemma obj_get_obj_set_same (props : list (jstring * JsValue)) (k : jstring) (v : JsValue) :
  obj_get (obj_set props k v) k = Some v.
Proof.
  induction props as [|[k' v'] r IH]; simpl.
  - now rewrite jstring_eqb_refl.
  - destruct (jstring_eqb_spec k' k) as [->|Hne]; simpl.
    + now rewrite jstring_eqb_refl.
    + destruct (key_before k k'); simpl.
      * now rewrite jstring_eqb_refl.
      * apply jstring_eqb_neq in Hne. now rewrite Hne.
Qed.

Lemma obj_get_obj_set_other (props : list (jstring * JsValue)) (k k' : jstring) (v : JsValue) :
  k <> k' -> obj_get (obj_set props k v) k' = obj_get props k'.
Proof.
  intros Hkk. apply jstring_eqb_neq in Hkk.
  induction props as [|[k0 v0] r IH]; simpl.
  - now rewrite Hkk.
  - destruct (jstring_eqb_spec k0 k) as [->|Hne]; simpl.
    + now rewrite Hkk.
    + destruct (key_before k k0); simpl.
      * now rewrite Hkk.
      * now rewrite IH.
Qed.

(** ** Numbers: printing and reading back *)

Arguments is_digit : simpl never.
Arguments is_ws : simpl never.

Lemma digits_of_uint_lt (d : Decimal.uint) : Forall (fun x => x < 10) (digits_of_uint d).
Proof. induction d; simpl; constructor; (lia || assumption). Qed.

Lemma uint_of_digits_of_uint (d : Decimal.uint) : uint_of_digits (digits_of_uint d) = d.
Proof. induction d; simpl; congruence. Qed.

Lemma N_of_digits_of_N (n : N) : N_of_digits (digits_of_N n) = n.
Proof.
  unfold N_of_digits, digits_of_N. rewrite uint_of_digits_of_uint.
  apply DecimalN.Unsigned.of_to.
Qed.

Lemma is_digit_char (d : N) : d < 10 -> is_digit (48 + d) = true.
Proof.
  intros H. unfold is_digit. apply andb_true_iff.
  split; apply N.leb_le; lia.
Qed.

Lemma num_end_digit_end (rest : jstring) : num_end rest = true -> digit_end rest = true.
Proof.
  destruct rest as [|c r]; [reflexivity|]. simpl.
  intros H. repeat (apply andb_true_iff in H; destruct H as [H ?]). assumption.
Qed.

Lemma span_digits_chars (ds : list N) (rest : jstring) :
  Forall (fun x => x < 10) ds -> digit_end rest = true ->
  span_digits (digit_chars ds ++ rest) = (ds, rest).
Proof.
  intros Hds Hrest. unfold digit_chars.
  induction Hds as [|d ds Hd _ IH]; cbn [map app span_digits].
  - destruct rest as [|c r]; [reflexivity|]. cbn [span_digits digit_end] in *.
    apply negb_true_iff in Hrest. now rewrite Hrest.
  - rewrite (is_digit_char d Hd), IH. f_equal. f_equal. lia.
Qed.

Lemma digit_end_cons (c : N) (r : jstring) : is_digit c = false -> digit_end (c :: r) = true.
Proof. intros H. simpl. now rewrite H. Qed.

Lemma strip_zeros_zeros (n : nat) (ds : list N) :
  strip_zeros (repeat 0 n ++ ds) = strip_zeros ds.
Proof. induction n; simpl; auto. Qed.

Lemma strip_zeros_head (ds : list N) : head_nonzero ds = true -> strip_zeros ds = ds.
Proof.
  destruct ds as [|d r]; [discriminate|]. simpl. intros H.
  apply negb_true_iff, N.eqb_neq in H. destruct d; [congruence|reflexivity].
Qed.

Lemma strip_trailing_zeros (ds : list N) (n : nat) :
  head_nonzero (rev ds) = true -> strip_trailing (ds ++ repeat 0 n) = ds.
Proof.
  intros H. unfold strip_trailing. rewrite rev_app_distr, rev_repeat.
  rewrite strip_zeros_zeros, strip_zeros_head by assumption.
  apply rev_involutive.
Qed.

Lemma strip_trailing_id (ds : list N) :
  head_nonzero (rev ds) = true -> strip_trailing ds = ds.
Proof.
  intros H. rewrite <- (app_nil_r ds) at 1. now apply (strip_trailing_zeros ds 0).
Qed.

Lemma wf_digits_parts (ds : list N) :
  wf_digits ds = true ->
  Forall (fun x => x < 10) ds /\ head_nonzero ds = true /\ head_nonzero (rev ds) = true.
Proof.
  unfold wf_digits. intros H.
  apply andb_true_iff in H. destruct H as [H H3].
  apply andb_true_iff in H. destruct H as [H1 H2].
  repeat split; try assumption.
  rewrite forallb_forall in H1. apply Forall_forall. intros x Hx.
  apply N.ltb_lt. now apply H1.
Qed.

Lemma digit_chars_app (a b : list N) : digit_chars (a ++ b) = digit_chars a ++ digit_chars b.
Proof. apply map_app. Qed.

Lemma zeros_digit_chars (n : nat) : zeros n = digit_chars (repeat 0 n).
Proof.
  unfold zeros, digit_chars. induction n as [|n IH]; [reflexivity|].
  cbn [repeat map]. now rewrite <- IH.
Qed.

Lemma Forall_repeat_lt (n : nat) : Forall (fun x => x < 10) (repeat 0 n).
Proof. induction n; simpl; constructor; (lia || assumption). Qed.

Ltac bools :=
  repeat match goal with
    | H : (_ && _)%bool = true |- _ => apply andb_true_iff in H; destruct H
    | H : (_ && _)%bool = false |- _ => apply andb_false_iff in H
    | H : (_ || _)%bool = false |- _ => apply orb_false_iff in H; destruct H
    | H : negb _ = true |- _ => apply negb_true_iff in H
    | H : negb _ = false |- _ => apply negb_false_iff in H
    | H : (_ <=? _)%Z = true |- _ => apply Z.leb_le in H
    | H : (_ <=? _)%Z = false |- _ => apply Z.leb_gt in H
    | H : (_ <? _)%Z = true |- _ => apply Z.ltb_lt in H
    | H : (_ <? _)%Z = false |- _ => apply Z.ltb_ge in H
    | H : (_ =? _)%Z = true |- _ => apply Z.eqb_eq in H
    | H : (_ =? _)%Z = false |- _ => apply Z.eqb_neq in H
    | H : (_ <=? _) = true |- _ => apply N.leb_le in H
    | H : (_ <=? _) = false |- _ => apply N.leb_gt in H
    | H : (_ <? _) = true |- _ => apply N.ltb_lt in H
    | H : (_ <? _) = false |- _ => apply N.ltb_ge in H
    | H : (_ =? _) = true |- _ => apply N.eqb_eq in H
    | H : (_ =? _) = false |- _ => apply N.eqb_neq in H
    end.

Lemma digits_of_N_nonempty (n : N) : digits_of_N n <> [].
Proof.
  intros H. pose proof (N_of_digits_of_N n) as E. rewrite H in E.
  cbv in E. subst n. cbv in H. discriminate.
Qed.

Lemma int_part_chars (ds : list N) (rest : jstring) :
  Forall (fun x => x < 10) ds -> head_nonzero ds = true -> digit_end rest = true ->
  int_part (digit_chars ds ++ rest) = Some (ds, rest).
Proof.
  intros Hds Hh Hrest. destruct ds as [|d r]; [discriminate|].
  inversion Hds as [|? ? Hd Hr]; subst.
  cbn [head_nonzero] in Hh. bools.
  unfold digit_chars. cbn [map app int_part].
  replace (48 + d =? 48) with false by (symmetry; apply N.eqb_neq; lia).
  rewrite (is_digit_char d Hd).
  change (map (fun d0 => 48 + d0) r) with (digit_chars r).
  rewrite (span_digits_chars r rest Hr Hrest). do 3 f_equal. lia.
Qed.

Lemma frac_part_none (rest : jstring) :
  num_end rest = true -> frac_part rest = Some ([], rest).
Proof.
  destruct rest as [|c r]; [reflexivity|]. cbn [num_end frac_part]. intros H.
  bools. replace (c =? 46) with false by (symmetry; now apply N.eqb_neq). reflexivity.
Qed.

Lemma frac_part_chars (ds : list N) (rest : jstring) :
  Forall (fun x => x < 10) ds -> ds <> [] -> digit_end rest = true ->
  frac_part (46 :: digit_chars ds ++ rest) = Some (ds, rest).
Proof.
  intros Hds Hne Hrest. cbn [frac_part]. rewrite N.eqb_refl.
  rewrite span_digits_chars by assumption. destruct ds; [congruence|reflexivity].
Qed.

Lemma exp_part_none (rest : jstring) :
  num_end rest = true -> exp_part rest = Some (0%Z, rest).
Proof.
  destruct rest as [|c r]; [reflexivity|]. cbn [num_end exp_part]. intros H.
  bools.
  replace (c =? 101) with false by (symmetry; now apply N.eqb_neq).
  replace (c =? 69) with false by (symmetry; now apply N.eqb_neq). reflexivity.
Qed.

Lemma exp_digits_dec (neg : bool) (n : N) (rest : jstring) :
  digit_end rest = true ->
  exp_digits neg (dec n ++ rest)
  = Some (if neg then (- Z.of_N n)%Z else Z.of_N n, rest).
Proof.
  intros Hrest. unfold exp_digits, dec.
  rewrite span_digits_chars by (try assumption; apply digits_of_uint_lt).
  pose proof (digits_of_N_nonempty n) as Hne.
  destruct (digits_of_N n) as [|d r] eqn:E; [congruence|].
  rewrite <- E, N_of_digits_of_N. reflexivity.
Qed.

Lemma exp_part_chars (e : Z) (rest : jstring) :
  digit_end rest = true ->
  exp_part (101 :: exp_chars e ++ rest) = Some (e, rest).
Proof.
  intros Hrest. unfold exp_chars. cbn [exp_part app].
  change (101 =? 101) with true. cbn [orb].
  destruct (e <? 0)%Z eqn:Hneg; bools.
  - change (45 =? 43) with false. change (45 =? 45) with true. cbv iota.
    rewrite exp_digits_dec by assumption. do 2 f_equal.
    rewrite N2Z.inj_abs_N. lia.
  - change (43 =? 43) with true. cbv iota.
    rewrite exp_digits_dec by assumption. do 2 f_equal.
    rewrite N2Z.inj_abs_N. lia.
Qed.

Lemma make_num_shape (neg : bool) (int frac ds : list N) (e : Z) (z t : nat) :
  wf_digits ds = true ->
  int ++ frac = repeat 0 z ++ ds ++ repeat 0 t ->
  overflows ds (Z.of_nat (length int) - Z.of_nat z + e) = false ->
  make_num neg int frac e = Fin neg ds (Z.of_nat (length int) - Z.of_nat z + e).
Proof.
  intros Hwf Hall Hov. destruct (wf_digits_parts ds Hwf) as [Hlt [Hh Hl]].
  unfold make_num. rewrite Hall.
  rewrite strip_zeros_zeros.
  assert (Hs : strip_zeros (ds ++ repeat 0 t) = ds ++ repeat 0 t).
  { apply strip_zeros_head. destruct ds; [discriminate|assumption]. }
  rewrite Hs. rewrite (strip_trailing_zeros ds t Hl).
  replace (length (repeat 0%N z ++ ds ++ repeat 0%N t) - length (ds ++ repeat 0%N t))%nat
    with z by (rewrite !length_app, !repeat_length; lia).
  destruct ds as [|d r]; [discriminate|]. cbv zeta. rewrite Hov. reflexivity.
Qed.

Lemma make_num_eq (neg : bool) (int frac ds : list N) (e pt : Z) (z t : nat) :
  wf_digits ds = true ->
  int ++ frac = repeat 0 z ++ ds ++ repeat 0 t ->
  pt = (Z.of_nat (length int) - Z.of_nat z + e)%Z ->
  overflows ds pt = false ->
  make_num neg int frac e = Fin neg ds pt.
Proof. intros Hwf Hall -> Hov. now apply make_num_shape with (t := t). Qed.

Lemma head_nonzero_app (a b : list N) : head_nonzero a = true -> head_nonzero (a ++ b) = true.
Proof. destruct a; [discriminate|]. auto. Qed.

Lemma head_nonzero_firstn (n : nat) (a : list N) :
  (0 < n)%nat -> head_nonzero a = true -> head_nonzero (firstn n a) = true.
Proof. destruct n; [lia|]. destruct a; [discriminate|]. auto. Qed.

Lemma Forall_lt_app (a b : list N) :
  Forall (fun x => x < 10) a -> Forall (fun x => x < 10) b -> Forall (fun x => x < 10) (a ++ b).
Proof. intros. apply Forall_app. now split. Qed.

Lemma Forall_lt_firstn (n : nat) (a : list N) :
  Forall (fun x => x < 10) a -> Forall (fun x => x < 10) (firstn n a).
Proof.
  intros H. apply Forall_forall. intros x Hx.
  rewrite Forall_forall in H. apply H. rewrite <- (firstn_skipn n a).
  apply in_or_app. now left.
Qed.

Lemma Forall_lt_skipn (n : nat) (a : list N) :
  Forall (fun x => x < 10) a -> Forall (fun x => x < 10) (skipn n a).
Proof.
  intros H. apply Forall_forall. intros x Hx.
  rewrite Forall_forall in H. apply H. rewrite <- (firstn_skipn n a).
  apply in_or_app. now right.
Qed.

(** Reading back the text of a finite non-zero number gives the number. *)
Lemma parse_unsigned_body (neg : bool) (ds : list N) (pt : Z) (rest : jstring) :
  wf_digits ds = true -> overflows ds pt = false -> num_end rest = true ->
  parse_unsigned neg (num_body ds pt ++ rest) = Some (Fin neg ds pt, rest).
Proof.
  intros Hwf Hov Hrest. destruct (wf_digits_parts ds Hwf) as [Hlt [Hh Hl]].
  pose proof (num_end_digit_end rest Hrest) as Hrest'.
  assert (Hk : (0 < length ds)%nat) by (destruct ds; [discriminate | simpl; lia]).
  unfold num_body, parse_unsigned.
  destruct ((Z.of_nat (length ds) <=? pt) && (pt <=? 21))%Z eqn:C1; [|
  destruct ((0 <? pt) && (pt <=? 21))%Z eqn:C2; [|clear C1 C2;
  destruct ((-6 <? pt) && (pt <=? 0))%Z eqn:C3]].
  - bools. rewrite zeros_digit_chars, <- digit_chars_app.
    rewrite int_part_chars;
      [| apply Forall_lt_app; [assumption | apply Forall_repeat_lt]
       | now apply head_nonzero_app | assumption].
    rewrite frac_part_none, exp_part_none by assumption.
    rewrite (make_num_eq neg _ [] ds 0 pt 0 (Z.to_nat (pt - Z.of_nat (length ds))));
      [reflexivity | assumption | now rewrite app_nil_r | | assumption].
    rewrite length_app, repeat_length, Nat2Z.inj_add, Z2Nat.id; lia.
  - bools.
    assert (Hpk : (pt < Z.of_nat (length ds))%Z) by (destruct C1; bools; lia).
    assert (Hlen : length (firstn (Z.to_nat pt) ds) = Z.to_nat pt).
    { apply firstn_length_le. lia. }
    rewrite <- app_assoc. cbn [app].
    rewrite int_part_chars;
      [| apply Forall_lt_firstn; assumption
       | apply head_nonzero_firstn; [lia | assumption]
       | reflexivity].
    rewrite frac_part_chars;
      [| apply Forall_lt_skipn; assumption | | assumption].
    + rewrite exp_part_none by assumption.
      rewrite (make_num_eq neg _ _ ds 0 pt 0 0);
        [reflexivity | assumption | now rewrite firstn_skipn, app_nil_r | | assumption].
      rewrite Hlen. lia.
    + intros E. apply (f_equal (@length N)) in E. rewrite length_skipn in E.
      simpl in E. lia.
  - bools. cbn [app]. rewrite zeros_digit_chars, <- app_assoc.
    change (int_part (48 :: 46 :: ?x)) with (Some ([0], 46 :: x)).
    cbv iota. rewrite app_assoc, <- digit_chars_app.
    rewrite frac_part_chars;
      [| apply Forall_lt_app; [apply Forall_repeat_lt | assumption]
       | destruct ds; [discriminate | now destruct (Z.to_nat (- pt))]
       | assumption].
    rewrite exp_part_none by assumption.
    rewrite (make_num_eq neg [0] _ ds 0 pt (S (Z.to_nat (- pt))) 0);
      [reflexivity | assumption | now rewrite app_nil_r | | assumption].
    cbn [length]. lia.
  - destruct ds as [|d [|d' r]]; [discriminate| |].
    + inversion Hlt as [|? ? Hd _]; subst. cbn [head_nonzero] in Hh. bools.
      cbn [app].
      replace ((48 + d) :: 101 :: exp_chars (pt - 1) ++ rest)
        with (digit_chars [d] ++ 101 :: exp_chars (pt - 1) ++ rest) by reflexivity.
      rewrite int_part_chars; [| assumption | cbn; now apply negb_true_iff, N.eqb_neq | reflexivity].
      change (frac_part (101 :: ?x)) with (Some (@nil N, 101 :: x)). cbv iota.
      rewrite exp_part_chars by assumption.
      rewrite (make_num_eq neg [d] [] [d] (pt - 1) pt 0 0);
        [reflexivity | assumption | reflexivity | cbn [length]; lia | assumption].
    + inversion Hlt as [|? ? Hd Hr]; subst. cbn [head_nonzero] in Hh. bools.
      cbn [app]. rewrite <- app_assoc. cbn [app].
      replace ((48 + d) :: 46 :: digit_chars (d' :: r) ++ 101 :: exp_chars (pt - 1) ++ rest)
        with (digit_chars [d] ++ 46 :: digit_chars (d' :: r) ++ 101 :: exp_chars (pt - 1) ++ rest)
        by reflexivity.
      rewrite int_part_chars;
        [| constructor; [assumption|constructor]
         | cbn; now apply negb_true_iff, N.eqb_neq | reflexivity].
      rewrite frac_part_chars; [| assumption | discriminate | reflexivity].
      rewrite exp_part_chars by assumption.
      rewrite (make_num_eq neg [d] (d' :: r) (d :: d' :: r) (pt - 1) pt 0 0);
        [reflexivity | assumption | now rewrite app_nil_r | cbn [length]; lia | assumption].
Qed.

Lemma num_body_head (ds : list N) (pt : Z) :
  wf_digits ds = true ->
  exists c t, num_body ds pt = c :: t /\ is_digit c = true.
Proof.
  intros Hwf. destruct (wf_digits_parts ds Hwf) as [Hlt [Hh Hl]].
  destruct ds as [|d r]; [discriminate|].
  inversion Hlt as [|? ? Hd Hr]; subst.
  unfold num_body.
  destruct ((Z.of_nat (length (d :: r)) <=? pt) && (pt <=? 21))%Z eqn:C1; [|
  destruct ((0 <? pt) && (pt <=? 21))%Z eqn:C2; [|
  destruct ((-6 <? pt) && (pt <=? 0))%Z eqn:C3]].
  - eexists _, _. split; [reflexivity | now apply is_digit_char].
  - bools. destruct (Z.to_nat pt) as [|n] eqn:E; [lia|].
    eexists _, _. split; [reflexivity | now apply is_digit_char].
  - eexists _, _. split; reflexivity.
  - destruct r; eexists _, _; (split; [reflexivity | now apply is_digit_char]).
Qed.

(** Reading back the text of a number gives the number. *)
Lemma parse_number_to_string (n : JsNum) (rest : jstring) :
  wf_num n = true -> num_end rest = true ->
  parse_number (num_to_string n ++ rest) = Some (n, rest).
Proof.
  intros Hwf Hrest. destruct n as [neg ds pt|neg]; [|discriminate].
  destruct ds as [|d r].
  - cbn [wf_num] in Hwf. bools. subst.
    cbn [num_to_string app parse_number]. change (48 =? 45) with false. cbv iota.
    unfold parse_unsigned. change (int_part (48 :: rest)) with (Some ([0], rest)).
    cbv iota. rewrite frac_part_none, exp_part_none by assumption. reflexivity.
  - cbn [wf_num] in Hwf. bools.
    cbn [num_to_string]. destruct neg.
    + cbn [app parse_number]. change (45 =? 45) with true. cbv iota.
      now apply parse_unsigned_body.
    + cbn [app].
      destruct (num_body_head (d :: r) pt) as [c [t [E Hc]]]; [assumption|].
      pose proof (parse_unsigned_body false (d :: r) pt rest) as P.
      rewrite E in *. cbn [app parse_number] in *.
      replace (c =? 45) with false; [now apply P|].
      symmetry. apply N.eqb_neq. intros ->. discriminate.
Qed.

Lemma num_to_string_head (n : JsNum) :
  wf_num n = true ->
  exists c t, num_to_string n = c :: t /\ (is_digit c = true \/ c = 45).
Proof.
  intros Hwf. destruct n as [neg ds pt|neg]; [|discriminate].
  destruct ds as [|d r].
  - eexists _, _. split; [reflexivity | now left].
  - cbn [wf_num] in Hwf. bools. cbn [num_to_string].
    destruct neg.
    + eexists _, _. split; [reflexivity | now right].
    + destruct (num_body_head (d :: r) pt) as [c [t [E Hc]]]; [assumption|].
      rewrite E. eexists _, _. split; [reflexivity | now left].
Qed.

(** ** Strings: quoting and reading back *)

Lemma hex_val_digit (d : N) : d < 16 -> hex_val (hex_digit d) = Some d.
Proof.
  intros H. unfold hex_val, hex_digit, is_digit.
  destruct (d <? 10) eqn:E; bools.
  - replace (48 <=? 48 + d) with true by (symmetry; apply N.leb_le; lia).
    replace (48 + d <=? 57) with true by (symmetry; apply N.leb_le; lia).
    cbn [andb]. f_equal. lia.
  - replace (87 + d <=? 57) with false by (symmetry; apply N.leb_gt; lia).
    rewrite andb_false_r.
    replace (97 <=? 87 + d) with true by (symmetry; apply N.leb_le; lia).
    replace (87 + d <=? 102) with true by (symmetry; apply N.leb_le; lia).
    cbn [andb]. f_equal. lia.
Qed.

Lemma hex4_value (c : N) :
  c < 65536 ->
  4096 * (c / 4096 mod 16) + 256 * (c / 256 mod 16) + 16 * (c / 16 mod 16) + c mod 16 = c.
Proof.
  intros H.
  assert (D1 : c / 16 / 16 = c / 256) by (now rewrite N.Div0.div_div).
  assert (D2 : c / 256 / 16 = c / 4096) by (now rewrite N.Div0.div_div).
  pose proof (N.div_mod c 16 ltac:(lia)) as E1.
  pose proof (N.div_mod (c / 16) 16 ltac:(lia)) as E2. rewrite D1 in E2.
  pose proof (N.div_mod (c / 256) 16 ltac:(lia)) as E3. rewrite D2 in E3.
  assert (H16 : c / 4096 < 16) by (apply N.Div0.div_lt_upper_bound; lia).
  rewrite (N.mod_small (c / 4096) 16) by assumption.
  lia.
Qed.

(** Reading one quoted code unit. *)
Lemma parse_string_quote_unit (c : N) (t : jstring) :
  parse_string (quote_unit c ++ t) = cons_parsed c (parse_string t).
Proof.
  unfold quote_unit.
  destruct (c =? 8) eqn:E8; [bools; subst; reflexivity|].
  destruct (c =? 9) eqn:E9; [bools; subst; reflexivity|].
  destruct (c =? 10) eqn:E10; [bools; subst; reflexivity|].
  destruct (c =? 12) eqn:E12; [bools; subst; reflexivity|].
  destruct (c =? 13) eqn:E13; [bools; subst; reflexivity|].
  destruct (c =? 34) eqn:E34; [bools; subst; reflexivity|].
  destruct (c =? 92) eqn:E92; [bools; subst; reflexivity|].
  destruct ((c <? 32) || is_high_surrogate c || is_low_surrogate c) eqn:Esc.
  - assert (Hc : c < 65536).
    { unfold is_high_surrogate, is_low_surrogate in Esc.
      apply orb_true_iff in Esc. destruct Esc as [Esc|Esc];
        [apply orb_true_iff in Esc; destruct Esc as [Esc|Esc]|]; bools; lia. }
    unfold hex4. cbn [app parse_string].
    change (92 =? 34) with false. change (92 =? 92) with true.
    change (117 =? 117) with true. cbv iota.
    rewrite !hex_val_digit by (apply N.mod_lt; lia).
    rewrite hex4_value by assumption. reflexivity.
  - cbn [app parse_string]. rewrite E34, E92.
    bools. replace (c <? 32) with false by (symmetry; apply N.ltb_ge; lia).
    reflexivity.
Qed.

Lemma parse_string_raw (c : N) (t : jstring) :
  32 <= c -> c <> 34 -> c <> 92 ->
  parse_string (c :: t) = cons_parsed c (parse_string t).
Proof.
  intros H32 H34 H92. cbn [parse_string].
  replace (c =? 34) with false by (symmetry; now apply N.eqb_neq).
  replace (c =? 92) with false by (symmetry; now apply N.eqb_neq).
  replace (c <? 32) with false by (symmetry; apply N.ltb_ge; lia).
  reflexivity.
Qed.

Lemma quote_body_cons2 (c d : N) (r : jstring) :
  quote_body (c :: d :: r)
  = if is_high_surrogate c && is_low_surrogate d
    then c :: d :: quote_body r
    else quote_unit c ++ quote_body (d :: r).
Proof. reflexivity. Qed.

(** Reading back a quoted string gives the string. *)
Lemma parse_string_quote_body (s : jstring) :
  forall rest, parse_string (quote_body s ++ 34 :: rest) = Some (s, rest).
Proof.
  assert (H : forall n s, (length s <= n)%nat ->
            forall rest, parse_string (quote_body s ++ 34 :: rest) = Some (s, rest)).
  { induction n as [|n IH]; intros s0 Hlen rest.
    - destruct s0; [reflexivity | simpl in Hlen; lia].
    - destruct s0 as [|c [|d r]].
      + reflexivity.
      + cbn [quote_body]. rewrite parse_string_quote_unit. reflexivity.
      + rewrite quote_body_cons2.
        destruct (is_high_surrogate c && is_low_surrogate d) eqn:Hp.
        * unfold is_high_surrogate, is_low_surrogate in Hp. bools.
          cbn [app]. rewrite parse_string_raw by lia.
          rewrite parse_string_raw by lia.
          rewrite IH by (simpl in Hlen; lia). reflexivity.
        * rewrite <- app_assoc, parse_string_quote_unit.
          rewrite IH by (simpl in *; lia). reflexivity. }
  intros rest. now apply (H (length s)).
Qed.

Lemma parse_string_quote (s : jstring) (rest : jstring) :
  exists t, quote s = 34 :: t /\ parse_string (t ++ rest) = Some (s, rest).
Proof.
  exists (quote_body s ++ [34]). split; [reflexivity|].
  rewrite <- app_assoc. apply parse_string_quote_body.
Qed.

(** ** The order of the properties of an object *)

Arguments array_index : simpl never.

Lemma key_before_chain (k k' k'' : jstring) :
  key_before k k' = true -> key_before k'' k' = false ->
  k'' <> k /\ key_before k'' k = false.
Proof.
  intros H1 H2. split; [intros ->; congruence|].
  unfold key_before in *.
  destruct (array_index k) as [i|]; [|discriminate].
  destruct (array_index k'') as [i''|]; [|reflexivity].
  destruct (array_index k') as [i'|]; [|discriminate].
  bools. apply N.ltb_ge. lia.
Qed.

Lemma keys_obj_set_in (props : list (jstring * JsValue)) (k : jstring) (v : JsValue) (x : jstring) :
  In x (keys (obj_set props k v)) -> x = k \/ In x (keys props).
Proof.
  induction props as [|[k0 v0] r IH]; simpl.
  - intros [<-|[]]. now left.
  - destruct (jstring_eqb_spec k0 k) as [->|Hne]; simpl.
    + intros [<-|H]; auto.
    + destruct (key_before k k0); simpl.
      * intros [<-|[<-|H]]; auto.
      * intros [<-|H]; auto. destruct (IH H); auto.
Qed.

Lemma wf_keys_tail (k : jstring) (r : list jstring) :
  wf_keys (k :: r) = true ->
  (forall x, In x r -> x <> k /\ key_before x k = false) /\ wf_keys r = true.
Proof.
  simpl. intros H. bools. split; [|assumption].
  intros x Hx. rewrite forallb_forall in H. specialize (H x Hx). bools.
  now apply jstring_eqb_neq in H.
Qed.

Lemma wf_keys_cons (k : jstring) (r : list jstring) :
  (forall x, In x r -> x <> k /\ key_before x k = false) -> wf_keys r = true ->
  wf_keys (k :: r) = true.
Proof.
  intros H Hr. simpl. rewrite Hr, andb_true_r. apply forallb_forall.
  intros x Hx. destruct (H x Hx) as [Hne Hb]. rewrite Hb.
  apply jstring_eqb_neq in Hne. now rewrite Hne.
Qed.

(** An assignment keeps the keys in order. *)
Lemma wf_keys_obj_set (props : list (jstring * JsValue)) (k : jstring) (v : JsValue) :
  wf_keys (keys props) = true -> wf_keys (keys (obj_set props k v)) = true.
Proof.
  induction props as [|[k0 v0] r IH]; [reflexivity|].
  intros H. change (keys ((k0, v0) :: r)) with (k0 :: keys r) in H.
  destruct (wf_keys_tail _ _ H) as [Hall Hr].
  cbn [obj_set]. destruct (jstring_eqb_spec k0 k) as [->|Hne].
  - exact H.
  - destruct (key_before k k0) eqn:Hb.
    + change (keys ((k, v) :: (k0, v0) :: r)) with (k :: k0 :: keys r).
      apply wf_keys_cons; [|exact H].
      intros x [<-|Hx].
      * split; [assumption|].
        unfold key_before in *. destruct (array_index k) as [i|]; [|discriminate].
        destruct (array_index k0) as [i0|]; [|reflexivity]. bools. apply N.ltb_ge. lia.
      * destruct (Hall x Hx) as [_ Hx0]. now apply (key_before_chain k k0 x).
    + change (keys ((k0, v0) :: obj_set r k v)) with (k0 :: keys (obj_set r k v)).
      apply wf_keys_cons; [|now apply IH].
      intros x Hx. destruct (keys_obj_set_in r k v x Hx) as [->|Hin].
      * split; [congruence | assumption].
      * now apply Hall.
Qed.

Lemma obj_set_snoc (acc : list (jstring * JsValue)) (k : jstring) (v : JsValue) :
  (forall x, In x (keys acc) -> k <> x /\ key_before k x = false) ->
  obj_set acc k v = acc ++ [(k, v)].
Proof.
  induction acc as [|[k0 v0] r IH]; intros H; [reflexivity|].
  cbn [obj_set app]. destruct (H k0 (or_introl eq_refl)) as [Hne Hb].
  rewrite Hb. replace (jstring_eqb k0 k) with false
    by (symmetry; apply jstring_eqb_neq; congruence).
  rewrite IH; [reflexivity|]. intros x Hx. apply H. now right.
Qed.

Lemma wf_keys_before (a : list jstring) (k : jstring) (b : list jstring) :
  wf_keys (a ++ k :: b) = true ->
  forall x, In x a -> k <> x /\ key_before k x = false.
Proof.
  induction a as [|k0 a IH]; intros H x Hx; [destruct Hx|].
  change ((k0 :: a) ++ k :: b) with (k0 :: (a ++ k :: b)) in H.
  destruct (wf_keys_tail _ _ H) as [Hall Hr].
  destruct Hx as [<-|Hx].
  - apply Hall. apply in_or_app. right. now left.
  - now apply IH.
Qed.

(** Adding the properties of a well-ordered list one by one gives the list. *)
Lemma build_object_wf (ps : list (jstring * JsValue)) :
  forall acc, wf_keys (keys (acc ++ ps)) = true ->
    fold_left (fun o kv => obj_set o (fst kv) (snd kv)) ps acc = acc ++ ps.
Proof.
  induction ps as [|[k v] r IH]; intros acc H; [now rewrite app_nil_r|].
  cbn [fold_left fst snd].
  rewrite obj_set_snoc.
  - rewrite IH; rewrite <- app_assoc; [reflexivity | exact H].
  - unfold keys in H. rewrite map_app in H. cbn [map fst] in H.
    intros x Hx. now apply (wf_keys_before _ _ _ H).
Qed.

Lemma build_object_id (ps : list (jstring * JsValue)) :
  wf_keys (keys ps) = true -> build_object ps = ps.
Proof. intros H. unfold build_object. now rewrite (build_object_wf ps []). Qed.

Lemma build_object_keys (ps : list (jstring * JsValue)) :
  wf_keys (keys (build_object ps)) = true.
Proof.
  unfold build_object.
  assert (H : forall acc, wf_keys (keys acc) = true ->
            wf_keys (keys (fold_left (fun o kv => obj_set o (fst kv) (snd kv)) ps acc)) = true).
  { induction ps as [|[k v] r IH]; intros acc Hacc; [assumption|].
    cbn [fold_left]. apply IH. now apply wf_keys_obj_set. }
  now apply H.
Qed.

(** ** Values that JSON.parse produces and JSON.stringify writes *)

Lemma JsValue_ind2 (P : JsValue -> Prop) :
  P JUndefined -> P JNull -> (forall b, P (JBool b)) -> (forall n, P (JNum n)) ->
  (forall s, P (JStr s)) ->
  (forall l, Forall P l -> P (JArr l)) ->
  (forall props, Forall (fun kv => P (snd kv)) props -> P (JObj props)) ->
  forall v, P v.
Proof.
  intros HU HN HB HNum HS HA HO. fix IH 1. intros v.
  destruct v as [| |b|n|s|l|props];
    [exact HU | exact HN | apply HB | apply HNum | apply HS | | ].
  - apply HA. induction l as [|x l IHl]; constructor; [apply IH | exact IHl].
  - apply HO. induction props as [|[k x] r IHr]; constructor; [apply IH | exact IHr].
Qed.

Lemma ser_arr (ind : jstring) (l : list JsValue) :
  ser ind (JArr l) = Some (wrap 91 93 ind (map (elem_text (ind ++ gap)) l)).
Proof. reflexivity. Qed.

Lemma ser_obj (ind : jstring) (props : list (jstring * JsValue)) :
  ser ind (JObj props) = Some (wrap 123 125 ind (member_texts (ind ++ gap) props)).
Proof.
  cbn [ser]. do 2 f_equal.
  induction props as [|[k x] r IH]; [reflexivity|].
  cbn [member_texts]. destruct (ser (ind ++ gap) x); now rewrite IH.
Qed.

Lemma ser_head (holes : bool) (ind : jstring) (v : JsValue) (s : jstring) :
  wf holes v = true -> ser ind v = Some s ->
  exists c t, s = c :: t /\ value_start c = true.
Proof.
  intros Hwf Hs. destruct v as [| |b|n|s0|l|props]; try discriminate.
  - injection Hs as <-. eexists _, _. split; reflexivity.
  - destruct b; injection Hs as <-; eexists _, _; split; reflexivity.
  - destruct n as [neg ds pt|neg].
    + assert (Hn : wf_num (Fin neg ds pt) = true) by (destruct ds; exact Hwf).
      assert (Hs' : s = num_to_string (Fin neg ds pt)) by (cbn [ser] in Hs; congruence).
      destruct (num_to_string_head _ Hn) as [c [t [E Hc]]].
      exists c, t. split; [congruence|].
      destruct Hc as [Hc| ->]; [|reflexivity].
      unfold is_digit in Hc. bools. unfold value_start, is_ws.
      repeat match goal with
        | |- context [?a =? ?b] =>
            replace (a =? b) with false by (symmetry; apply N.eqb_neq; lia)
        end. reflexivity.
    + injection Hs as <-. eexists _, _. split; reflexivity.
  - injection Hs as <-. eexists _, _. split; reflexivity.
  - rewrite ser_arr in Hs. injection Hs as <-. unfold wrap.
    destruct (map _ l); eexists _, _; split; reflexivity.
  - rewrite ser_obj in Hs. injection Hs as <-. unfold wrap.
    destruct (member_texts _ props); eexists _, _; split; reflexivity.
Qed.

Lemma ser_defined (ind : jstring) (v : JsValue) :
  v <> JUndefined -> exists s, ser ind v = Some s.
Proof.
  destruct v as [| |b|n|s|l|props]; intros H; simpl; try congruence; eauto.
  - destruct b; eauto.
  - destruct n as [neg ds pt|neg]; eauto.
Qed.

Lemma stringify_undefined (v : JsValue) :
  JSON_stringify v = None -> v = JUndefined.
Proof.
  intros H. destruct v as [| |b|n|s|l|props]; [reflexivity| | | | | |].
  all: match type of H with
       | JSON_stringify ?v = None =>
           destruct (ser_defined [] v ltac:(discriminate)) as [t Ht];
           unfold JSON_stringify in H; congruence
       end.
Qed.

Lemma stringify_object_ser (props : list (jstring * JsValue)) :
  JSON_stringify (JObj props) = Some (stringify_object props).
Proof.
  unfold stringify_object.
  destruct (ser_defined [] (JObj props)) as [s Hs]; [discriminate|].
  unfold JSON_stringify. now rewrite Hs.
Qed.

(** ** Reading back the text of a value *)

Lemma ws_only_gap (ind : jstring) : ws_only ind = true -> ws_only (ind ++ gap) = true.
Proof. intros H. unfold ws_only. rewrite forallb_app. fold (ws_only ind). now rewrite H. Qed.

Lemma skip_ws_indent (ind s : jstring) : ws_only ind = true -> skip_ws (ind ++ s) = skip_ws s.
Proof.
  induction ind as [|c r IH]; [reflexivity|]. cbn [ws_only forallb app skip_ws].
  intros H. bools. rewrite H. now apply IH.
Qed.

Lemma value_start_not_ws (c : N) : value_start c = true -> is_ws c = false.
Proof. unfold value_start. intros H. now bools. Qed.

Lemma skip_ws_start (c : N) (s : jstring) : is_ws c = false -> skip_ws (c :: s) = c :: s.
Proof. intros H. cbn [skip_ws]. now rewrite H. Qed.

(** The text of a new line at indentation [ind] is skipped. *)
Lemma skip_ws_newline (ind : jstring) (c : N) (s : jstring) :
  ws_only ind = true -> is_ws c = false ->
  skip_ws (10 :: ind ++ c :: s) = c :: s.
Proof.
  intros Hi Hc. cbn [skip_ws]. change (is_ws 10) with true. cbv iota.
  rewrite skip_ws_indent by assumption. now apply skip_ws_start.
Qed.

Lemma size_pos (v : JsValue) : (1 <= size v)%nat.
Proof. destruct v; simpl; lia. Qed.

Lemma parse_value_null (n : nat) (rest : jstring) :
  parse_value (S n) (s_null ++ rest) = Some (JNull, rest).
Proof. reflexivity. Qed.

Lemma parse_value_bool (n : nat) (b : bool) (rest : jstring) :
  parse_value (S n) ((if b then s_true else s_false) ++ rest) = Some (JBool b, rest).
Proof. destruct b; reflexivity. Qed.

Lemma parse_value_number (n : nat) (x : JsNum) (rest : jstring) :
  wf_num x = true -> num_end rest = true ->
  parse_value (S n) (num_to_string x ++ rest) = Some (JNum x, rest).
Proof.
  intros Hwf Hrest.
  pose proof (parse_number_to_string x rest Hwf Hrest) as P.
  destruct (num_to_string_head x Hwf) as [c [t [E Hc]]].
  rewrite E in *. cbn [app] in *. cbn [parse_value].
  assert (Hr : 45 <= c <= 57).
  { destruct Hc as [Hc| ->]; [|lia]. unfold is_digit in Hc. bools. lia. }
  replace (c =? 123) with false by (symmetry; apply N.eqb_neq; lia).
  replace (c =? 91) with false by (symmetry; apply N.eqb_neq; lia).
  replace (c =? 34) with false by (symmetry; apply N.eqb_neq; lia).
  unfold s_null, s_true, s_false. cbn [after].
  replace (110 =? c) with false by (symmetry; apply N.eqb_neq; lia).
  replace (116 =? c) with false by (symmetry; apply N.eqb_neq; lia).
  replace (102 =? c) with false by (symmetry; apply N.eqb_neq; lia).
  now rewrite P.
Qed.

Lemma parse_value_string (n : nat) (s rest : jstring) :
  parse_value (S n) (quote s ++ rest) = Some (JStr s, rest).
Proof.
  unfold quote. cbn [app parse_value]. change (34 =? 123) with false.
  change (34 =? 91) with false. change (34 =? 34) with true. cbv iota.
  rewrite <- app_assoc. cbn [app]. now rewrite parse_string_quote_body.
Qed.

Lemma wf_defined (holes : bool) (v : JsValue) : wf holes v = true -> v <> JUndefined.
Proof. destruct v; simpl; congruence. Qed.

Lemma ser_none (ind : jstring) (v : JsValue) : ser ind v = None -> v = JUndefined.
Proof.
  intros H. destruct v as [| |b|n|s|l|props]; [reflexivity| | | | | |].
  all: match type of H with
       | ser _ ?v = None =>
           destruct (ser_defined ind v ltac:(discriminate)) as [t Ht]; congruence
       end.
Qed.

Lemma elem_reads_back (x : JsValue) :
  reads_back x ->
  forall ind rest fuel,
    wf_elem x = true -> ws_only ind = true -> num_end rest = true ->
    (size x <= fuel)%nat ->
    parse_value fuel (elem_text ind x ++ rest) = Some (jsonify x, rest).
Proof.
  intros HP ind rest fuel Hwf Hind Hrest Hfuel. unfold elem_text.
  destruct (ser ind x) as [s|] eqn:Hs.
  - apply HP with (ind := ind); try assumption.
    destruct x; try exact Hwf. discriminate.
  - apply ser_none in Hs. subst x.
    destruct fuel as [|n]; [simpl in Hfuel; lia|]. apply parse_value_null.
Qed.

Lemma elem_text_head (ind : jstring) (x : JsValue) :
  wf_elem x = true -> exists c t, elem_text ind x = c :: t /\ value_start c = true.
Proof.
  intros Hwf. unfold elem_text. destruct (ser ind x) as [s|] eqn:Hs.
  - apply (ser_head true ind x s); [|exact Hs].
    destruct x; try exact Hwf. discriminate.
  - eexists _, _. split; reflexivity.
Qed.

Lemma num_end_newline (s : jstring) : num_end (10 :: s) = true.
Proof. reflexivity. Qed.

Lemma num_end_comma (s : jstring) : num_end (44 :: s) = true.
Proof. reflexivity. Qed.

Lemma elements_read_back (l : list JsValue) :
  Forall reads_back l -> l <> [] -> forallb wf_elem l = true ->
  forall ind ind' rest fuel,
    ws_only ind = true -> ws_only ind' = true -> (elems_size l <= fuel)%nat ->
    parse_elements fuel
      (join_with (44 :: 10 :: ind') (map (elem_text ind') l) ++ 10 :: ind ++ 93 :: rest)
    = Some (map jsonify l, rest).
Proof.
  intros HP. induction HP as [|x r Hx Hr IH]; intros Hne Hwf ind ind' rest fuel Hi Hi' Hfuel;
    [congruence|].
  cbn [forallb] in Hwf. bools.
  destruct fuel as [|n]; [simpl in Hfuel; lia|].
  cbn [elems_size fold_right] in Hfuel. fold (elems_size r) in Hfuel.
  destruct r as [|y r'].
  - cbn [map join_with parse_elements].
    rewrite (elem_reads_back x Hx) by (try assumption; try apply num_end_newline; lia).
    rewrite skip_ws_newline by (assumption || reflexivity).
    change (93 =? 93) with true. reflexivity.
  - change (map (elem_text ind') (x :: y :: r'))
      with (elem_text ind' x :: map (elem_text ind') (y :: r')).
    change (map jsonify (x :: y :: r')) with (jsonify x :: map jsonify (y :: r')).
    assert (Hj : join_with (44 :: 10 :: ind') (elem_text ind' x :: map (elem_text ind') (y :: r'))
                 = elem_text ind' x ++ (44 :: 10 :: ind')
                   ++ join_with (44 :: 10 :: ind') (map (elem_text ind') (y :: r')))
      by reflexivity.
    rewrite Hj. clear Hj. rewrite <- !app_assoc. cbn [app parse_elements].
    rewrite (elem_reads_back x Hx) by (try assumption; try apply num_end_comma; lia).
    rewrite skip_ws_start by reflexivity.
    change (44 =? 93) with false. change (44 =? 44) with true. cbv iota.
    assert (Hhead : exists c t, join_with (44 :: 10 :: ind') (map (elem_text ind') (y :: r'))
                                = c :: t /\ value_start c = true).
    { cbn [forallb] in H0. bools.
      destruct (elem_text_head ind' y) as [c [t [E Hc]]]; [assumption|].
      cbn [map join_with]. rewrite E. destruct (map (elem_text ind') r');
        eexists _, _; split; try reflexivity; assumption. }
    destruct Hhead as [c [t [E Hc]]].
    pose proof (IH ltac:(discriminate) H0 ind ind' rest n Hi Hi' ltac:(lia)) as IH'.
    rewrite E in *. cbn [app] in *.
    rewrite skip_ws_newline by (try assumption; now apply value_start_not_ws).
    now rewrite IH'.
Qed.

Lemma member_texts_cons (ind : jstring) (k : jstring) (x : JsValue)
    (r : list (jstring * JsValue)) :
  wf true x = true ->
  exists t, ser ind x = Some t
    /\ member_texts ind ((k, x) :: r) = (quote k ++ 58 :: 32 :: t) :: member_texts ind r.
Proof.
  intros Hwf. destruct (ser_defined ind x (wf_defined _ _ Hwf)) as [t Ht].
  exists t. split; [assumption|]. cbn [member_texts]. now rewrite Ht.
Qed.

Lemma member_texts_head (ind : jstring) (props : list (jstring * JsValue)) :
  props <> [] -> forallb (fun kv => wf true (snd kv)) props = true ->
  exists t, join_with (44 :: 10 :: ind) (member_texts ind props) = 34 :: t.
Proof.
  intros Hne Hwf. destruct props as [|[k x] r]; [congruence|].
  cbn [forallb snd] in Hwf. bools.
  destruct (member_texts_cons ind k x r) as [t [_ E]]; [assumption|].
  rewrite E. unfold quote. cbn [join_with app].
  destruct (member_texts ind r); eexists; reflexivity.
Qed.

Lemma skip_ws_space (c : N) (s : jstring) :
  is_ws c = false -> skip_ws (32 :: c :: s) = c :: s.
Proof. intros H. cbn [skip_ws]. change (is_ws 32) with true. cbv iota. now rewrite H. Qed.

Lemma parse_string_quoted (k rest : jstring) :
  parse_string ((quote_body k ++ [34]) ++ rest) = Some (k, rest).
Proof. rewrite <- app_assoc. apply parse_string_quote_body. Qed.

Lemma members_read_back (props : list (jstring * JsValue)) :
  Forall (fun kv => reads_back (snd kv)) props -> props <> [] ->
  forallb (fun kv => wf true (snd kv)) props = true ->
  forall ind ind' rest fuel,
    ws_only ind = true -> ws_only ind' = true -> (members_size props <= fuel)%nat ->
    parse_members fuel
      (join_with (44 :: 10 :: ind') (member_texts ind' props) ++ 10 :: ind ++ 125 :: rest)
    = Some (jsonify_props props, rest).
Proof.
  intros HP. induction HP as [|[k x] r Hx Hr IH];
    intros Hne Hwf ind ind' rest fuel Hi Hi' Hfuel; [congruence|].
  cbn [forallb snd] in Hwf. cbn [snd] in Hx. bools.
  destruct fuel as [|n]; [simpl in Hfuel; lia|].
  cbn [members_size fold_right snd] in Hfuel. fold (members_size r) in Hfuel.
  destruct (member_texts_cons ind' k x r) as [t [Ht E]]; [assumption|].
  rewrite E. clear E.
  destruct (ser_head true ind' x t) as [c [t' [Et Hc]]]; [assumption|assumption|].
  pose proof (value_start_not_ws c Hc) as Hcw.
  destruct r as [|[k' y] r'].
  - cbn [member_texts join_with jsonify_props map fst snd].
    unfold quote. rewrite <- !app_assoc. cbn [app parse_members].
    change (34 =? 34) with true. cbv iota.
    rewrite parse_string_quoted.
    rewrite skip_ws_start by reflexivity. change (58 =? 58) with true. cbv iota.
    pose proof (Hx ind' (10 :: ind ++ 125 :: rest) n t H Hi' Ht
                  (num_end_newline _) ltac:(lia)) as Px.
    rewrite Et in *. cbn [app] in *.
    rewrite skip_ws_space by assumption. rewrite Px.
    rewrite skip_ws_newline by (assumption || reflexivity).
    change (125 =? 125) with true. reflexivity.
  - assert (Hj : forall a b, join_with (44 :: 10 :: ind') (a :: member_texts ind' ((k', y) :: r'))
                   ++ b
                 = a ++ 44 :: 10 :: ind'
                   ++ join_with (44 :: 10 :: ind') (member_texts ind' ((k', y) :: r')) ++ b).
    { intros a b. destruct (member_texts_head ind' ((k', y) :: r')) as [t0 E0];
        [discriminate | assumption |].
      destruct (member_texts ind' ((k', y) :: r')) as [|m ms] eqn:Em.
      - discriminate.
      - cbn [join_with]. rewrite <- !app_assoc. reflexivity. }
    rewrite Hj. clear Hj.
    change (jsonify_props ((k, x) :: (k', y) :: r'))
      with ((k, jsonify x) :: jsonify_props ((k', y) :: r')).
    unfold quote. rewrite <- !app_assoc. cbn [app parse_members].
    change (34 =? 34) with true. cbv iota.
    rewrite parse_string_quoted.
    rewrite skip_ws_start by reflexivity. change (58 =? 58) with true. cbv iota.
    pose proof (Hx ind'
                  (44 :: 10 :: ind'
                   ++ join_with (44 :: 10 :: ind') (member_texts ind' ((k', y) :: r'))
                   ++ 10 :: ind ++ 125 :: rest) n t H Hi' Ht
                  (num_end_comma _) ltac:(lia)) as Px.
    rewrite Et in *. cbn [app] in *.
    rewrite skip_ws_space by assumption. rewrite Px.
    rewrite skip_ws_start by reflexivity.
    change (44 =? 125) with false. change (44 =? 44) with true. cbv iota.
    destruct (member_texts_head ind' ((k', y) :: r')) as [t0 E0];
      [discriminate | assumption |].
    pose proof (IH ltac:(discriminate) H0 ind ind' rest n Hi Hi' ltac:(lia)) as IH'.
    rewrite E0 in *. cbn [app] in *.
    rewrite skip_ws_newline by (assumption || reflexivity).
    now rewrite IH'.
Qed.

Lemma wrap_app (open close : N) (ind : jstring) (parts : list jstring) (rest : jstring) :
  parts <> [] ->
  wrap open close ind parts ++ rest
  = open :: 10 :: (ind ++ gap)
    ++ (join_with (44 :: 10 :: (ind ++ gap)) parts ++ 10 :: ind ++ close :: rest).
Proof.
  intros Hne. destruct parts as [|p ps]; [congruence|].
  unfold wrap. cbn [app]. rewrite <- !app_assoc. cbn [app].
  do 3 f_equal. rewrite <- !app_assoc. reflexivity.
Qed.

Lemma keys_jsonify_props (props : list (jstring * JsValue)) :
  keys (jsonify_props props) = keys props.
Proof.
  unfold keys, jsonify_props. rewrite map_map. apply map_ext. now intros [k x].
Qed.

(** Reading back the text of a value gives the value, with [null] for an
    infinity and for a hole. *)
Lemma ser_reads_back (v : JsValue) : reads_back v.
Proof.
  induction v as [| |b|n|s|l IH|props IH] using JsValue_ind2;
    intros ind rest fuel t Hwf Hind Hs Hrest Hfuel;
    (destruct fuel as [|fuel]; [pose proof (size_pos (JNull)); simpl in Hfuel; lia|]).
  - discriminate.
  - injection Hs as <-. apply parse_value_null.
  - assert (t = if b then s_true else s_false) as -> by (destruct b; simpl in Hs; congruence).
    apply parse_value_bool.
  - destruct n as [neg ds pt|neg].
    + assert (Hn : wf_num (Fin neg ds pt) = true) by (destruct ds; exact Hwf).
      assert (t = num_to_string (Fin neg ds pt)) as -> by (cbn [ser] in Hs; congruence).
      now apply parse_value_number.
    + injection Hs as <-. apply parse_value_null.
  - injection Hs as <-. apply parse_value_string.
  - rewrite ser_arr in Hs. injection Hs as <-.
    destruct l as [|x r].
    + reflexivity.
    + rewrite wrap_app by discriminate.
      cbn [jsonify]. cbn [wf] in Hwf. fold wf_elem in Hwf.
      cbn [size] in Hfuel. fold (elems_size (x :: r)) in Hfuel.
      pose proof (elements_read_back (x :: r) IH ltac:(discriminate) Hwf
                    ind (ind ++ gap) rest fuel Hind (ws_only_gap _ Hind) ltac:(lia)) as P.
      assert (Hhead : exists c t0,
                 join_with (44 :: 10 :: ind ++ gap) (map (elem_text (ind ++ gap)) (x :: r))
                 = c :: t0 /\ value_start c = true).
      { cbn [forallb] in Hwf. bools.
        destruct (elem_text_head (ind ++ gap) x) as [c [t0 [E Hc]]]; [assumption|].
        cbn [map join_with]. rewrite E. destruct (map (elem_text (ind ++ gap)) r);
          eexists _, _; split; try reflexivity; assumption. }
      destruct Hhead as [c [t0 [E Hc]]].
      rewrite E in *. cbn [app] in *.
      cbn [parse_value]. change (91 =? 123) with false. change (91 =? 91) with true.
      cbv iota.
      rewrite skip_ws_newline by (try (now apply ws_only_gap); now apply value_start_not_ws).
      unfold value_start in Hc. bools.
      replace (c =? 93) with false by (symmetry; now apply N.eqb_neq).
      now rewrite P.
  - rewrite ser_obj in Hs. injection Hs as <-.
    cbn [wf] in Hwf. bools.
    destruct props as [|[k x] r].
    + reflexivity.
    + cbn [size] in Hfuel. fold (members_size ((k, x) :: r)) in Hfuel.
      pose proof (members_read_back ((k, x) :: r) IH ltac:(discriminate) H0
                    ind (ind ++ gap) rest fuel Hind (ws_only_gap _ Hind) ltac:(lia)) as P.
      destruct (member_texts_head (ind ++ gap) ((k, x) :: r)) as [t0 E];
        [discriminate | assumption |].
      rewrite wrap_app.
      2:{ intros E'. rewrite E' in E. discriminate. }
      rewrite E in *. cbn [app] in *.
      cbn [parse_value]. change (123 =? 123) with true. cbv iota.
      rewrite skip_ws_newline by (try (now apply ws_only_gap); reflexivity).
      change (34 =? 125) with false. cbv iota. rewrite P.
      change (jsonify (JObj ((k, x) :: r))) with (JObj (jsonify_props ((k, x) :: r))).
      rewrite build_object_id; [reflexivity|].
      rewrite keys_jsonify_props. exact H.
Qed.

(** ** Fuel *)

Lemma skip_ws_length (s : jstring) : (length (skip_ws s) <= length s)%nat.
Proof.
  induction s as [|c r IH]; [reflexivity|]. cbn [skip_ws].
  destruct (is_ws c); simpl; lia.
Qed.

Lemma span_digits_length (s : jstring) :
  (length (snd (span_digits s)) <= length s)%nat.
Proof.
  induction s as [|c r IH]; [reflexivity|]. cbn [span_digits].
  destruct (is_digit c); [|reflexivity].
  destruct (span_digits r) as [ds r']. simpl in *. lia.
Qed.

Lemma int_part_length (s r : jstring) (ds : list N) :
  int_part s = Some (ds, r) -> (length r < length s)%nat.
Proof.
  destruct s as [|c s']; [discriminate|]. cbn [int_part].
  destruct (c =? 48); [intros H; injection H as _ <-; simpl; lia|].
  destruct (is_digit c); [|discriminate].
  pose proof (span_digits_length s') as L.
  destruct (span_digits s') as [ds' r']. intros H. injection H as _ <-. simpl in *. lia.
Qed.

Lemma frac_part_length (s r : jstring) (ds : list N) :
  frac_part s = Some (ds, r) -> (length r <= length s)%nat.
Proof.
  destruct s as [|c s']; [intros H; injection H as _ <-; reflexivity|]. cbn [frac_part].
  destruct (c =? 46); [|intros H; injection H as _ <-; reflexivity].
  pose proof (span_digits_length s') as L.
  destruct (span_digits s') as [[|d ds'] r']; [discriminate|].
  intros H. injection H as _ <-. simpl in *. lia.
Qed.

Lemma exp_digits_length (neg : bool) (s r : jstring) (e : Z) :
  exp_digits neg s = Some (e, r) -> (length r <= length s)%nat.
Proof.
  unfold exp_digits. pose proof (span_digits_length s) as L.
  destruct (span_digits s) as [[|d ds'] r']; [discriminate|].
  intros H. injection H as _ <-. exact L.
Qed.

Lemma exp_part_length (s r : jstring) (e : Z) :
  exp_part s = Some (e, r) -> (length r <= length s)%nat.
Proof.
  destruct s as [|c s']; [intros H; injection H as _ <-; reflexivity|]. cbn [exp_part].
  destruct ((c =? 101) || (c =? 69)); [|intros H; injection H as _ <-; reflexivity].
  destruct s' as [|sg s'']; [discriminate|].
  destruct (sg =? 43); [intros H; apply exp_digits_length in H; simpl; lia|].
  destruct (sg =? 45); intros H; apply exp_digits_length in H; simpl in *; lia.
Qed.

Lemma parse_unsigned_length (neg : bool) (s r : jstring) (x : JsNum) :
  parse_unsigned neg s = Some (x, r) -> (length r < length s)%nat.
Proof.
  unfold parse_unsigned.
  destruct (int_part s) as [[int r1]|] eqn:E1; [|discriminate].
  destruct (frac_part r1) as [[frac r2]|] eqn:E2; [|discriminate].
  destruct (exp_part r2) as [[e r3]|] eqn:E3; [|discriminate].
  intros H. injection H as _ <-.
  apply int_part_length in E1. apply frac_part_length in E2. apply exp_part_length in E3.
  lia.
Qed.

Lemma parse_number_length (s r : jstring) (x : JsNum) :
  parse_number s = Some (x, r) -> (length r < length s)%nat.
Proof.
  destruct s as [|c s']; [discriminate|]. cbn [parse_number].
  destruct (c =? 45); intros H; apply parse_unsigned_length in H; simpl in *; lia.
Qed.

Lemma after_length (lit s r : jstring) :
  after lit s = Some r -> length s = (length lit + length r)%nat.
Proof.
  revert s. induction lit as [|a lit IH]; intros s; cbn [after].
  - intros H. now injection H as <-.
  - destruct s as [|b s']; [discriminate|]. destruct (a =? b); [|discriminate].
    intros H. apply IH in H. simpl. lia.
Qed.

Lemma parse_string_length (s : jstring) :
  forall t r, parse_string s = Some (t, r) -> (length r < length s)%nat.
Proof.
  assert (H : forall n s, (length s <= n)%nat ->
            forall t r, parse_string s = Some (t, r) -> (length r < length s)%nat).
  { induction n as [|n IH]; intros s0 Hlen t r.
    - destruct s0; [discriminate | simpl in Hlen; lia].
    - destruct s0 as [|c s1]; [discriminate|]. cbn [parse_string].
      destruct (c =? 34); [intros H; injection H as _ <-; simpl; lia|].
      destruct (c =? 92).
      + destruct s1 as [|e s2]; [discriminate|].
        destruct (e =? 117).
        * destruct s2 as [|h1 [|h2 [|h3 [|h4 s3]]]]; try discriminate.
          destruct (hex_val h1), (hex_val h2), (hex_val h3), (hex_val h4); try discriminate.
          destruct (parse_string s3) as [[t' r']|] eqn:E; [|discriminate].
          intros H. injection H as _ <-.
          apply IH in E; simpl in *; lia.
        * destruct (unescape e); [|discriminate].
          destruct (parse_string s2) as [[t' r']|] eqn:E; [|discriminate].
          intros H. injection H as _ <-.
          apply IH in E; simpl in *; lia.
      + destruct (c <? 32); [discriminate|].
        destruct (parse_string s1) as [[t' r']|] eqn:E; [|discriminate].
        intros H. injection H as _ <-.
        apply IH in E; simpl in *; lia. }
  intros t r. now apply (H (length s)).
Qed.

Lemma value_fuel_step (f : nat) :
  elements_fuel_ok f -> members_fuel_ok f -> value_fuel_ok (S f).
Proof.
  intros IHe IHm s v r H. destruct s as [|c r0]; [discriminate|].
  cbn [parse_value] in H. pose proof (skip_ws_length r0) as Lws.
  destruct (c =? 123) eqn:E1.
  { destruct (skip_ws r0) as [|c' r'] eqn:Ews; [discriminate|].
    destruct (c' =? 125) eqn:E2.
    - injection H as <- <-. split; [cbn [length] in *; lia|].
      intros [|m] Hf'; [cbn [length] in *; lia|]. cbn [parse_value]. now rewrite E1, Ews, E2.
    - destruct (parse_members f (c' :: r')) as [[ps rest]|] eqn:Em; [|discriminate].
      injection H as <- <-. destruct (IHm _ _ _ Em) as [L B].
      split; [cbn [length] in *; lia|].
      intros [|m] Hf'; [cbn [length] in *; lia|]. cbn [parse_value].
      rewrite E1, Ews, E2, (B m); [reflexivity | cbn [length] in *; lia]. }
  destruct (c =? 91) eqn:E2.
  { destruct (skip_ws r0) as [|c' r'] eqn:Ews; [discriminate|].
    destruct (c' =? 93) eqn:E3.
    - injection H as <- <-. split; [cbn [length] in *; lia|].
      intros [|m] Hf'; [cbn [length] in *; lia|]. cbn [parse_value]. now rewrite E1, E2, Ews, E3.
    - destruct (parse_elements f (c' :: r')) as [[vs rest]|] eqn:Em; [|discriminate].
      injection H as <- <-. destruct (IHe _ _ _ Em) as [L B].
      split; [cbn [length] in *; lia|].
      intros [|m] Hf'; [cbn [length] in *; lia|]. cbn [parse_value].
      rewrite E1, E2, Ews, E3, (B m); [reflexivity | cbn [length] in *; lia]. }
  destruct (c =? 34) eqn:E3.
  { destruct (parse_string r0) as [[t rest]|] eqn:Es; [|discriminate].
    injection H as <- <-. pose proof (parse_string_length _ _ _ Es) as L.
    split; [cbn [length] in *; lia|].
    intros [|m] Hf'; [cbn [length] in *; lia|]. cbn [parse_value]. now rewrite E1, E2, E3, Es. }
  destruct (after s_null (c :: r0)) as [rest|] eqn:A1.
  { injection H as <- <-. pose proof (after_length _ _ _ A1) as L. unfold s_null in L.
    split; [cbn [length] in *; lia|].
    intros [|m] Hf'; [cbn [length] in *; lia|]. cbn [parse_value]. now rewrite E1, E2, E3, A1. }
  destruct (after s_true (c :: r0)) as [rest|] eqn:A2.
  { injection H as <- <-. pose proof (after_length _ _ _ A2) as L. unfold s_true in L.
    split; [cbn [length] in *; lia|].
    intros [|m] Hf'; [cbn [length] in *; lia|]. cbn [parse_value]. now rewrite E1, E2, E3, A1, A2. }
  destruct (after s_false (c :: r0)) as [rest|] eqn:A3.
  { injection H as <- <-. pose proof (after_length _ _ _ A3) as L. unfold s_false in L.
    split; [cbn [length] in *; lia|].
    intros [|m] Hf'; [cbn [length] in *; lia|]. cbn [parse_value].
    now rewrite E1, E2, E3, A1, A2, A3. }
  destruct (parse_number (c :: r0)) as [[x rest]|] eqn:En; [|discriminate].
  injection H as <- <-. pose proof (parse_number_length _ _ _ En) as L.
  split; [cbn [length] in *; lia|].
  intros [|m] Hf'; [cbn [length] in *; lia|]. cbn [parse_value].
  now rewrite E1, E2, E3, A1, A2, A3, En.
Qed.

Lemma elements_fuel_step (f : nat) :
  value_fuel_ok f -> elements_fuel_ok f -> elements_fuel_ok (S f).
Proof.
  intros IHv IHe s vs r H. cbn [parse_elements] in H.
  destruct (parse_value f s) as [[v r1]|] eqn:Ev; [|discriminate].
  destruct (IHv _ _ _ Ev) as [Lv Bv].
  pose proof (skip_ws_length r1) as Lws.
  destruct (skip_ws r1) as [|c r'] eqn:Ews; [discriminate|].
  destruct (c =? 93) eqn:E1.
  - injection H as <- <-. split; [cbn [length] in *; lia|].
    intros [|m] Hf'; [lia|]. cbn [parse_elements].
    rewrite (Bv m) by (cbn [length] in *; lia). now rewrite Ews, E1.
  - destruct (c =? 44) eqn:E2; [|discriminate].
    pose proof (skip_ws_length r') as Lws'.
    destruct (parse_elements f (skip_ws r')) as [[vs' rest]|] eqn:Ee; [|discriminate].
    injection H as <- <-. destruct (IHe _ _ _ Ee) as [Le Be].
    split; [cbn [length] in *; lia|].
    intros [|m] Hf'; [lia|]. cbn [parse_elements].
    rewrite (Bv m) by (cbn [length] in *; lia). rewrite Ews, E1, E2.
    rewrite (Be m) by (cbn [length] in *; lia). reflexivity.
Qed.

Lemma members_fuel_step (f : nat) :
  value_fuel_ok f -> members_fuel_ok f -> members_fuel_ok (S f).
Proof.
  intros IHv IHm s ps r H. destruct s as [|q r0]; [discriminate|].
  cbn [parse_members] in H.
  destruct (q =? 34) eqn:E0; [|discriminate].
  destruct (parse_string r0) as [[k r1]|] eqn:Es; [|discriminate].
  pose proof (parse_string_length _ _ _ Es) as Ls.
  pose proof (skip_ws_length r1) as Lws1.
  destruct (skip_ws r1) as [|c1 r2] eqn:Ews1; [discriminate|].
  destruct (c1 =? 58) eqn:E1; [|discriminate].
  pose proof (skip_ws_length r2) as Lws2.
  destruct (parse_value f (skip_ws r2)) as [[v r3]|] eqn:Ev; [|discriminate].
  destruct (IHv _ _ _ Ev) as [Lv Bv].
  pose proof (skip_ws_length r3) as Lws3.
  destruct (skip_ws r3) as [|c3 r4] eqn:Ews3; [discriminate|].
  destruct (c3 =? 125) eqn:E2.
  - injection H as <- <-. split; [cbn [length] in *; lia|].
    intros [|m] Hf'; [lia|]. cbn [parse_members].
    rewrite E0, Es, Ews1, E1. rewrite (Bv m) by (cbn [length] in *; lia). now rewrite Ews3, E2.
  - destruct (c3 =? 44) eqn:E3; [|discriminate].
    pose proof (skip_ws_length r4) as Lws4.
    destruct (parse_members f (skip_ws r4)) as [[ps' rest]|] eqn:Em; [|discriminate].
    injection H as <- <-. destruct (IHm _ _ _ Em) as [Lm Bm].
    split; [cbn [length] in *; lia|].
    intros [|m] Hf'; [lia|]. cbn [parse_members].
    rewrite E0, Es, Ews1, E1. rewrite (Bv m) by (cbn [length] in *; lia).
    rewrite Ews3, E2, E3. rewrite (Bm m) by (cbn [length] in *; lia). reflexivity.
Qed.

(** A parse that succeeds with some fuel succeeds with the same result with
    two units of fuel for each code unit it reads. *)
Lemma parse_fuel_ok (f : nat) :
  value_fuel_ok f /\ elements_fuel_ok f /\ members_fuel_ok f.
Proof.
  induction f as [|f [IHv [IHe IHm]]].
  - split; [|split]; intros ? ? ? H; discriminate.
  - split; [|split].
    + now apply value_fuel_step.
    + now apply elements_fuel_step.
    + now apply members_fuel_step.
Qed.

Lemma parse_value_fuel (f : nat) (s : jstring) (v : JsValue) (r : jstring) :
  parse_value f s = Some (v, r) ->
  forall f', (2 * length s <= f')%nat -> parse_value f' s = Some (v, r).
Proof.
  intros H f' Hf'. destruct (parse_fuel_ok f) as [Hv _].
  destruct (Hv s v r H) as [L B]. apply B. lia.
Qed.

(** [JSON.parse] gives a value exactly when the grammar does, whatever the
    fuel. *)
Lemma JSON_parse_fuel (text : jstring) (v : JsValue) :
  JSON_parse text = Some v
  <-> exists f r, parse_value f (skip_ws text) = Some (v, r) /\ skip_ws r = [].
Proof.
  unfold JSON_parse. split.
  - destruct (parse_value _ _) as [[v' r]|] eqn:E; [|discriminate].
    destruct (skip_ws r) eqn:Er; [|discriminate].
    intros H. injection H as <-. eauto.
  - intros [f [r [H Hr]]].
    rewrite (parse_value_fuel f _ _ _ H).
    + now rewrite Hr.
    + pose proof (skip_ws_length text). lia.
Qed.

(** ** JSON.parse after JSON.stringify *)

Lemma skip_ws_head (holes : bool) (v : JsValue) (s : jstring) :
  wf holes v = true -> ser [] v = Some s -> skip_ws s = s.
Proof.
  intros Hwf Hs. destruct (ser_head holes [] v s Hwf Hs) as [c [t [-> Hc]]].
  apply skip_ws_start. now apply value_start_not_ws.
Qed.

(** Parsing the text [JSON.stringify] writes for a value gives the value
    back, with [null] for an infinity and for a hole of an array. *)
Theorem JSON_parse_stringify (v : JsValue) (s : jstring) :
  wf true v = true -> JSON_stringify v = Some s -> JSON_parse s = Some (jsonify v).
Proof.
  intros Hwf Hs. apply JSON_parse_fuel. exists (size v), [].
  rewrite (skip_ws_head true v s Hwf Hs). split; [|reflexivity].
  rewrite <- (app_nil_r s) at 1.
  now apply (ser_reads_back v [] [] (size v) s).
Qed.

(** ** What JSON.parse produces *)

Lemma strip_zeros_spec (l : list N) : exists n, l = repeat 0 n ++ strip_zeros l.
Proof.
  induction l as [|d r [n IH]]; [now exists 0%nat|].
  destruct d as [|p].
  - exists (S n). cbn [strip_zeros repeat app]. now rewrite <- IH.
  - now exists 0%nat.
Qed.

Lemma strip_zeros_nonzero (l : list N) :
  strip_zeros l = [] \/ head_nonzero (strip_zeros l) = true.
Proof.
  induction l as [|d r IH]; [now left|].
  destruct d as [|p]; [exact IH | now right].
Qed.

Lemma strip_trailing_spec (l : list N) : exists n, l = strip_trailing l ++ repeat 0 n.
Proof.
  unfold strip_trailing. destruct (strip_zeros_spec (rev l)) as [n E].
  exists n. apply (f_equal (@rev N)) in E.
  rewrite rev_involutive, rev_app_distr, rev_repeat in E. exact E.
Qed.

Lemma Forall_lt_strip_zeros (l : list N) :
  Forall (fun x => x < 10) l -> Forall (fun x => x < 10) (strip_zeros l).
Proof.
  intros H. destruct (strip_zeros_spec l) as [n E]. rewrite E in H.
  apply Forall_app in H. tauto.
Qed.

Lemma Forall_lt_strip_trailing (l : list N) :
  Forall (fun x => x < 10) l -> Forall (fun x => x < 10) (strip_trailing l).
Proof.
  intros H. destruct (strip_trailing_spec l) as [n E]. rewrite E in H.
  apply Forall_app in H. tauto.
Qed.

Lemma wf_digits_intro (ds : list N) :
  Forall (fun x => x < 10) ds -> head_nonzero ds = true -> head_nonzero (rev ds) = true ->
  wf_digits ds = true.
Proof.
  intros H1 H2 H3. unfold wf_digits. rewrite H2, H3, !andb_true_r.
  apply forallb_forall. intros x Hx. rewrite Forall_forall in H1.
  apply N.ltb_lt. now apply H1.
Qed.

(** The number a literal denotes is normalised, or an infinity. *)
Lemma make_num_wf (neg : bool) (int frac : list N) (e : Z) :
  Forall (fun x => x < 10) (int ++ frac) ->
  wf false (JNum (make_num neg int frac e)) = true.
Proof.
  intros Hlt. unfold make_num.
  set (sig := strip_zeros (int ++ frac)).
  destruct (strip_trailing sig) as [|d r] eqn:E; [reflexivity|].
  cbv zeta. destruct (overflows (d :: r) _) eqn:Hov; [reflexivity|].
  cbn [wf wf_num]. rewrite Hov, andb_true_r.
  apply wf_digits_intro.
  - rewrite <- E. apply Forall_lt_strip_trailing, Forall_lt_strip_zeros, Hlt.
  - destruct (strip_trailing_spec sig) as [n En]. rewrite E in En.
    destruct (strip_zeros_nonzero (int ++ frac)) as [H|H]; fold sig in H.
    + rewrite H in En. discriminate.
    + rewrite En in H. exact H.
  - rewrite <- E. unfold strip_trailing. rewrite rev_involutive.
    destruct (strip_zeros_nonzero (rev sig)) as [H|H]; [|exact H].
    unfold strip_trailing in E. rewrite H in E. discriminate.
Qed.

Lemma span_digits_lt (s : jstring) : Forall (fun x => x < 10) (fst (span_digits s)).
Proof.
  induction s as [|c r IH]; [constructor|]. cbn [span_digits].
  destruct (is_digit c) eqn:Hc; [|constructor].
  destruct (span_digits r) as [ds r']. cbn [fst] in *. constructor; [|exact IH].
  unfold is_digit in Hc. bools. lia.
Qed.

Lemma parse_number_wf (s r : jstring) (x : JsNum) :
  parse_number s = Some (x, r) -> wf false (JNum x) = true.
Proof.
  assert (H : forall neg s, parse_unsigned neg s = Some (x, r) -> wf false (JNum x) = true).
  { intros neg s0. unfold parse_unsigned.
    destruct (int_part s0) as [[int r1]|] eqn:E1; [|discriminate].
    destruct (frac_part r1) as [[frac r2]|] eqn:E2; [|discriminate].
    destruct (exp_part r2) as [[e r3]|] eqn:E3; [|discriminate].
    intros H. injection H as <- _. apply make_num_wf. apply Forall_lt_app.
    - destruct s0 as [|c s1]; [discriminate|]. cbn [int_part] in E1.
      destruct (c =? 48); [injection E1 as <- _; constructor; [lia|constructor]|].
      destruct (is_digit c) eqn:Hc; [|discriminate].
      pose proof (span_digits_lt s1) as L. destruct (span_digits s1) as [ds r'].
      injection E1 as <- _. constructor; [|exact L].
      unfold is_digit in Hc. bools. lia.
    - destruct r1 as [|c s1]; [injection E2 as <- _; constructor|]. cbn [frac_part] in E2.
      destruct (c =? 46); [|injection E2 as <- _; constructor].
      pose proof (span_digits_lt s1) as L. destruct (span_digits s1) as [[|d ds] r'];
        [discriminate|]. injection E2 as <- _. exact L. }
  destruct s as [|c s']; [discriminate|]. cbn [parse_number].
  destruct (c =? 45); apply H.
Qed.

Lemma wf_holes (v : JsValue) : wf false v = true -> wf true v = true.
Proof.
  induction v as [| |b|n|s|l IH|props IH] using JsValue_ind2; try (intros H; exact H).
  - cbn [wf]. rewrite !forallb_forall. intros H x Hx.
    rewrite Forall_forall in IH. specialize (H x Hx). specialize (IH x Hx).
    destruct x; try discriminate; now apply IH.
  - cbn [wf]. intros H. bools. rewrite H, andb_true_l.
    rewrite forallb_forall in *. intros kv Hkv.
    rewrite Forall_forall in IH. apply IH; [assumption | now apply H0].
Qed.

Lemma forallb_wf_elems (vs : list JsValue) :
  forallb (wf false) vs = true ->
  forallb (fun x => match x with JUndefined => false | _ => wf false x end) vs = true.
Proof.
  rewrite !forallb_forall. intros H x Hx. specialize (H x Hx). now destruct x.
Qed.

Lemma obj_set_values (P : JsValue -> bool) (props : list (jstring * JsValue))
    (k : jstring) (v : JsValue) :
  forallb (fun kv => P (snd kv)) props = true -> P v = true ->
  forallb (fun kv => P (snd kv)) (obj_set props k v) = true.
Proof.
  intros Hp Hv. induction props as [|[k0 v0] r IH]; cbn [obj_set forallb snd].
  - now rewrite Hv.
  - cbn [forallb snd] in Hp. bools.
    destruct (jstring_eqb k0 k); cbn [forallb snd].
    + now rewrite Hv.
    + destruct (key_before k k0); cbn [forallb snd].
      * now rewrite Hv, H, H0.
      * now rewrite H, IH.
Qed.

Lemma build_object_values (P : JsValue -> bool) (ps : list (jstring * JsValue)) :
  forallb (fun kv => P (snd kv)) ps = true ->
  forallb (fun kv => P (snd kv)) (build_object ps) = true.
Proof.
  unfold build_object.
  assert (H : forall acc, forallb (fun kv => P (snd kv)) acc = true ->
            forallb (fun kv => P (snd kv)) ps = true ->
            forallb (fun kv => P (snd kv))
              (fold_left (fun o kv => obj_set o (fst kv) (snd kv)) ps acc) = true).
  { induction ps as [|[k v] r IH]; intros acc Hacc Hps; [assumption|].
    cbn [forallb snd] in Hps. bools. cbn [fold_left fst snd].
    apply IH; [|assumption]. now apply obj_set_values. }
  now apply H.
Qed.

Lemma parse_wf_ok (f : nat) : value_wf_ok f /\ elements_wf_ok f /\ members_wf_ok f.
Proof.
  induction f as [|f [IHv [IHe IHm]]].
  - split; [|split]; intros ? ? ? H; discriminate.
  - split; [|split].
    + intros s v r H. destruct s as [|c r0]; [discriminate|].
      cbn [parse_value] in H.
      destruct (c =? 123).
      { destruct (skip_ws r0) as [|c' r']; [discriminate|].
        destruct (c' =? 125); [now injection H as <- _|].
        destruct (parse_members f (c' :: r')) as [[ps rest]|] eqn:Em; [|discriminate].
        injection H as <- _. cbn [wf].
        change (map fst (build_object ps)) with (keys (build_object ps)).
        rewrite build_object_keys, andb_true_l.
        apply build_object_values. now apply (IHm _ _ _ Em). }
      destruct (c =? 91).
      { destruct (skip_ws r0) as [|c' r']; [discriminate|].
        destruct (c' =? 93); [now injection H as <- _|].
        destruct (parse_elements f (c' :: r')) as [[vs rest]|] eqn:Em; [|discriminate].
        injection H as <- _. cbn [wf].
        apply forallb_wf_elems. now apply (IHe _ _ _ Em). }
      destruct (c =? 34).
      { destruct (parse_string r0) as [[t rest]|]; [|discriminate].
        now injection H as <- _. }
      destruct (after s_null (c :: r0)); [now injection H as <- _|].
      destruct (after s_true (c :: r0)); [now injection H as <- _|].
      destruct (after s_false (c :: r0)); [now injection H as <- _|].
      destruct (parse_number (c :: r0)) as [[x rest]|] eqn:En; [|discriminate].
      injection H as <- _. now apply (parse_number_wf _ _ _ En).
    + intros s vs r H. cbn [parse_elements] in H.
      destruct (parse_value f s) as [[v r1]|] eqn:Ev; [|discriminate].
      pose proof (IHv _ _ _ Ev) as Hv.
      destruct (skip_ws r1) as [|c r']; [discriminate|].
      destruct (c =? 93); [injection H as <- _; cbn [forallb]; now rewrite Hv|].
      destruct (c =? 44); [|discriminate].
      destruct (parse_elements f (skip_ws r')) as [[vs' rest]|] eqn:Ee; [|discriminate].
      injection H as <- _. cbn [forallb]. rewrite Hv. now apply (IHe _ _ _ Ee).
    + intros s ps r H. destruct s as [|q r0]; [discriminate|].
      cbn [parse_members] in H.
      destruct (q =? 34); [|discriminate].
      destruct (parse_string r0) as [[k r1]|]; [|discriminate].
      destruct (skip_ws r1) as [|c1 r2]; [discriminate|].
      destruct (c1 =? 58); [|discriminate].
      destruct (parse_value f (skip_ws r2)) as [[v r3]|] eqn:Ev; [|discriminate].
      pose proof (IHv _ _ _ Ev) as Hv.
      destruct (skip_ws r3) as [|c3 r4]; [discriminate|].
      destruct (c3 =? 125); [injection H as <- _; cbn [forallb snd]; now rewrite Hv|].
      destruct (c3 =? 44); [|discriminate].
      destruct (parse_members f (skip_ws r4)) as [[ps' rest]|] eqn:Em; [|discriminate].
      injection H as <- _. cbn [forallb snd]. rewrite Hv. now apply (IHm _ _ _ Em).
Qed.

(** What [JSON.parse] returns has the shape of parsed JSON, without
    [undefined] anywhere. *)
Lemma JSON_parse_wf (text : jstring) (v : JsValue) :
  JSON_parse text = Some v -> wf false v = true.
Proof.
  intros H. apply JSON_parse_fuel in H. destruct H as [f [r [H _]]].
  destruct (parse_wf_ok f) as [Hv _]. now apply (Hv _ _ _ H).
Qed.

(** * Properties of the program *)

(** ** The assignment as a recursion over the path *)

Lemma bind_Normal {A} (m : Outcome A) : (x <- m ;; Normal x) = m.
Proof. now destruct m. Qed.

Lemma assign_at_walk (segs : list Seg) :
  forall base v d, segs <> [] ->
    (current <- walk base (removelast segs) ;;
     current' <- put current (key_of_seg (last segs d)) v ;;
     Normal (seen_from base (removelast segs) current'))
    = assign_at base segs v.
Proof.
  induction segs as [|seg rest IH]; intros base v d Hne; [congruence|].
  destruct rest as [|seg' rest'].
  - cbn [removelast last walk bind seen_from assign_at]. apply bind_Normal.
  - change (removelast (seg :: seg' :: rest')) with (seg :: removelast (seg' :: rest')).
    change (last (seg :: seg' :: rest') d) with (last (seg' :: rest') d).
    change (assign_at base (seg :: seg' :: rest') v)
      with (child <- get base (key_of_seg seg) ;;
            child' <- assign_at child (seg' :: rest') v ;;
            Normal (update_own base (key_of_seg seg) child')).
    cbn [walk seen_from].
    destruct (get base (key_of_seg seg)) as [child| |]; cbn [bind]; try reflexivity.
    rewrite <- (IH child v d) by discriminate.
    destruct (walk child (removelast (seg' :: rest'))) as [c| |]; cbn [bind]; try reflexivity.
    destruct (put c (key_of_seg (last (seg' :: rest') d)) v); reflexivity.
Qed.

(** The [try] block, with the walk and the assignment as [assign_at]. *)
Lemma updateJsonAtPath_try_eq (json : jstring) (path : option (list Seg))
    (newValue : JsValue) :
  updateJsonAtPath_try json path newValue
  = (obj <- match JSON_parse json with
            | Some v => Normal v
            | None => Throw SyntaxError
            end ;;
     match path with
     | None | Some [] => Normal (JSON_stringify newValue)
     | Some segs =>
         obj' <- assign_at obj segs newValue ;;
         Normal (JSON_stringify obj')
     end).
Proof.
  unfold updateJsonAtPath_try. destruct (JSON_parse json) as [obj|]; [|reflexivity].
  cbn [bind]. destruct path as [[|seg rest]|]; try reflexivity.
  rewrite <- (assign_at_walk (seg :: rest) obj newValue (SStr [])) by discriminate.
  destruct (walk obj (removelast (seg :: rest))) as [c| |]; cbn [bind]; try reflexivity.
  destruct (put c _ newValue); reflexivity.
Qed.

(** ** Containers and paths inside a document *)

Lemma plain_key_builtin (k : jstring) : plain_key k = true -> builtin_member k = false.
Proof.
  unfold plain_key. intros H. apply andb_true_iff in H. destruct H as [H _].
  now apply negb_true_iff in H.
Qed.

Lemma plain_key_length (k : jstring) : plain_key k = true -> jstring_eqb k s_length = false.
Proof.
  unfold plain_key. intros H. apply andb_true_iff in H. destruct H as [_ H].
  now apply negb_true_iff in H.
Qed.

Lemma plain_key_proto (k : jstring) : plain_key k = true -> jstring_eqb k s_proto = false.
Proof.
  intros H. apply plain_key_builtin in H.
  destruct (jstring_eqb_spec k s_proto) as [->|]; [|reflexivity].
  rewrite proto_builtin in H. discriminate.
Qed.

Lemma get_own_child (base : JsValue) (k : jstring) (c : JsValue) :
  own_child base k = Some c -> get base k = Normal c.
Proof.
  destruct base; simpl; try discriminate.
  - destruct (array_index k) as [i|]; [|discriminate].
    intros H. f_equal. now apply nth_error_nth.
  - now intros ->.
Qed.

Lemma get_plain (base : JsValue) (k : jstring) :
  builtin_member k = false ->
  get base k = Throw TypeError \/ exists x, get base k = Normal x.
Proof.
  intros Hk.
  assert (Hi : inherited base k = false).
  { destruct (inherited base k) eqn:E; [|reflexivity].
    apply inherited_builtin in E. congruence. }
  destruct base; simpl in *; try (now left); try rewrite Hi; eauto.
  - destruct (array_index k) as [i|].
    + destruct (nth_error s (N.to_nat i)); eauto.
    + destruct (jstring_eqb k s_length); eauto.
  - destruct (array_index k) as [i|]; eauto.
    destruct (jstring_eqb k s_length); eauto.
  - destruct (obj_get props k); eauto.
Qed.

Lemma get_noncontainer (base : JsValue) (k : jstring) :
  is_container base = false -> builtin_member k = false ->
  get base k = Throw TypeError
  \/ exists x, get base k = Normal x /\ is_container x = false.
Proof.
  intros Hc Hk.
  assert (Hi : inherited base k = false).
  { destruct (inherited base k) eqn:E; [|reflexivity].
    apply inherited_builtin in E. congruence. }
  destruct base; simpl in *; try discriminate; try (now left);
    try rewrite Hi; try (right; eexists; split; reflexivity).
  destruct (array_index k) as [i|].
  - destruct (nth_error s (N.to_nat i)); right; eexists; split; reflexivity.
  - destruct (jstring_eqb k s_length); right; eexists; split; reflexivity.
Qed.

Lemma put_noncontainer (base : JsValue) (k : jstring) (v : JsValue) :
  is_container base = false -> jstring_eqb k s_proto = false ->
  put base k v = Throw TypeError.
Proof.
  intros Hc Hk. destruct base; simpl in *; try discriminate;
    try rewrite Hk; reflexivity.
Qed.

(** Once the walk has left the containers of the document it cannot come
    back: the next read or the assignment throws. *)
Lemma assign_at_noncontainer (segs : list Seg) :
  forall base v, segs <> [] -> plain_path segs = true ->
    is_container base = false ->
    assign_at base segs v = Throw TypeError.
Proof.
  induction segs as [|seg rest IH]; intros base v Hne Hp Hc; [congruence|].
  simpl in Hp. apply andb_true_iff in Hp. destruct Hp as [Hseg Hrest].
  destruct rest as [|seg' rest'].
  - simpl. apply put_noncontainer; [assumption | now apply plain_key_proto].
  - change (assign_at base (seg :: seg' :: rest') v)
      with (child <- get base (key_of_seg seg) ;;
            child' <- assign_at child (seg' :: rest') v ;;
            Normal (update_own base (key_of_seg seg) child')).
    destruct (get_noncontainer base (key_of_seg seg) Hc (plain_key_builtin _ Hseg))
      as [-> | [x [-> Hx]]]; [reflexivity|].
    cbn [bind]. rewrite (IH x v); [reflexivity | congruence | assumption | assumption].
Qed.

Lemma get_missing (base : JsValue) (k : jstring) :
  own_child base k = None -> builtin_member k = false ->
  get base k = Throw TypeError
  \/ exists x, get base k = Normal x /\ is_container x = false.
Proof.
  intros Hown Hk.
  destruct (is_container base) eqn:Hc; [|now apply get_noncontainer].
  assert (Hi : inherited base k = false).
  { destruct (inherited base k) eqn:E; [|reflexivity].
    apply inherited_builtin in E. congruence. }
  destruct base; simpl in *; try discriminate.
  - destruct (array_index k) as [i|].
    + right. exists JUndefined. split; [|reflexivity].
      f_equal. apply nth_overflow. now apply nth_error_None.
    + destruct (jstring_eqb k s_length); [|rewrite Hi];
        right; eexists; split; reflexivity.
  - rewrite Hown, Hi. right; eexists; split; reflexivity.
Qed.

(** When the walk over all but the last segment does not stay inside
    containers of the document, the [try] block throws. *)
Lemma assign_at_unresolved (segs : list Seg) :
  forall base v, plain_path segs = true ->
    resolves base (removelast segs) = false ->
    assign_at base segs v = Throw TypeError.
Proof.
  induction segs as [|seg rest IH]; intros base v Hp Hr; [discriminate|].
  destruct rest as [|seg' rest']; [discriminate|].
  pose proof Hp as Hp'.
  simpl in Hp. apply andb_true_iff in Hp. destruct Hp as [Hseg Hrest].
  change (removelast (seg :: seg' :: rest')) with (seg :: removelast (seg' :: rest')) in Hr.
  change (assign_at base (seg :: seg' :: rest') v)
    with (child <- get base (key_of_seg seg) ;;
          child' <- assign_at child (seg' :: rest') v ;;
          Normal (update_own base (key_of_seg seg) child')).
  simpl resolves in Hr.
  destruct (own_child base (key_of_seg seg)) as [c|] eqn:Hown.
  - rewrite (get_own_child _ _ _ Hown). cbn [bind].
    destruct (is_container c) eqn:Hc.
    + simpl in Hr. rewrite (IH c v Hrest Hr). reflexivity.
    + rewrite (assign_at_noncontainer (seg' :: rest') c v); [reflexivity| congruence | assumption | assumption].
  - destruct (get_missing base (key_of_seg seg) Hown (plain_key_builtin _ Hseg))
      as [-> | [x [-> Hx]]]; [reflexivity|].
    cbn [bind].
    rewrite (assign_at_noncontainer (seg' :: rest') x v); [reflexivity| congruence | assumption | assumption].
Qed.

Lemma get_defined (base : JsValue) (k : jstring) (x : JsValue) :
  get base k = Normal x -> base <> JUndefined.
Proof. destruct base; simpl; congruence. Qed.

Lemma update_own_defined (base : JsValue) (k : jstring) (c : JsValue) :
  base <> JUndefined -> update_own base k c <> JUndefined.
Proof.
  destruct base; simpl; try congruence.
  - destruct (array_index k) as [i|]; [|congruence].
    destruct (i <? N.of_nat (length elems)); congruence.
  - destruct (obj_get props k); congruence.
Qed.

Lemma put_defined (base : JsValue) (k : jstring) (v r : JsValue) :
  put base k v = Normal r -> r <> JUndefined.
Proof.
  destruct base; simpl; try congruence.
  - destruct (jstring_eqb k s_proto); congruence.
  - destruct (jstring_eqb k s_proto); congruence.
  - destruct (jstring_eqb k s_proto); congruence.
  - destruct (array_index k); [congruence|].
    destruct (jstring_eqb k s_length); congruence.
  - destruct (obj_get props k); [congruence|].
    destruct (jstring_eqb k s_proto); congruence.
Qed.

(** The root the assignment leaves is never [undefined]. *)
Lemma assign_at_defined (segs : list Seg) :
  forall base v r, segs <> [] -> assign_at base segs v = Normal r -> r <> JUndefined.
Proof.
  induction segs as [|seg rest IH]; intros base v r Hne H; [congruence|].
  destruct rest as [|seg' rest'].
  - simpl in H. eapply put_defined; eassumption.
  - change (assign_at base (seg :: seg' :: rest') v)
      with (child <- get base (key_of_seg seg) ;;
            child' <- assign_at child (seg' :: rest') v ;;
            Normal (update_own base (key_of_seg seg) child')) in H.
    destruct (get base (key_of_seg seg)) as [child| |] eqn:Hg; try discriminate.
    cbn [bind] in H.
    destruct (assign_at child (seg' :: rest') v) as [child'| |]; try discriminate.
    cbn [bind] in H. injection H as <-.
    apply update_own_defined. eapply get_defined; eassumption.
Qed.

Lemma get_modelled (base : JsValue) (k : jstring) :
  plain_key k = true -> get base k <> Unmodelled.
Proof.
  intros Hk. destruct (get_plain base k (plain_key_builtin _ Hk)) as [-> | [x ->]];
    discriminate.
Qed.

Lemma put_modelled (base : JsValue) (k : jstring) (v : JsValue) :
  plain_key k = true -> put base k v <> Unmodelled.
Proof.
  intros Hk. pose proof (plain_key_length _ Hk) as Hl.
  destruct base; simpl; try discriminate.
  - destruct (jstring_eqb k s_proto); discriminate.
  - destruct (jstring_eqb k s_proto); discriminate.
  - destruct (jstring_eqb k s_proto); discriminate.
  - destruct (array_index k); [discriminate|]. rewrite Hl. discriminate.
  - destruct (obj_get props k); [discriminate|].
    destruct (jstring_eqb k s_proto); discriminate.
Qed.

(** Along a path of plain keys every read and the assignment are modelled. *)
Lemma assign_at_modelled (segs : list Seg) :
  forall base v, plain_path segs = true -> assign_at base segs v <> Unmodelled.
Proof.
  induction segs as [|seg rest IH]; intros base v Hp; [discriminate|].
  simpl in Hp. apply andb_true_iff in Hp. destruct Hp as [Hseg Hrest].
  destruct rest as [|seg' rest'].
  - simpl. now apply put_modelled.
  - change (assign_at base (seg :: seg' :: rest') v)
      with (child <- get base (key_of_seg seg) ;;
            child' <- assign_at child (seg' :: rest') v ;;
            Normal (update_own base (key_of_seg seg) child')).
    pose proof (get_modelled base _ Hseg) as Hg.
    destruct (get base (key_of_seg seg)) as [child| |]; try discriminate; [|congruence].
    cbn [bind]. pose proof (IH child v Hrest) as Ha.
    destruct (assign_at child (seg' :: rest') v); try discriminate. congruence.
Qed.

(** ** The document patcher: faults *)

(** C3. A text that does not parse as JSON comes back unchanged, whatever the
    path and the new value: [JSON.parse] throws inside the [try] block, and the
    [catch] returns the input. *)
Theorem updateJsonAtPath_parse_failure
    (json : jstring) (path : option (list Seg)) (newValue : JsValue) :
  JSON_parse json = None ->
  updateJsonAtPath json path newValue = Normal (Some json).
Proof.
  intros H. unfold updateJsonAtPath, updateJsonAtPath_try. now rewrite H.
Qed.

Lemma updateJsonAtPath_parse_failure_witness :
  updateJsonAtPath (txt "not json") (Some [SStr (u "a")]) (JNum (num_of_N 1))
  = Normal (Some (txt "not json")).
Proof.
  apply (updateJsonAtPath_parse_failure (txt "not json")). reflexivity.
Defined.

(** C1, as the code has it. When the document parses, the path has at least
    two segments, none of them names a built-in member, and some segment
    before the last does not resolve to a container of the document, the
    TypeError raised inside the [try] block is caught and the input text is
    returned unchanged: the call returns normally, without an error. *)
Theorem updateJsonAtPath_unresolved
    (json : jstring) (segs : list Seg) (newValue obj : JsValue) :
  JSON_parse json = Some obj ->
  (2 <= length segs)%nat ->
  plain_path segs = true ->
  resolves obj (removelast segs) = false ->
  updateJsonAtPath json (Some segs) newValue = Normal (Some json).
Proof.
  intros Hparse Hlen Hplain Hres.
  unfold updateJsonAtPath. rewrite updateJsonAtPath_try_eq, Hparse. cbn [bind].
  destruct segs as [|seg rest]; [simpl in Hlen; lia|].
  now rewrite (assign_at_unresolved (seg :: rest) obj newValue Hplain Hres).
Qed.

Lemma updateJsonAtPath_unresolved_witness :
  updateJsonAtPath (txt "{'a':{'b':[1]}}")
    (Some [SStr (u "a"); SStr (u "b"); SNum 3; SStr (u "c")]) JNull
  = Normal (Some (txt "{'a':{'b':[1]}}")).
Proof.
  apply (updateJsonAtPath_unresolved (txt "{'a':{'b':[1]}}") _ JNull
           (JObj [(u "a", JObj [(u "b", JArr [JNum (num_of_N 1)])])])).
  - reflexivity.
  - simpl. lia.
  - reflexivity.
  - reflexivity.
Defined.

(** C1 as stated fails on the spec's own example: [x] is not a field of
    [{"a":1}], and the call returns the input text instead of failing. *)
Lemma updateJsonAtPath_unresolved_returns :
  JSON_parse (txt "{'a':1}") = Some (JObj [(u "a", JNum (num_of_N 1))])
  /\ resolves (JObj [(u "a", JNum (num_of_N 1))]) [SStr (u "x")] = false
  /\ updateJsonAtPath (txt "{'a':1}") (Some [SStr (u "x"); SStr (u "y")])
       (JNum (num_of_N 1))
     = Normal (Some (txt "{'a':1}")).
Proof. repeat split; reflexivity. Qed.

Lemma patch_none (json : jstring) (path : option (list Seg)) (newValue : JsValue) :
  updateJsonAtPath json path newValue = Normal None ->
  newValue = JUndefined /\ (path = None \/ path = Some []).
Proof.
  unfold updateJsonAtPath.
  destruct (updateJsonAtPath_try json path newValue) as [r| |] eqn:Htry;
    try discriminate.
  intros H. injection H as ->. revert Htry.
  rewrite updateJsonAtPath_try_eq.
  destruct (JSON_parse json) as [obj|]; cbn [bind]; [|discriminate].
  destruct path as [[|seg rest]|].
  - intros H. injection H as H. apply stringify_undefined in H. tauto.
  - destruct (assign_at obj (seg :: rest) newValue) as [obj'| |] eqn:Ha;
      cbn [bind]; try discriminate.
    intros H. injection H as H. apply stringify_undefined in H.
    apply assign_at_defined in Ha; [congruence | discriminate].
  - intros H. injection H as H. apply stringify_undefined in H. tauto.
Qed.

Lemma patch_returns (json : jstring) (path : option (list Seg)) (newValue : JsValue) :
  plain_path match path with Some segs => segs | None => [] end = true ->
  exists r, updateJsonAtPath json path newValue = Normal r.
Proof.
  intros Hp. unfold updateJsonAtPath.
  destruct (updateJsonAtPath_try json path newValue) as [r| |] eqn:Htry; eauto.
  exfalso. revert Htry. rewrite updateJsonAtPath_try_eq.
  destruct (JSON_parse json) as [obj|]; cbn [bind]; [|discriminate].
  destruct path as [[|seg rest]|]; try discriminate.
  pose proof (assign_at_modelled (seg :: rest) obj newValue Hp) as Hm.
  destruct (assign_at obj (seg :: rest) newValue); cbn [bind]; congruence.
Qed.

Lemma patch_string (json : jstring) (path : option (list Seg)) (newValue : JsValue) :
  plain_path match path with Some segs => segs | None => [] end = true ->
  newValue <> JUndefined ->
  exists s, updateJsonAtPath json path newValue = Normal (Some s).
Proof.
  intros Hp Hv. destruct (patch_returns json path newValue Hp) as [[s|] Hr]; [eauto|].
  destruct (patch_none json path newValue Hr) as [Hu _]. congruence.
Qed.



(** ** Assignments inside a document *)

Lemma array_index_dec (k : jstring) (i : N) : array_index k = Some i -> k = dec i.
Proof.
  unfold array_index. destruct (forallb is_digit k); [|discriminate].
  destruct (jstring_eqb_spec (dec (N_of_digits (map (fun c => c - 48) k))) k) as [E|];
    [|discriminate].
  cbn [andb]. destruct (_ <? 4294967295); [|discriminate].
  intros H. injection H as <-. now symmetry.
Qed.

Lemma array_index_inj (k k' : jstring) (i : N) :
  array_index k = Some i -> array_index k' = Some i -> k = k'.
Proof. intros H H'. apply array_index_dec in H, H'. congruence. Qed.

Lemma nth_error_arr_set_same (l : list JsValue) (i : nat) (v : JsValue) :
  nth_error (arr_set l i v) i = Some v.
Proof.
  revert l. induction i as [|i IH]; intros [|x r]; cbn [arr_set nth_error];
    try reflexivity; apply IH.
Qed.

Lemma nth_error_arr_set_other (l : list JsValue) (i j : nat) (v x : JsValue) :
  i <> j -> nth_error l j = Some x -> nth_error (arr_set l i v) j = Some x.
Proof.
  revert l j. induction i as [|i IH]; intros [|y r] [|j] Hij H; cbn [arr_set nth_error] in *;
    try discriminate; try congruence.
  apply IH; [congruence | assumption].
Qed.

Lemma arr_set_wf (l : list JsValue) (i : nat) (v : JsValue) :
  forallb wf_elem l = true -> wf true v = true -> forallb wf_elem (arr_set l i v) = true.
Proof.
  intros Hl Hv. assert (Hv' : wf_elem v = true) by (destruct v; try exact Hv; reflexivity).
  revert l Hl. induction i as [|i IH]; intros [|x r] Hl; cbn [arr_set forallb] in *.
  - now rewrite Hv'.
  - bools. now rewrite Hv'.
  - cbn [wf_elem]. now apply IH.
  - bools. rewrite H. now apply IH.
Qed.

Lemma fits_cons2 (base : JsValue) (seg seg' : Seg) (rest : list Seg) :
  fits base (seg :: seg' :: rest)
  = match own_child base (key_of_seg seg) with
    | Some c => fits c (seg' :: rest)
    | None => false
    end.
Proof. reflexivity. Qed.

Lemma assign_at_cons2 (base : JsValue) (seg seg' : Seg) (rest : list Seg) (v : JsValue) :
  assign_at base (seg :: seg' :: rest) v
  = (child <- get base (key_of_seg seg) ;;
     child' <- assign_at child (seg' :: rest) v ;;
     Normal (update_own base (key_of_seg seg) child')).
Proof. reflexivity. Qed.

Lemma fits_defined (base : JsValue) (segs : list Seg) :
  fits base segs = true -> base <> JUndefined.
Proof. destruct segs as [|seg [|seg' rest]]; destruct base; simpl; congruence. Qed.

Lemma wf_own_child (base : JsValue) (k : jstring) (c : JsValue) :
  wf true base = true -> own_child base k = Some c -> wf_elem c = true.
Proof.
  destruct base as [| |b|n|s|l|props]; cbn [own_child]; try discriminate; cbn [wf]; intros Hwf.
  - destruct (array_index k) as [i|]; [|discriminate]. intros H.
    apply nth_error_In in H. fold wf_elem in Hwf.
    rewrite forallb_forall in Hwf. now apply Hwf.
  - bools. clear H. induction props as [|[k0 v0] r IH]; [discriminate|].
    cbn [forallb snd obj_get] in *. bools.
    destruct (jstring_eqb k0 k); [|now apply IH].
    intros E. injection E as ->. destruct c; try assumption. reflexivity.
Qed.

Lemma wf_elem_defined (c : JsValue) : wf_elem c = true -> c <> JUndefined -> wf true c = true.
Proof. destruct c; try (intros H _; exact H). congruence. Qed.

Lemma put_fits (base : JsValue) (k : jstring) (v : JsValue) :
  fits_last base k = true -> wf true base = true -> wf true v = true ->
  exists base', put base k v = Normal base'
    /\ wf true base' = true
    /\ own_child base' k = Some v
    /\ forall k' x, k' <> k -> own_child base k' = Some x -> own_child base' k' = Some x.
Proof.
  intros Hfit Hwf Hv. destruct base as [| |b|n|s|l|props]; try discriminate;
    cbn [fits_last put own_child] in *.
  - destruct (array_index k) as [i|] eqn:Ei; [|discriminate].
    eexists. split; [reflexivity|]. split; [|split].
    + cbn [wf] in *. fold wf_elem in *. now apply arr_set_wf.
    + cbn [own_child]. rewrite Ei. apply nth_error_arr_set_same.
    + intros k' x Hk'. cbn [own_child].
      destruct (array_index k') as [j|] eqn:Ej; [|discriminate].
      apply nth_error_arr_set_other. intros E. apply N2Nat.inj in E. subst j.
      apply Hk'. now apply (array_index_inj k' k i).
  - exists (JObj (obj_set props k v)). split; [|split; [|split]].
    + destruct (obj_get props k); [reflexivity|]. bools. now rewrite Hfit.
    + cbn [wf] in *. bools.
      change (map fst (obj_set props k v)) with (keys (obj_set props k v)).
      rewrite wf_keys_obj_set by assumption. cbn [andb].
      now apply obj_set_values.
    + apply obj_get_obj_set_same.
    + intros k' x Hk'. cbn [own_child]. rewrite obj_get_obj_set_other by congruence.
      auto.
Qed.

Lemma update_own_fits (base : JsValue) (k : jstring) (c c' : JsValue) :
  own_child base k = Some c -> wf true base = true -> wf true c' = true ->
  wf true (update_own base k c') = true
  /\ own_child (update_own base k c') k = Some c'
  /\ forall k' x, k' <> k -> own_child base k' = Some x ->
       own_child (update_own base k c') k' = Some x.
Proof.
  intros Hown Hwf Hc'. destruct base as [| |b|n|s|l|props]; try discriminate;
    cbn [own_child update_own] in *.
  - destruct (array_index k) as [i|] eqn:Ei; [|discriminate].
    assert (Hlt : (i <? N.of_nat (length l)) = true).
    { apply N.ltb_lt. assert (N.to_nat i < length l)%nat; [|lia].
      apply nth_error_Some. congruence. }
    rewrite Hlt. split; [|split].
    + cbn [wf] in *. fold wf_elem in *. now apply arr_set_wf.
    + cbn [own_child]. rewrite Ei. apply nth_error_arr_set_same.
    + intros k' x Hk'. cbn [own_child].
      destruct (array_index k') as [j|] eqn:Ej; [|discriminate].
      apply nth_error_arr_set_other. intros E. apply N2Nat.inj in E. subst j.
      apply Hk'. now apply (array_index_inj k' k i).
  - rewrite Hown. split; [|split].
    + cbn [wf] in *. bools.
      change (map fst (obj_set props k c')) with (keys (obj_set props k c')).
      rewrite wf_keys_obj_set by assumption. cbn [andb].
      now apply obj_set_values.
    + apply obj_get_obj_set_same.
    + intros k' x Hk'. cbn [own_child]. rewrite obj_get_obj_set_other by congruence.
      auto.
Qed.

(** Along a path that fits, the assignment succeeds; afterwards the path
    resolves to the new value, and every other own property of the containers
    along the path is what it was. *)
Lemma assign_at_fits (segs : list Seg) :
  forall base v,
    fits base segs = true -> wf true base = true -> wf true v = true ->
    exists base', assign_at base segs v = Normal base'
      /\ wf true base' = true
      /\ resolve base' segs = Some v
      /\ forall prefix seg rest k x,
           segs = prefix ++ seg :: rest -> k <> key_of_seg seg ->
           resolve base (prefix ++ [SStr k]) = Some x ->
           resolve base' (prefix ++ [SStr k]) = Some x.
Proof.
  induction segs as [|seg rest IH]; intros base v Hfit Hwf Hv; [discriminate|].
  destruct rest as [|seg' rest'].
  - cbn [fits] in Hfit.
    destruct (put_fits base (key_of_seg seg) v Hfit Hwf Hv) as [base' [Hp [Hw [Hs Ho]]]].
    exists base'. split; [exact Hp|]. split; [exact Hw|]. split.
    + cbn [resolve]. now rewrite Hs.
    + intros prefix seg0 rest0 k x E Hk.
      destruct prefix as [|p prefix'].
      * cbn [app] in E. injection E as <- _. cbn [app resolve key_of_seg].
        destruct (own_child base k) as [y|] eqn:Ey; [|discriminate].
        intros H. injection H as <-. now rewrite (Ho k y Hk Ey).
      * cbn [app] in E. injection E as _ E. destruct prefix'; discriminate.
  - rewrite fits_cons2 in Hfit.
    destruct (own_child base (key_of_seg seg)) as [c|] eqn:Hown; [|discriminate].
    assert (Hc : wf true c = true).
    { apply wf_elem_defined; [now apply (wf_own_child base (key_of_seg seg)) |].
      now apply (fits_defined c (seg' :: rest')). }
    destruct (IH c v Hfit Hc Hv) as [c' [Ha [Hw' [Hr Hsib]]]].
    destruct (update_own_fits base (key_of_seg seg) c c' Hown Hwf Hw') as [Hw [Hs Ho]].
    exists (update_own base (key_of_seg seg) c').
    split; [|split; [exact Hw|split]].
    + rewrite assign_at_cons2, (get_own_child _ _ _ Hown). cbn [bind].
      rewrite Ha. reflexivity.
    + cbn [resolve]. rewrite Hs. exact Hr.
    + intros prefix seg0 rest0 k x E Hk.
      destruct prefix as [|p prefix'].
      * cbn [app] in E. injection E as <- _. cbn [app resolve key_of_seg].
        destruct (own_child base k) as [y|] eqn:Ey; [|discriminate].
        intros H. injection H as <-. now rewrite (Ho k y Hk Ey).
      * cbn [app] in E. injection E as <- E.
        cbn [app resolve]. rewrite Hown, Hs.
        now apply (Hsib prefix' seg0 rest0).
Qed.

Lemma obj_get_jsonify (props : list (jstring * JsValue)) (k : jstring) :
  obj_get (map (fun kv => (fst kv, jsonify (snd kv))) props) k
  = option_map jsonify (obj_get props k).
Proof.
  induction props as [|[k0 v0] r IH]; [reflexivity|]. cbn [map obj_get fst snd].
  destruct (jstring_eqb k0 k); [reflexivity | exact IH].
Qed.

Lemma own_child_jsonify (base : JsValue) (k : jstring) :
  own_child (jsonify base) k = option_map jsonify (own_child base k).
Proof.
  destruct base as [| |b|n|s|l|props]; try reflexivity.
  - destruct n as [neg ds pt|neg]; reflexivity.
  - cbn [jsonify own_child]. destruct (array_index k); [|reflexivity].
    apply nth_error_map.
  - cbn [jsonify own_child]. apply obj_get_jsonify.
Qed.

Lemma resolve_jsonify (segs : list Seg) :
  forall base, resolve (jsonify base) segs = option_map jsonify (resolve base segs).
Proof.
  induction segs as [|seg rest IH]; intros base; [reflexivity|].
  cbn [resolve]. rewrite own_child_jsonify.
  destruct (own_child base (key_of_seg seg)); [apply IH | reflexivity].
Qed.

(** A JSON value is read back as it is. *)
Lemma jsonify_is_json (v : JsValue) : is_json v = true -> jsonify v = v.
Proof.
  unfold is_json. induction v as [| |b|n|s|l IH|props IH] using JsValue_ind2;
    intros H; bools; try reflexivity; try discriminate.
  - destruct n; [reflexivity | discriminate].
  - cbn [jsonify]. f_equal. cbn [wf finite] in *.
    rewrite forallb_forall in *. rewrite Forall_forall in IH.
    rewrite <- (map_id l) at 2. apply map_ext_in. intros x Hx.
    apply IH; [assumption|]. specialize (H x Hx). specialize (H0 x Hx).
    destruct x; try discriminate; now rewrite H, H0.
  - cbn [jsonify]. f_equal. cbn [wf finite] in *. bools.
    rewrite forallb_forall in *. rewrite Forall_forall in IH.
    rewrite <- (map_id props) at 2. apply map_ext_in. intros [k x] Hx.
    cbn [fst snd]. f_equal. apply (IH (k, x) Hx). cbn [snd].
    specialize (H1 _ Hx). specialize (H0 _ Hx). cbn [snd] in *. now rewrite H1, H0.
Qed.

Lemma wf_false_own_child (base : JsValue) (k : jstring) (c : JsValue) :
  wf false base = true -> own_child base k = Some c -> wf false c = true.
Proof.
  destruct base as [| |b|n|s|l|props]; cbn [own_child]; try discriminate; cbn [wf]; intros Hwf.
  - destruct (array_index k) as [i|]; [|discriminate]. intros H.
    apply nth_error_In in H. rewrite forallb_forall in Hwf.
    specialize (Hwf c H). destruct c; assumption.
  - bools. clear H. induction props as [|[k0 v0] r IH]; [discriminate|].
    cbn [forallb snd obj_get] in *. bools.
    destruct (jstring_eqb k0 k); [|now apply IH].
    intros E. now injection E as ->.
Qed.

Lemma wf_false_resolve (segs : list Seg) :
  forall base x, wf false base = true -> resolve base segs = Some x -> wf false x = true.
Proof.
  induction segs as [|seg rest IH]; intros base x Hwf; cbn [resolve].
  - intros H. now injection H as <-.
  - destruct (own_child base (key_of_seg seg)) as [c|] eqn:E; [|discriminate].
    apply IH. now apply (wf_false_own_child base (key_of_seg seg)).
Qed.

(** ** The document patcher: round trip *)

(** C6, as the code has it. When the document parses, every segment of the
    path but the last resolves to a container of the document, the last
    segment fits the container reached (a key of an object other than an
    inherited [__proto__], an index of an array), the new value is a JSON
    value and the text of the patched document is within the length a string
    may have, the call returns that text; it parses, the path resolves in it
    to exactly the new value, and every other property that the containers
    along the path had is what it was (an infinity, which [JSON.stringify]
    writes [null], apart). (An index far past the end of an array makes the
    text longer than a string may be: [JSON.stringify] then throws a
    RangeError and the input text is returned.) *)
Theorem updateJsonAtPath_round_trip
    (json : jstring) (segs : list Seg) (newValue obj : JsValue) :
  JSON_parse json = Some obj ->
  fits obj segs = true ->
  is_json newValue = true ->
  patch_within_limit json (Some segs) newValue = true ->
  exists s obj2,
    updateJsonAtPath json (Some segs) newValue = Normal (Some s)
    /\ N.of_nat (length s) <= string_limit
    /\ JSON_parse s = Some obj2
    /\ resolve obj2 segs = Some newValue
    /\ forall prefix seg rest k x,
         segs = prefix ++ seg :: rest -> k <> key_of_seg seg ->
         resolve obj (prefix ++ [SStr k]) = Some x ->
         resolve obj2 (prefix ++ [SStr k]) = Some (jsonify x)
         /\ (finite x = true -> jsonify x = x).
Proof.
  intros Hparse Hfit Hjson Hlim.
  pose proof (JSON_parse_wf _ _ Hparse) as Hwf.
  pose proof Hjson as Hj. unfold is_json in Hj. bools.
  destruct (assign_at_fits segs obj newValue Hfit (wf_holes _ Hwf) (wf_holes _ H))
    as [obj' [Ha [Hw' [Hr Hsib]]]].
  destruct (ser_defined [] obj' (wf_defined _ _ Hw')) as [s Hs].
  assert (Htry : updateJsonAtPath_try json (Some segs) newValue = Normal (Some s)).
  { rewrite updateJsonAtPath_try_eq, Hparse. cbn [bind].
    destruct segs as [|seg rest]; [discriminate|].
    rewrite Ha. cbn [bind]. unfold JSON_stringify. now rewrite Hs. }
  exists s, (jsonify obj').
  split; [|split; [|split; [|split]]].
  - unfold updateJsonAtPath. now rewrite Htry.
  - unfold patch_within_limit in Hlim. rewrite Htry in Hlim. now apply N.leb_le.
  - now apply JSON_parse_stringify.
  - rewrite resolve_jsonify, Hr. cbn [option_map]. now rewrite jsonify_is_json.
  - intros prefix seg rest k x E Hk Hx. split.
    + rewrite resolve_jsonify, (Hsib prefix seg rest k x E Hk Hx). reflexivity.
    + intros Hfin. apply jsonify_is_json. unfold is_json.
      now rewrite (wf_false_resolve _ _ _ Hwf Hx), Hfin.
Qed.

Lemma updateJsonAtPath_round_trip_witness :
  exists s obj2,
    updateJsonAtPath (txt "{'a':{'b':1,'c':[1,2]}}") (Some [SStr (u "a"); SStr (u "b")])
      (JNum (num_of_N 5)) = Normal (Some s)
    /\ N.of_nat (length s) <= string_limit
    /\ JSON_parse s = Some obj2
    /\ resolve obj2 [SStr (u "a"); SStr (u "b")] = Some (JNum (num_of_N 5))
    /\ forall prefix seg rest k x,
         [SStr (u "a"); SStr (u "b")] = prefix ++ seg :: rest -> k <> key_of_seg seg ->
         resolve (JObj [(u "a", JObj [(u "b", JNum (num_of_N 1));
                                       (u "c", JArr [JNum (num_of_N 1); JNum (num_of_N 2)])])])
           (prefix ++ [SStr k]) = Some x ->
         resolve obj2 (prefix ++ [SStr k]) = Some (jsonify x)
         /\ (finite x = true -> jsonify x = x).
Proof.
  apply (updateJsonAtPath_round_trip (txt "{'a':{'b':1,'c':[1,2]}}")); reflexivity.
Defined.

(** C6 as stated fails when the last segment does not fit the container: a
    string key assigned on an array becomes a property that [JSON.stringify]
    does not write, and the path does not resolve in the result. *)
Lemma updateJsonAtPath_key_on_array :
  JSON_parse (txt "{'a':[1]}") = Some (JObj [(u "a", JArr [JNum (num_of_N 1)])])
  /\ resolves (JObj [(u "a", JArr [JNum (num_of_N 1)])]) [SStr (u "a")] = true
  /\ updateJsonAtPath (txt "{'a':[1]}") (Some [SStr (u "a"); SStr (u "b")])
       (JNum (num_of_N 5))
     = Normal (JSON_stringify (JObj [(u "a", JArr [JNum (num_of_N 1)])]))
  /\ JSON_parse (stringify_object [(u "a", JArr [JNum (num_of_N 1)])])
     = Some (JObj [(u "a", JArr [JNum (num_of_N 1)])])
  /\ resolve (JObj [(u "a", JArr [JNum (num_of_N 1)])]) [SStr (u "a"); SStr (u "b")]
     = None.
Proof. repeat split; reflexivity. Qed.

(** ** The row normaliser *)

Lemma normalizeNodeData_built (rows : list Row) :
  single_keyless rows = false ->
  normalizeNodeData (Some rows)
  = Normal (stringify_object (own (fold_left add_row rows (mkBuilt [] ObjectPrototype)))).
Proof.
  intros Hs. destruct rows as [|row rest]; [reflexivity|].
  unfold normalizeNodeData.
  now replace (match rest with [] => negb (truthy (key row)) | _ :: _ => false end)
    with false by (destruct rest; [simpl in Hs; now rewrite Hs | reflexivity]).
Qed.

Lemma kept_key (row : Row) :
  kept row = true -> exists c k, key row = Some (c :: k) /\ type row = scalar.
Proof.
  unfold kept. destruct (type row); try discriminate.
  destruct (key row) as [[|c k]|]; try discriminate. eauto.
Qed.

Lemma add_row_unkept (o : Built) (row : Row) : kept row = false -> add_row o row = o.
Proof.
  unfold kept, add_row. destruct (type row); try reflexivity.
  destruct (key row) as [[|c k]|]; try reflexivity. discriminate.
Qed.

Lemma add_row_kept (o : Built) (row : Row) :
  kept row = true -> add_row o row = assign o (key_text row) (value row).
Proof.
  intros H. destruct (kept_key row H) as [c [k [Ek Et]]].
  unfold add_row, key_text. now rewrite Et, Ek.
Qed.

(** While the setter is reached, a row keyed [__proto__] adds no field (its
    value at most replaces the prototype), and every other assigned row
    becomes a field. *)
Lemma add_row_uncut (o : Built) (row : Row) :
  reaches_setter o = true ->
  negb (proto_row row && cuts_setter (value row)) = true ->
  own (add_row o row)
  = (if negb (proto_row row)
     then (if kept row then obj_set (own o) (key_text row) (value row) else own o)
     else own o)
  /\ reaches_setter (add_row o row) = true.
Proof.
  intros Ho Hi. unfold proto_row in *. destruct (kept row) eqn:Hk; cbn [andb negb] in *.
  - rewrite (add_row_kept _ _ Hk). unfold assign. rewrite Ho.
    destruct (jstring_eqb (key_text row) s_proto) eqn:E; cbn [andb negb] in *.
    + apply negb_true_iff in Hi. unfold reaches_setter in *.
      destruct (obj_get (own o) s_proto) eqn:Eo; [discriminate|].
      destruct (value row) as [| |b|n|s|l|props]; try discriminate;
        cbn [own prototype cuts_setter] in *; rewrite ?Eo; try (split; [reflexivity|assumption]).
      * now split.
      * split; [reflexivity|]. now destruct (obj_get props s_proto).
    + cbn [own prototype]. split; [reflexivity|]. apply jstring_eqb_neq in E.
      unfold reaches_setter in *. cbn [own prototype].
      now rewrite obj_get_obj_set_other.
  - rewrite (add_row_unkept _ _ Hk). now split.
Qed.

Lemma fold_add_row_uncut (rows : list Row) :
  forall o, reaches_setter o = true -> proto_uncut rows = true ->
    own (fold_left add_row rows o)
    = fold_left (fun m row => if kept row then obj_set m (key_text row) (value row) else m)
        (field_rows rows) (own o)
    /\ reaches_setter (fold_left add_row rows o) = true.
Proof.
  induction rows as [|row rest IH]; intros o Ho Hi; [now split|].
  unfold proto_uncut in Hi. cbn [forallb] in Hi.
  apply andb_true_iff in Hi. destruct Hi as [Hrow Hrest].
  destruct (add_row_uncut o row Ho Hrow) as [E Ho'].
  cbn [fold_left field_rows filter]. fold (field_rows rest).
  destruct (IH (add_row o row) Ho' Hrest) as [-> Hr]. split; [|exact Hr].
  rewrite E. now destruct (negb (proto_row row)).
Qed.



Lemma field_rows_free (rows : list Row) :
  proto_free rows = true -> field_rows rows = rows /\ proto_uncut rows = true.
Proof.
  unfold proto_free, field_rows, proto_uncut. induction rows as [|row rest IH];
    [now split|].
  cbn [forallb filter]. intros H. apply andb_true_iff in H. destruct H as [H1 H2].
  destruct (IH H2) as [E1 E2]. rewrite H1, E1, E2. split; [reflexivity|].
  apply negb_true_iff in H1. now rewrite H1.
Qed.

(** A row list without assigned rows keyed [__proto__], unless it is one row
    without a key, gives the text of the fields of its assigned rows. *)
Lemma normalizeNodeData_rows (rows : list Row) :
  single_keyless rows = false -> proto_free rows = true ->
  normalizeNodeData (Some rows) = Normal (stringify_object (row_mapping rows)).
Proof.
  intros Hs Hf. destruct (field_rows_free rows Hf) as [E Hi].
  rewrite (normalizeNodeData_built rows Hs).
  destruct (fold_add_row_uncut rows (mkBuilt [] ObjectPrototype) eq_refl Hi) as [-> _].
  cbn [own]. unfold row_mapping. now rewrite E.
Qed.



(** After a row keyed [__proto__] that holds [null], a later row keyed
    [__proto__] is a field of the output. *)
Example normalizeNodeData_after_null_prototype :
  normalizeNodeData
    (Some [mkRow (Some (u "__proto__")) JNull scalar;
           mkRow (Some (u "__proto__")) (JNum (num_of_N 1)) scalar])
  = Normal (stringify_object [(u "__proto__", JNum (num_of_N 1))])
  /\ stringify_object [(u "__proto__", JNum (num_of_N 1))]
     = txt "{
  '__proto__': 1
}".
Proof. split; reflexivity. Qed.


(** ** The row normaliser: one row without a key *)

(** A string literal is longer than the string it denotes: the closing quote
    is part of it. *)
Lemma parse_string_shorter (n : nat) :
  forall s t rest, (length s <= n)%nat -> parse_string s = Some (t, rest) ->
    (length t + length rest < length s)%nat.
Proof.
  induction n as [|n IH]; intros s t rest Hn.
  - destruct s; [discriminate | cbn [length] in Hn; lia].
  - destruct s as [|c r]; [discriminate|]. cbn [parse_string length] in *.
    destruct (c =? 34).
    { intros H. injection H as <- <-. cbn [length]. lia. }
    destruct (c =? 92).
    { destruct r as [|e r1]; [discriminate|]. destruct (e =? 117).
      - destruct r1 as [|h1 [|h2 [|h3 [|h4 r2]]]]; try discriminate.
        destruct (hex_val h1), (hex_val h2), (hex_val h3), (hex_val h4); try discriminate.
        destruct (parse_string r2) as [[t' rest']|] eqn:E; [|discriminate].
        intros H. injection H as <- <-.
        apply IH in E; cbn [length] in *; lia.
      - destruct (unescape e); [|discriminate].
        destruct (parse_string r1) as [[t' rest']|] eqn:E; [|discriminate].
        intros H. injection H as <- <-.
        apply IH in E; cbn [length] in *; lia. }
    destruct (c <? 32); [discriminate|].
    destruct (parse_string r) as [[t' rest']|] eqn:E; [|discriminate].
    intros H. injection H as <- <-. apply IH in E; cbn [length] in *; lia.
Qed.

Lemma parse_value_string_length (f : nat) (s t rest : jstring) :
  parse_value f s = Some (JStr t, rest) -> (length t + 2 <= length s)%nat.
Proof.
  destruct f as [|n]; [discriminate|]. cbn [parse_value].
  destruct s as [|c r]; [discriminate|].
  destruct (c =? 123).
  { destruct (skip_ws r) as [|c' r']; [discriminate|]. destruct (c' =? 125); [discriminate|].
    destruct (parse_members n (c' :: r')) as [[ps rest']|]; discriminate. }
  destruct (c =? 91).
  { destruct (skip_ws r) as [|c' r']; [discriminate|]. destruct (c' =? 93); [discriminate|].
    destruct (parse_elements n (c' :: r')) as [[vs rest']|]; discriminate. }
  destruct (c =? 34).
  - destruct (parse_string r) as [[t' rest']|] eqn:E; [|discriminate].
    intros H. injection H as <- <-.
    apply (parse_string_shorter (length r)) in E; [|apply Nat.le_refl].
    cbn [length]. lia.
  - destruct (after s_null (c :: r)), (after s_true (c :: r)), (after s_false (c :: r));
      try discriminate.
    destruct (parse_number (c :: r)) as [[x rest']|]; discriminate.
Qed.

(** No text is the JSON text of the string it is. *)
Lemma JSON_parse_not_itself (s : jstring) : JSON_parse s <> Some (JStr s).
Proof.
  intros H. apply JSON_parse_fuel in H. destruct H as [f [r [H _]]].
  apply parse_value_string_length in H. pose proof (skip_ws_length s). lia.
Qed.

(** ToString of an array: the strings of its elements, [null] and
    [undefined] as empty strings, joined by commas. *)
Lemma to_string_array (l : list JsValue) :
  to_string (JArr l) = (ts <- map_outcome element_string l ;; Normal (join_with [44] ts)).
Proof.
  cbn [to_string].
  enough (H : forall first,
             (fix join (l : list JsValue) (first : bool) {struct l} : Outcome jstring :=
                match l with
                | [] => Normal []
                | x :: r =>
                    s <- match x with
                         | JUndefined | JNull => Normal []
                         | _ => to_string x
                         end ;;
                    t <- join r false ;;
                    Normal ((if first then [] else [44]) ++ s ++ t)
                end) l first
             = (ts <- map_outcome element_string l ;;
                Normal (match ts with
                        | [] => []
                        | _ => (if first then [] else [44]) ++ join_with [44] ts
                        end))).
  { rewrite H. destruct (map_outcome element_string l) as [[|t ts]| |]; reflexivity. }
  induction l as [|x r IH]; intros first; [reflexivity|].
  rewrite IH. cbn [map_outcome].
  change (match x with JUndefined | JNull => Normal [] | _ => to_string x end)
    with (element_string x).
  destruct (element_string x) as [s| |]; cbn [bind]; try reflexivity.
  destruct (map_outcome element_string r) as [[|t ts]| |]; cbn [bind]; try reflexivity.
  now rewrite app_nil_r.
Qed.

(** C5, as the code has it. For one row with a missing or empty key the
    result is ToString of the row's value. For [null], a boolean and a finite
    number that is the JSON text of the value, and parsing it gives the value
    back. A string comes back as it is, without quotes, and never parses back
    to itself; an array gives the strings of its elements joined by commas;
    an object gives [[object Object]], which does not parse, or, when it has
    an own [toString] property, a TypeError. *)
Theorem normalizeNodeData_keyless (row : Row) :
  truthy (key row) = false ->
  normalizeNodeData (Some [row]) = to_string (value row)
  /\ (json_scalar (value row) = true ->
      exists s, normalizeNodeData (Some [row]) = Normal s
        /\ JSON_parse s = Some (value row))
  /\ (forall s, value row = JStr s ->
        normalizeNodeData (Some [row]) = Normal s /\ JSON_parse s <> Some (JStr s))
  /\ (forall l, value row = JArr l ->
        normalizeNodeData (Some [row])
        = (ts <- map_outcome element_string l ;; Normal (join_with [44] ts)))
  /\ (forall props, value row = JObj props ->
        normalizeNodeData (Some [row])
        = match obj_get props s_toString with
          | Some _ => Throw TypeError
          | None => Normal s_object_Object
          end)
  /\ JSON_parse s_object_Object = None.
Proof.
  intros Hk. assert (E : normalizeNodeData (Some [row]) = to_string (value row)).
  { unfold normalizeNodeData. now rewrite Hk. }
  split; [exact E|]. rewrite E. split; [|split; [|split; [|split]]].
  - intros Hs. destruct (value row) as [| |b|n|s|l|props]; try discriminate.
    + exists s_null. split; [reflexivity|].
      now apply (JSON_parse_stringify JNull).
    + exists (if b then s_true else s_false). split; [now destruct b|].
      apply (JSON_parse_stringify (JBool b)); [reflexivity | now destruct b].
    + cbn [json_scalar] in Hs. exists (num_to_string n). split; [reflexivity|].
      destruct n as [neg ds pt|neg]; [|discriminate].
      apply (JSON_parse_stringify (JNum (Fin neg ds pt))); [|reflexivity].
      destruct ds; exact Hs.
  - intros s ->. split; [reflexivity | apply JSON_parse_not_itself].
  - intros l ->. apply to_string_array.
  - intros props ->. reflexivity.
  - reflexivity.
Qed.

Lemma normalizeNodeData_keyless_witness :
  exists s, normalizeNodeData (Some [mkRow None (JNum (num_of_N 5)) scalar]) = Normal s
    /\ JSON_parse s = Some (JNum (num_of_N 5)).
Proof.
  apply (proj1 (proj2 (normalizeNodeData_keyless
                         (mkRow None (JNum (num_of_N 5)) scalar) eq_refl))).
  reflexivity.
Defined.

(** C5 as stated fails for a string, an array and an object: the result is
    not JSON text, and does not parse back to the value. *)
Lemma normalizeNodeData_keyless_string :
  normalizeNodeData (Some [mkRow None (JStr (u "hi")) scalar]) = Normal (u "hi")
  /\ JSON_parse (u "hi") = None
  /\ normalizeNodeData
       (Some [mkRow None (JArr [JNum (num_of_N 1); JNum (num_of_N 2)]) array])
     = Normal (u "1,2")
  /\ JSON_parse (u "1,2") = None
  /\ normalizeNodeData (Some [mkRow None (JObj [(u "a", JNull)]) object])
     = Normal (u "[object Object]")
  /\ JSON_parse (u "[object Object]") = None.
Proof. repeat split; reflexivity. Qed.

(** ** The edit session: beginEdit, cancel, and a draft that does not parse *)

(** What [handleEdit] does: it sets the draft to the normalised rows and the
    mode to Editing; when the normaliser throws, nothing is set. *)
Lemma handleEdit_run (st : State) :
  handleEdit st =
  match normalizeNodeData (Some (selected_rows st)) with
  | Normal s =>
      (mkState (json st) (nodes st) (selectedNode st) true s (console st), Normal tt)
  | Throw e => (st, Throw e)
  | Unmodelled => (st, Unmodelled)
  end.
Proof.
  unfold handleEdit, selected_rows, mbind, read, lift, setEditedContent, setIsEditing.
  destruct (normalizeNodeData _); reflexivity.
Qed.



(** C9. [handleEdit] followed by [handleCancel] leaves the document store and
    the node-graph store as they were; [handleCancel] ends in Viewing with an
    empty draft and touches neither store. *)
Theorem handleEdit_handleCancel (st : State) :
  let st1 := fst (handleEdit st) in
  let st2 := fst (handleCancel st1) in
  json st2 = json st /\ nodes st2 = nodes st /\ selectedNode st2 = selectedNode st
  /\ isEditing st2 = false /\ editedContent st2 = []
  /\ snd (handleCancel st1) = Normal tt
  /\ json st2 = json st1 /\ nodes st2 = nodes st1 /\ selectedNode st2 = selectedNode st1.
Proof.
  cbv zeta. rewrite handleEdit_run.
  destruct (normalizeNodeData _); repeat split; reflexivity.
Qed.

(** C4, as the code has it. When the draft does not parse, [handleSave]
    leaves both stores, the mode and the draft as they were; the SyntaxError is
    passed to [console.error] and the handler returns normally. With no node
    selected it returns before parsing. *)
Theorem handleSave_invalid_draft (st : State) :
  JSON_parse (editedContent st) = None ->
  handleSave st =
  (match selectedNode st with
   | Some _ => mkState (json st) (nodes st) (selectedNode st) (isEditing st)
                 (editedContent st) (SyntaxError :: console st)
   | None => st
   end, Normal tt).
Proof.
  intros H.
  unfold handleSave, mbind, read, try_catch, lift, ret, console_error.
  destruct st as [j ns sel ed ec co]; simpl in *.
  rewrite H. destruct sel; reflexivity.
Qed.

Lemma handleSave_invalid_draft_witness :
  handleSave editing_invalid =
  (mkState (json editing_invalid) (nodes editing_invalid)
     (selectedNode editing_invalid) true (txt "{'a':") [SyntaxError], Normal tt).
Proof.
  apply (handleSave_invalid_draft editing_invalid). reflexivity.
Defined.

(** C4 as stated fails: nothing is reported to the caller, the handler
    completes normally and the error is only logged. *)
Lemma handleSave_invalid_draft_not_reported :
  JSON_parse (editedContent editing_invalid) = None
  /\ snd (handleSave editing_invalid) = Normal tt
  /\ console (fst (handleSave editing_invalid)) = [SyntaxError].
Proof. repeat split; reflexivity. Qed.

(** ** The edit session: the merge-back *)

Lemma merge_row_merged (parsedContent : JsValue) (row row' : Row) :
  merge_row parsedContent row = Normal row' -> merged parsedContent row row'.
Proof.
  unfold merge_row, merged.
  destruct (key row) as [[|c k]|] eqn:Ek.
  - intros H. injection H as <-. rewrite Ek. repeat split; discriminate.
  - destruct (get parsedContent (c :: k)) as [x| |] eqn:Hg; try discriminate.
    cbn [bind]. intros H.
    assert (Hv : key row' = Some (c :: k) /\ type row' = type row
                 /\ value row' = match x with JUndefined => value row | _ => x end).
    { destruct x; injection H as H; subst row'; cbn [key type value]; auto. }
    destruct Hv as [Hk [Ht Hv]]. split; [exact Hk|]. split; [exact Ht|].
    intros c0 k0 x0 E Hx. injection E as <- <-.
    rewrite Hg in Hx. injection Hx as <-. exact Hv.
  - intros H. injection H as <-. rewrite Ek. repeat split; discriminate.
Qed.

Lemma map_merge_row_merged (parsedContent : JsValue) (rows : list Row) :
  forall rows', map_outcome (merge_row parsedContent) rows = Normal rows' ->
    Forall2 (merged parsedContent) rows rows'.
Proof.
  induction rows as [|row rest IH]; intros rows'; cbn [map_outcome].
  - intros H. injection H as <-. constructor.
  - destruct (merge_row parsedContent row) as [row'| |] eqn:Hm; try discriminate.
    cbn [bind].
    destruct (map_outcome (merge_row parsedContent) rest) as [rest'| |]; try discriminate.
    cbn [bind]. intros H. injection H as <-.
    constructor; [now apply merge_row_merged | now apply IH].
Qed.

(** A row whose key is an own property of the draft takes the draft's
    value. *)
Lemma merged_own (parsedContent : JsValue) (row row' : Row) (c : N) (k : jstring)
    (x : JsValue) :
  wf false parsedContent = true -> merged parsedContent row row' ->
  key row = Some (c :: k) -> own_child parsedContent (c :: k) = Some x ->
  value row' = x.
Proof.
  intros Hwf [_ [_ Hm]] Ek Hown.
  rewrite (Hm c k x Ek (get_own_child _ _ _ Hown)).
  pose proof (wf_defined false x (wf_false_own_child _ _ _ Hwf Hown)) as Hx.
  destruct x; congruence.
Qed.

Lemma map_nodes_merged (parsedContent : JsValue) (nd : NodeData) (rows' : list Row)
    (ns : list NodeData) :
  map_outcome (merge_row parsedContent) (text nd) = Normal rows' ->
  map_outcome
    (fun node =>
       if jstring_eqb (id node) (id nd) then
         t <- map_outcome (merge_row parsedContent) (text nd) ;;
         Normal (mkNode (id node) t (path node))
       else Normal node) ns
  = Normal (merged_nodes nd rows' ns).
Proof.
  intros Hm. induction ns as [|node r IH]; [reflexivity|].
  cbn [map_outcome merged_nodes map]. fold (merged_nodes nd rows' r).
  rewrite IH. destruct (jstring_eqb (id node) (id nd)); [rewrite Hm|]; reflexivity.
Qed.




(** * Further properties of the program *)

(** ** jsonPathToString: one bracketed segment per element *)

Lemma join_brackets (segs : list Seg) :
  segs <> [] ->
  91 :: join_with [93; 91] (map seg_text segs) ++ [93] = flat_map bracketed segs.
Proof.
  induction segs as [|seg rest IH]; intros Hne; [congruence|].
  destruct rest as [|seg' rest'].
  - cbn [map join_with flat_map bracketed]. now rewrite app_nil_r.
  - change (map seg_text (seg :: seg' :: rest'))
      with (seg_text seg :: map seg_text (seg' :: rest')).
    change (flat_map bracketed (seg :: seg' :: rest'))
      with (bracketed seg ++ flat_map bracketed (seg' :: rest')).
    rewrite <- IH by discriminate.
    change (join_with [93; 91] (seg_text seg :: map seg_text (seg' :: rest')))
      with (seg_text seg ++ [93; 91] ++ join_with [93; 91] (map seg_text (seg' :: rest'))).
    unfold bracketed. cbn [app]. rewrite <- !app_assoc. reflexivity.
Qed.

Lemma path_string_brackets (segs : list Seg) :
  jsonPathToString (Some segs) = 36 :: flat_map bracketed segs.
Proof.
  destruct segs as [|s r]; [reflexivity|]. unfold jsonPathToString.
  now rewrite join_brackets by discriminate.
Qed.

(** X1. The path string is [$] followed by one bracketed segment for each element
    of the path, in order; so the string of a path extended by a segment is the
    string of the path followed by that segment in brackets. *)
Theorem jsonPathToString_brackets (segs : list Seg) (seg : Seg) :
  jsonPathToString (Some segs) = 36 :: flat_map bracketed segs
  /\ jsonPathToString (Some (segs ++ [seg]))
     = jsonPathToString (Some segs) ++ bracketed seg.
Proof.
  split; [apply path_string_brackets|]. rewrite !path_string_brackets, flat_map_app. cbn [flat_map app].
  now rewrite app_nil_r.
Qed.

(** ** Number segments *)

Lemma of_uint_digit (k : N) (r : Decimal.uint) :
  k < 10 ->
  N.of_uint (digit_of_N k r) = k * 10 ^ DecimalPos.Unsigned.usize r + N.of_uint r.
Proof.
  intros Hk. unfold N.of_uint.
  rewrite !DecimalPos.Unsigned.of_uint_alt.
  assert (E : forall d, Decimal.rev (d r) = Decimal.revapp r (d Decimal.Nil) ->
                DecimalPos.Unsigned.of_lu (d Decimal.Nil) = k ->
                DecimalPos.Unsigned.of_lu (Decimal.rev (d r))
                = k * 10 ^ DecimalPos.Unsigned.usize r
                  + DecimalPos.Unsigned.of_lu (Decimal.rev r)).
  { intros d -> <-. rewrite DecimalPos.Unsigned.of_lu_revapp. lia. }
  destruct k as [|p]; [now apply E|].
  do 9 (destruct p as [p|p|]; try lia; try (now apply E)).
Qed.

Lemma usize_length (d : Decimal.uint) :
  DecimalPos.Unsigned.usize d = N.of_nat (length (digits_of_uint d)).
Proof.
  induction d; cbn [DecimalPos.Unsigned.usize digits_of_uint length];
    rewrite ?IHd; lia.
Qed.

(** A numeral without leading zeros has at most as many digits as its value
    allows. *)
Lemma unorm_size (d : Decimal.uint) :
  DecimalPos.Unsigned.usize (Decimal.unorm d) <= 1
  \/ 10 ^ (DecimalPos.Unsigned.usize (Decimal.unorm d) - 1) <= N.of_uint d.
Proof.
  induction d;
    try (right;
         match goal with
         | |- context [Decimal.unorm (?D d)] =>
             change (Decimal.unorm (D d)) with (D d);
             cbn [DecimalPos.Unsigned.usize];
             replace (N.succ (DecimalPos.Unsigned.usize d) - 1)
               with (DecimalPos.Unsigned.usize d) by lia
         end).
  - left. cbn. lia.
  - rewrite DecimalFacts.unorm_D0. exact IHd.
  - pose proof (of_uint_digit 1 d ltac:(lia)) as E.
    change (digit_of_N 1 d) with (Decimal.D1 d) in E. lia.
  - pose proof (of_uint_digit 2 d ltac:(lia)) as E.
    change (digit_of_N 2 d) with (Decimal.D2 d) in E. lia.
  - pose proof (of_uint_digit 3 d ltac:(lia)) as E.
    change (digit_of_N 3 d) with (Decimal.D3 d) in E. lia.
  - pose proof (of_uint_digit 4 d ltac:(lia)) as E.
    change (digit_of_N 4 d) with (Decimal.D4 d) in E. lia.
  - pose proof (of_uint_digit 5 d ltac:(lia)) as E.
    change (digit_of_N 5 d) with (Decimal.D5 d) in E. lia.
  - pose proof (of_uint_digit 6 d ltac:(lia)) as E.
    change (digit_of_N 6 d) with (Decimal.D6 d) in E. lia.
  - pose proof (of_uint_digit 7 d ltac:(lia)) as E.
    change (digit_of_N 7 d) with (Decimal.D7 d) in E. lia.
  - pose proof (of_uint_digit 8 d ltac:(lia)) as E.
    change (digit_of_N 8 d) with (Decimal.D8 d) in E. lia.
  - pose proof (of_uint_digit 9 d ltac:(lia)) as E.
    change (digit_of_N 9 d) with (Decimal.D9 d) in E. lia.
Qed.

Lemma digits_of_N_length (n : N) :
  n < 10 ^ 21 -> (length (digits_of_N n) <= 21)%nat.
Proof.
  intros Hn. unfold digits_of_N.
  pose proof (unorm_size (N.to_uint n)) as H.
  rewrite <- DecimalN.Unsigned.to_of, DecimalN.Unsigned.of_to in H.
  rewrite usize_length in H.
  destruct H as [H|H]; [lia|].
  destruct (Nat.le_gt_cases (length (digits_of_uint (N.to_uint n))) 21) as [L|L];
    [exact L | exfalso].
  assert (10 ^ 21 <= 10 ^ (N.of_nat (length (digits_of_uint (N.to_uint n))) - 1)).
  { apply N.pow_le_mono_r; lia. }
  lia.
Qed.

Lemma N_of_digits_zeros (m : nat) : N_of_digits (repeat 0 m) = 0.
Proof. induction m as [|m IH]; [reflexivity | exact IH]. Qed.

(** ToString of a natural number below 10^21 is its decimal numeral. *)
Lemma num_to_string_dec (n : N) :
  n < 10 ^ 21 -> num_to_string (num_of_N n) = dec n.
Proof.
  intros Hn. destruct n as [|p]; [reflexivity|].
  unfold num_of_N. cbv zeta. set (ds := digits_of_N (N.pos p)).
  pose proof (digits_of_N_length (N.pos p) Hn) as Hlen. fold ds in Hlen.
  destruct (strip_trailing_spec ds) as [m Hm].
  destruct (strip_trailing ds) as [|d r] eqn:Es.
  - exfalso. cbn [app] in Hm.
    pose proof (N_of_digits_of_N (N.pos p)) as E. fold ds in E.
    rewrite Hm, N_of_digits_zeros in E. discriminate.
  - unfold dec. fold ds. cbn [num_to_string app]. unfold num_body.
    assert (Hl : length ds = (length (d :: r) + m)%nat).
    { rewrite Hm at 1. now rewrite length_app, repeat_length. }
    replace ((Z.of_nat (length (d :: r)) <=? Z.of_nat (length ds))%Z
             && (Z.of_nat (length ds) <=? 21)%Z)%bool with true
      by (symmetry; apply andb_true_iff; split; apply Z.leb_le; lia).
    replace (Z.to_nat (Z.of_nat (length ds) - Z.of_nat (length (d :: r)))) with m by lia.
    rewrite Hm. now rewrite digit_chars_app, zeros_digit_chars.
Qed.

Lemma digit_chars_values (ds : list N) : map (fun c => c - 48) (digit_chars ds) = ds.
Proof.
  unfold digit_chars. rewrite map_map. rewrite <- (map_id ds) at 2.
  apply map_ext. intros d. lia.
Qed.

(** The decimal numeral of a number below 2^32 - 1 is the array index of that
    number. *)
Lemma array_index_of_dec (i : N) : i < 4294967295 -> array_index (dec i) = Some i.
Proof.
  intros Hi. unfold array_index.
  assert (Hd : forallb is_digit (dec i) = true).
  { unfold dec, digit_chars, digits_of_N. apply forallb_forall. intros c Hc.
    apply in_map_iff in Hc. destruct Hc as [d [<- Hin]].
    apply is_digit_char.
    pose proof (digits_of_uint_lt (N.to_uint i)) as F. rewrite Forall_forall in F.
    now apply F. }
  assert (E : N_of_digits (map (fun c => c - 48) (dec i)) = i).
  { unfold dec. now rewrite digit_chars_values, N_of_digits_of_N. }
  rewrite Hd. cbv zeta. rewrite E, jstring_eqb_refl. cbn [andb].
  apply N.ltb_lt in Hi. now rewrite Hi.
Qed.

(** A number segment below 2^32 - 1 is the key of the array index it
    names. *)
Lemma key_of_seg_index (i : N) :
  i < 4294967295 -> array_index (key_of_seg (SNum i)) = Some i.
Proof.
  intros Hi. cbn [key_of_seg]. rewrite num_to_string_dec.
  - now apply array_index_of_dec.
  - apply (N.lt_trans _ 4294967295); [assumption | reflexivity].
Qed.

(** ** jsonPathToString: numerals and quoted keys *)

Lemma pow_10_21 : 10 ^ 21 = 1000000000000000000000.
Proof. reflexivity. Qed.

Lemma bracketed_shown (seg : Seg) :
  small_numbers [seg] = true -> bracketed seg = shown seg.
Proof.
  destruct seg as [i|k]; unfold small_numbers; cbn [forallb]; intros H.
  - unfold bracketed, shown. cbn [seg_text]. rewrite num_to_string_dec; [reflexivity|].
    rewrite pow_10_21. apply N.ltb_lt. now rewrite andb_true_r in H.
  - unfold bracketed, shown. cbn [seg_text app]. now rewrite <- app_assoc.
Qed.

Lemma path_string_shown (segs : list Seg) :
  small_numbers segs = true ->
  jsonPathToString (Some segs) = 36 :: flat_map shown segs.
Proof.
  intros H. rewrite path_string_brackets. f_equal.
  induction segs as [|seg rest IH]; [reflexivity|].
  unfold small_numbers in H. cbn [forallb] in H.
  apply andb_true_iff in H. destruct H as [H1 H2].
  cbn [flat_map]. rewrite (IH H2). f_equal. apply bracketed_shown.
  unfold small_numbers. cbn [forallb]. now rewrite H1.
Qed.

Lemma safe_small (segs : list Seg) :
  safe_numbers segs = true -> small_numbers segs = true.
Proof.
  unfold safe_numbers, small_numbers. rewrite !forallb_forall.
  intros H seg Hin. specialize (H seg Hin). destruct seg as [i|k]; [|reflexivity].
  apply N.ltb_lt in H. apply N.ltb_lt. lia.
Qed.

(** X2. The path string of a path whose number segments are below 2^53: [$],
    then for each segment in order a bracket pair that holds the decimal
    numeral of a number segment, or the key of a string segment between
    double quotes, unescaped. *)
Theorem jsonPathToString_shown (segs : list Seg) :
  safe_numbers segs = true ->
  jsonPathToString (Some segs) = 36 :: flat_map shown segs.
Proof. intros H. apply path_string_shown. now apply safe_small. Qed.

Lemma jsonPathToString_shown_witness :
  jsonPathToString (Some [SStr (u "customer"); SNum 0; SStr (u "name")])
  = 36 :: flat_map shown [SStr (u "customer"); SNum 0; SStr (u "name")].
Proof.
  apply (jsonPathToString_shown [SStr (u "customer"); SNum 0; SStr (u "name")]).
  reflexivity.
Defined.

Lemma split_at (x : N) (a b r r' : jstring) :
  ~ In x a -> ~ In x b -> a ++ x :: r = b ++ x :: r' -> a = b /\ r = r'.
Proof.
  revert b. induction a as [|y a IH]; intros [|z b] Ha Hb E; cbn [app] in E.
  - injection E as E. now split.
  - injection E as E _. exfalso. apply Hb. left. congruence.
  - injection E as E _. exfalso. apply Ha. left. congruence.
  - injection E as -> E. destruct (IH b) as [-> ->]; try assumption.
    + intros H. apply Ha. now right.
    + intros H. apply Hb. now right.
    + now split.
Qed.

Lemma dec_digits (i : N) : forallb is_digit (dec i) = true.
Proof.
  unfold dec, digit_chars, digits_of_N. apply forallb_forall. intros c Hc.
  apply in_map_iff in Hc. destruct Hc as [d [<- Hin]]. apply is_digit_char.
  pose proof (digits_of_uint_lt (N.to_uint i)) as F. rewrite Forall_forall in F.
  now apply F.
Qed.

Lemma dec_no (x : N) (i : N) : is_digit x = false -> ~ In x (dec i).
Proof.
  intros Hx Hin. pose proof (dec_digits i) as H. rewrite forallb_forall in H.
  specialize (H x Hin). congruence.
Qed.

Lemma dec_inj (i j : N) : dec i = dec j -> i = j.
Proof.
  intros E. apply (f_equal (fun s => N_of_digits (map (fun c => c - 48) s))) in E.
  unfold dec in E. now rewrite !digit_chars_values, !N_of_digits_of_N in E.
Qed.

Lemma dec_head (i : N) : exists c t, dec i = c :: t /\ is_digit c = true.
Proof.
  pose proof (dec_digits i) as H. pose proof (digits_of_N_nonempty i) as Hne.
  unfold dec, digit_chars in *. destruct (digits_of_N i) as [|d r]; [congruence|].
  cbn [map forallb] in *. apply andb_true_iff in H. destruct H as [H _]. eauto.
Qed.

Lemma unquoted_no (k : jstring) : existsb (N.eqb 34) k = false -> ~ In 34 k.
Proof.
  intros H Hin. assert (existsb (N.eqb 34) k = true); [|congruence].
  apply existsb_exists. exists 34. split; [assumption | reflexivity].
Qed.

Lemma shown_inj (p : list Seg) :
  forall q, unquoted p = true -> unquoted q = true ->
    flat_map shown p = flat_map shown q -> p = q.
Proof.
  induction p as [|seg p IH]; intros [|seg' q] Hp Hq E.
  - reflexivity.
  - destruct seg'; discriminate.
  - destruct seg; discriminate.
  - unfold unquoted in Hp, Hq. cbn [forallb] in Hp, Hq.
    apply andb_true_iff in Hp. destruct Hp as [Hs Hp].
    apply andb_true_iff in Hq. destruct Hq as [Hs' Hq].
    fold (unquoted p) in Hp. fold (unquoted q) in Hq.
    cbn [flat_map] in E.
    destruct seg as [i|k], seg' as [j|k']; cbn [shown app] in E;
      injection E as E.
    + rewrite <- !app_assoc in E. cbn [app] in E.
      apply split_at in E; try (apply dec_no; reflexivity).
      destruct E as [E1 E2]. apply dec_inj in E1. subst j.
      f_equal. now apply IH.
    + exfalso. destruct (dec_head i) as [c [t [Ec Hc]]]. rewrite Ec in E.
      cbn [app] in E. injection E as -> _. discriminate.
    + exfalso. destruct (dec_head j) as [c [t [Ec Hc]]]. rewrite Ec in E.
      cbn [app] in E. injection E as <- _. discriminate.
    + rewrite <- !app_assoc in E. cbn [app] in E. bools.
      apply split_at in E; try (now apply unquoted_no).
      destruct E as [-> E2]. injection E2 as E2. f_equal. now apply IH.
Qed.

(** X3. The path string tells paths apart, as long as no key holds a double
    quote (keys are written unescaped) and the number segments are below
    10^21: two such paths with the same path string are the same path. *)
Theorem jsonPathToString_injective (p q : list Seg) :
  small_numbers p = true -> unquoted p = true ->
  small_numbers q = true -> unquoted q = true ->
  jsonPathToString (Some p) = jsonPathToString (Some q) -> p = q.
Proof.
  intros Hp Hp' Hq Hq'. rewrite !path_string_shown by assumption.
  intros E. injection E as E. now apply shown_inj.
Qed.

Lemma jsonPathToString_injective_witness :
  [SStr (u "a"); SNum 0] = [SStr (u "a"); SNum 0].
Proof.
  apply (jsonPathToString_injective [SStr (u "a"); SNum 0] [SStr (u "a"); SNum 0]);
    reflexivity.
Defined.

(** ** The document patcher: what it returns always parses *)

Lemma put_wf (base : JsValue) (k : jstring) (v base' : JsValue) :
  wf true base = true -> wf true v = true -> put base k v = Normal base' ->
  wf true base' = true.
Proof.
  intros Hwf Hv. destruct base as [| |b|n|s|l|props]; cbn [put]; try discriminate.
  - destruct (jstring_eqb k s_proto); [|discriminate]. intros H. now injection H as <-.
  - destruct (jstring_eqb k s_proto); [|discriminate]. intros H. now injection H as <-.
  - destruct (jstring_eqb k s_proto); [|discriminate]. intros H. now injection H as <-.
  - destruct (array_index k) as [i|].
    + intros H. injection H as <-. cbn [wf] in *. fold wf_elem in *. now apply arr_set_wf.
    + destruct (jstring_eqb k s_length); [discriminate|]. intros H. now injection H as <-.
  - assert (Hset : wf true (JObj (obj_set props k v)) = true).
    { cbn [wf] in *. bools.
      change (map fst (obj_set props k v)) with (keys (obj_set props k v)).
      rewrite wf_keys_obj_set by assumption. cbn [andb]. now apply obj_set_values. }
    destruct (obj_get props k).
    + intros H. now injection H as <-.
    + destruct (jstring_eqb k s_proto); intros H; now injection H as <-.
Qed.

(** A child that is no own property of [base] is not part of it. *)
Lemma update_own_unowned (base : JsValue) (k : jstring) (c : JsValue) :
  own_child base k = None -> update_own base k c = base.
Proof.
  destruct base as [| |b|n|s|l|props]; cbn [own_child update_own]; try reflexivity.
  - destruct (array_index k) as [i|]; [|reflexivity]. intros H.
    apply nth_error_None in H.
    replace (i <? N.of_nat (length l)) with false; [reflexivity|].
    symmetry. apply N.ltb_ge. lia.
  - now intros ->.
Qed.

Lemma update_own_wf (base : JsValue) (k : jstring) (c' : JsValue) :
  wf true base = true -> wf true c' = true -> wf true (update_own base k c') = true.
Proof.
  intros Hwf Hc'. destruct (own_child base k) as [c|] eqn:Hown.
  - now apply (update_own_fits base k c c').
  - now rewrite update_own_unowned.
Qed.

Lemma assign_at_undefined (segs : list Seg) (v : JsValue) :
  segs <> [] -> assign_at JUndefined segs v = Throw TypeError.
Proof. destruct segs as [|seg [|seg' rest]]; [congruence | reflexivity | reflexivity]. Qed.

(** The assignment keeps the shape of parsed JSON, wherever the path leads. *)
Lemma assign_at_wf (segs : list Seg) :
  forall base v base',
    wf true base = true -> wf true v = true ->
    assign_at base segs v = Normal base' -> wf true base' = true.
Proof.
  induction segs as [|seg rest IH]; intros base v base' Hwf Hv.
  - cbn [assign_at]. intros H. now injection H as <-.
  - destruct rest as [|seg' rest'].
    + cbn [assign_at]. now apply put_wf.
    + rewrite assign_at_cons2.
      destruct (own_child base (key_of_seg seg)) as [c|] eqn:Hown.
      * rewrite (get_own_child _ _ _ Hown). cbn [bind].
        destruct (assign_at c (seg' :: rest') v) as [c'| |] eqn:Ha; try discriminate.
        cbn [bind]. intros H. injection H as <-.
        apply update_own_wf; [assumption|]. apply (IH c v c'); try assumption.
        apply wf_elem_defined; [now apply (wf_own_child base (key_of_seg seg)) |].
        intros ->. rewrite assign_at_undefined in Ha; discriminate.
      * destruct (get base (key_of_seg seg)) as [x| |]; try discriminate. cbn [bind].
        destruct (assign_at x (seg' :: rest') v) as [c'| |]; try discriminate.
        cbn [bind]. intros H. injection H as <-. now rewrite update_own_unowned.
Qed.

Lemma patch_keeps_valid
    (json : jstring) (path : option (list Seg)) (newValue obj : JsValue) (s : jstring) :
  JSON_parse json = Some obj ->
  wf true newValue = true ->
  updateJsonAtPath json path newValue = Normal (Some s) ->
  exists obj', JSON_parse s = Some obj' /\ wf false obj' = true.
Proof.
  intros Hparse Hv. unfold updateJsonAtPath. rewrite updateJsonAtPath_try_eq, Hparse.
  cbn [bind].
  assert (Hser : forall x, wf true x = true -> JSON_stringify x = Some s ->
                   exists obj', JSON_parse s = Some obj' /\ wf false obj' = true).
  { intros x Hx Hs. exists (jsonify x).
    pose proof (JSON_parse_stringify x s Hx Hs) as Hp.
    split; [exact Hp | now apply (JSON_parse_wf s)]. }
  destruct path as [[|seg rest]|].
  - intros H. injection H as H. now apply (Hser newValue).
  - destruct (assign_at obj (seg :: rest) newValue) as [obj'| |] eqn:Ha; cbn [bind].
    + intros H. injection H as H. apply (Hser obj'); [|assumption].
      apply (assign_at_wf (seg :: rest) obj newValue); try assumption.
      apply wf_holes. now apply (JSON_parse_wf json).
    + intros H. injection H as <-. exists obj. split; [assumption|].
      now apply (JSON_parse_wf json).
    + discriminate.
  - intros H. injection H as H. now apply (Hser newValue).
Qed.

(** X4. A document that parses is patched into a text that parses: for a
    path of plain keys and a new value that is JSON data (holes of arrays
    allowed) the patcher returns a string, whether or not the walk along the
    path succeeds, and that string parses. *)
Theorem updateJsonAtPath_keeps_valid
    (json : jstring) (path : option (list Seg)) (newValue obj : JsValue) :
  JSON_parse json = Some obj ->
  wf true newValue = true ->
  plain_path (segments path) = true ->
  exists s obj',
    updateJsonAtPath json path newValue = Normal (Some s)
    /\ JSON_parse s = Some obj' /\ wf false obj' = true.
Proof.
  intros Hparse Hv Hp.
  destruct (patch_string json path newValue Hp (wf_defined _ _ Hv)) as [s Hs].
  destruct (patch_keeps_valid json path newValue obj s Hparse Hv Hs) as [obj' [H1 H2]].
  eauto.
Qed.

Lemma updateJsonAtPath_keeps_valid_witness :
  exists s obj',
    updateJsonAtPath (txt "{'a':1}") (Some [SStr (u "x"); SStr (u "y")]) (JNum (num_of_N 5))
    = Normal (Some s)
    /\ JSON_parse s = Some obj' /\ wf false obj' = true.
Proof.
  apply (updateJsonAtPath_keeps_valid (txt "{'a':1}")
           (Some [SStr (u "x"); SStr (u "y")]) (JNum (num_of_N 5))
           (JObj [(u "a", JNum (num_of_N 1))])); reflexivity.
Defined.

(** ** The document patcher: replacing the root *)

Lemma patch_root
    (json : jstring) (path : option (list Seg)) (newValue obj : JsValue) :
  JSON_parse json = Some obj ->
  path = None \/ path = Some [] ->
  is_json newValue = true ->
  exists s, updateJsonAtPath json path newValue = Normal (Some s)
    /\ JSON_stringify newValue = Some s
    /\ JSON_parse s = Some newValue.
Proof.
  intros Hparse Hpath Hjson. pose proof Hjson as Hj. unfold is_json in Hj. bools.
  destruct (ser_defined [] newValue (wf_defined _ _ H)) as [s Hs].
  assert (Hstr : JSON_stringify newValue = Some s).
  { unfold JSON_stringify. now rewrite Hs. }
  exists s. split; [|split; [exact Hstr|]].
  - unfold updateJsonAtPath, updateJsonAtPath_try. rewrite Hparse. cbn [bind].
    destruct Hpath as [-> | ->]; now rewrite Hstr.
  - rewrite <- (jsonify_is_json newValue Hjson).
    apply JSON_parse_stringify; [now apply wf_holes | exact Hstr].
Qed.



(** ** The document patcher: a document that is no container *)

(** X6. When the document is a scalar ([null], a boolean, a number or a string),
    every path of one or more plain keys leaves the text as it is: the
    assignment throws inside the [try] block. *)
Theorem updateJsonAtPath_scalar_document
    (json : jstring) (segs : list Seg) (newValue obj : JsValue) :
  JSON_parse json = Some obj ->
  is_container obj = false ->
  segs <> [] -> plain_path segs = true ->
  updateJsonAtPath json (Some segs) newValue = Normal (Some json).
Proof.
  intros Hparse Hc Hne Hp. unfold updateJsonAtPath.
  rewrite updateJsonAtPath_try_eq, Hparse. cbn [bind].
  destruct segs as [|seg rest]; [congruence|].
  now rewrite (assign_at_noncontainer (seg :: rest) obj newValue Hne Hp Hc).
Qed.

Lemma updateJsonAtPath_scalar_document_witness :
  updateJsonAtPath (txt "5") (Some [SStr (u "a")]) n2 = Normal (Some (txt "5")).
Proof.
  apply (updateJsonAtPath_scalar_document (txt "5") [SStr (u "a")] n2 (JNum (num_of_N 5)));
    [reflexivity | reflexivity | discriminate | reflexivity].
Defined.

(** ** The document patcher: the key __proto__ *)

Lemma obj_set_same (props : list (jstring * JsValue)) (k : jstring) (c : JsValue) :
  wf_keys (keys props) = true -> obj_get props k = Some c -> obj_set props k c = props.
Proof.
  induction props as [|[k0 v0] r IH]; [discriminate|]. cbn [obj_get obj_set keys map fst].
  intros Hwf. destruct (jstring_eqb_spec k0 k) as [->|Hne].
  - intros H. now injection H as ->.
  - intros H. cbn [wf_keys] in Hwf. bools. fold (keys r) in *.
    assert (Hin : In k (keys r)).
    { clear - H. induction r as [|[k1 v1] r IH]; [discriminate|].
      cbn [obj_get keys map fst] in *.
      destruct (jstring_eqb_spec k1 k) as [->|]; [now left | right; now apply IH]. }
    rewrite forallb_forall in H0. specialize (H0 k Hin). bools.
    rewrite H2. now rewrite IH.
Qed.

Lemma arr_set_same (l : list JsValue) (i : nat) (c : JsValue) :
  nth_error l i = Some c -> arr_set l i c = l.
Proof.
  revert l. induction i as [|i IH]; intros [|x r]; cbn [nth_error arr_set]; try discriminate.
  - intros H. now injection H as ->.
  - intros H. now rewrite IH.
Qed.

(** Assigning to an own property the value it has changes nothing. *)
Lemma update_own_same (base : JsValue) (k : jstring) (c : JsValue) :
  wf true base = true -> own_child base k = Some c -> update_own base k c = base.
Proof.
  destruct base as [| |b|n|s|l|props]; cbn [own_child update_own]; try reflexivity.
  - intros _. destruct (array_index k) as [i|]; [|reflexivity]. intros H.
    rewrite (arr_set_same _ _ _ H). now destruct (i <? N.of_nat (length l)).
  - cbn [wf]. intros Hwf H. bools. rewrite H. f_equal. now apply obj_set_same.
Qed.


Lemma app_last_cons (prefix : list Seg) (seg : Seg) :
  exists seg' rest, prefix ++ [seg] = seg' :: rest.
Proof. destruct prefix as [|p r]; cbn [app]; eauto. Qed.





(** ** The document patcher: the container the last segment is assigned on *)

Lemma resolve_some_defined (segs : list Seg) (base c : JsValue) :
  resolve base segs = Some c -> c <> JUndefined -> base <> JUndefined.
Proof.
  destruct segs as [|seg rest]; cbn [resolve].
  - intros H Hc ->. now injection H as <-.
  - intros H _ ->. discriminate.
Qed.

Lemma put_some_defined (c : JsValue) (k : jstring) (v c' : JsValue) :
  put c k v = Normal c' -> c <> JUndefined.
Proof. intros H ->. discriminate. Qed.

(** When all segments but the last resolve, the patched document holds, where
    they lead, the container as the assignment of the last segment leaves
    it. *)
Lemma assign_at_resolve (prefix : list Seg) :
  forall base c c' v seg,
    wf true base = true -> wf true v = true ->
    resolve base prefix = Some c -> put c (key_of_seg seg) v = Normal c' ->
    exists base', assign_at base (prefix ++ [seg]) v = Normal base'
      /\ wf true base' = true
      /\ resolve base' prefix = Some c'.
Proof.
  induction prefix as [|seg0 rest IH]; intros base c c' v seg Hwf Hv Hr Hp.
  - cbn [resolve] in Hr. injection Hr as ->. exists c'. cbn [app assign_at resolve].
    split; [assumption|]. split; [now apply (put_wf c (key_of_seg seg) v) | reflexivity].
  - cbn [resolve] in Hr.
    destruct (own_child base (key_of_seg seg0)) as [ch|] eqn:Hown; [|discriminate].
    assert (Hch : wf true ch = true).
    { apply wf_elem_defined; [now apply (wf_own_child base (key_of_seg seg0)) |].
      apply (resolve_some_defined rest ch c Hr). now apply (put_some_defined c (key_of_seg seg) v c'). }
    destruct (IH ch c c' v seg Hch Hv Hr Hp) as [ch' [Ha [Hw' Hr']]].
    destruct (update_own_fits base (key_of_seg seg0) ch ch' Hown Hwf Hw') as [Hw [Hs _]].
    exists (update_own base (key_of_seg seg0) ch'). split; [|split; [exact Hw|]].
    + destruct (app_last_cons rest seg) as [seg' [rest' E]].
      cbn [app]. rewrite E, assign_at_cons2, (get_own_child _ _ _ Hown). cbn [bind].
      rewrite <- E, Ha. reflexivity.
    + cbn [resolve]. now rewrite Hs.
Qed.

Lemma updateJsonAtPath_try_at (json : jstring) (prefix : list Seg) (seg : Seg)
    (v obj c c' : JsValue) :
  JSON_parse json = Some obj -> wf true v = true ->
  resolve obj prefix = Some c -> put c (key_of_seg seg) v = Normal c' ->
  exists s obj',
    updateJsonAtPath_try json (Some (prefix ++ [seg])) v = Normal (Some s)
    /\ JSON_parse s = Some (jsonify obj')
    /\ resolve (jsonify obj') prefix = Some (jsonify c').
Proof.
  intros Hparse Hv Hr Hp.
  pose proof (wf_holes _ (JSON_parse_wf _ _ Hparse)) as Hwf.
  destruct (assign_at_resolve prefix obj c c' v seg Hwf Hv Hr Hp) as [obj' [Ha [Hw Hr']]].
  destruct (ser_defined [] obj' (wf_defined _ _ Hw)) as [s Hs].
  assert (Hstr : JSON_stringify obj' = Some s) by (unfold JSON_stringify; now rewrite Hs).
  exists s, obj'. split; [|split].
  - rewrite updateJsonAtPath_try_eq, Hparse. cbn [bind].
    destruct (app_last_cons prefix seg) as [seg' [rest' E]].
    rewrite E, <- E, Ha. cbn [bind]. now rewrite Hstr.
  - now apply JSON_parse_stringify.
  - now rewrite resolve_jsonify, Hr'.
Qed.


(** ** The document patcher: an element of an array *)

Lemma length_arr_set (l : list JsValue) (i : nat) (v : JsValue) :
  length (arr_set l i v) = Nat.max (length l) (S i).
Proof.
  revert l. induction i as [|i IH]; intros [|x r]; cbn [arr_set length]; try reflexivity.
  - lia.
  - rewrite IH. cbn [length]. lia.
  - rewrite IH. lia.
Qed.

Lemma nth_error_arr_set_hole (l : list JsValue) (i j : nat) (v : JsValue) :
  (length l <= j < i)%nat -> nth_error (arr_set l i v) j = Some JUndefined.
Proof.
  revert l j. induction i as [|i IH]; intros l j Hj; [lia|].
  destruct l as [|x r]; cbn [arr_set length] in *.
  - destruct j as [|j]; [reflexivity|]. cbn [nth_error]. apply IH. cbn [length]. lia.
  - destruct j as [|j]; [lia|]. cbn [nth_error]. apply IH. lia.
Qed.

(** X8. A path that ends in a number segment [i] on an array assigns the
    element [i]: when the text of the patched document is within the length a
    string may have, the call returns it, and in it the array has the new
    value at [i]; the elements it had elsewhere are kept (an infinity
    written [null] apart); an index past the end makes the array grow to
    [i + 1] elements, and the elements in between read [null]. (Past that
    length [JSON.stringify] throws a RangeError and the input text is
    returned.) *)
Theorem updateJsonAtPath_array_element
    (json : jstring) (prefix : list Seg) (i : N) (newValue obj : JsValue)
    (l : list JsValue) :
  JSON_parse json = Some obj ->
  resolve obj prefix = Some (JArr l) ->
  i < 4294967295 ->
  is_json newValue = true ->
  patch_within_limit json (Some (prefix ++ [SNum i])) newValue = true ->
  exists s obj2 l2,
    updateJsonAtPath json (Some (prefix ++ [SNum i])) newValue = Normal (Some s)
    /\ N.of_nat (length s) <= string_limit
    /\ JSON_parse s = Some obj2
    /\ resolve obj2 prefix = Some (JArr l2)
    /\ length l2 = Nat.max (length l) (S (N.to_nat i))
    /\ nth_error l2 (N.to_nat i) = Some newValue
    /\ (forall j x, j <> N.to_nat i -> nth_error l j = Some x ->
          nth_error l2 j = Some (jsonify x) /\ (finite x = true -> jsonify x = x))
    /\ (forall j, (length l <= j < N.to_nat i)%nat -> nth_error l2 j = Some JNull).
Proof.
  intros Hparse Hr Hi Hjson Hlim. pose proof Hjson as Hj. unfold is_json in Hj. bools.
  assert (Hp : put (JArr l) (key_of_seg (SNum i)) newValue
               = Normal (JArr (arr_set l (N.to_nat i) newValue))).
  { cbn [put]. now rewrite key_of_seg_index. }
  destruct (updateJsonAtPath_try_at json prefix (SNum i) newValue obj _ _
              Hparse (wf_holes _ H) Hr Hp) as [s [obj' [Ht [Hs Hr']]]].
  exists s, (jsonify obj'), (map jsonify (arr_set l (N.to_nat i) newValue)).
  split; [unfold updateJsonAtPath; now rewrite Ht|].
  split; [unfold patch_within_limit in Hlim; rewrite Ht in Hlim; now apply N.leb_le|].
  split; [exact Hs|]. split; [exact Hr'|].
  split; [|split; [|split]].
  - now rewrite length_map, length_arr_set.
  - rewrite nth_error_map, nth_error_arr_set_same. cbn [option_map].
    now rewrite jsonify_is_json.
  - intros j x Hne Hx. split.
    + rewrite nth_error_map, (nth_error_arr_set_other l (N.to_nat i) j newValue x); auto.
    + intros Hfin. apply jsonify_is_json. unfold is_json. rewrite Hfin, andb_true_r.
      pose proof (wf_false_resolve _ _ _ (JSON_parse_wf _ _ Hparse) Hr) as Hl.
      cbn [wf] in Hl. rewrite forallb_forall in Hl.
      specialize (Hl x (nth_error_In _ _ Hx)). now destruct x.
  - intros j Hj. now rewrite nth_error_map, nth_error_arr_set_hole.
Qed.

Lemma updateJsonAtPath_array_element_witness :
  exists s obj2 l2,
    updateJsonAtPath (txt "{'a':[1]}") (Some ([SStr (u "a")] ++ [SNum 3])) n2
    = Normal (Some s)
    /\ N.of_nat (length s) <= string_limit
    /\ JSON_parse s = Some obj2
    /\ resolve obj2 [SStr (u "a")] = Some (JArr l2)
    /\ length l2 = Nat.max (length [JNum (num_of_N 1)]) (S (N.to_nat 3))
    /\ nth_error l2 (N.to_nat 3) = Some n2
    /\ (forall j x, j <> N.to_nat 3 -> nth_error [JNum (num_of_N 1)] j = Some x ->
          nth_error l2 j = Some (jsonify x) /\ (finite x = true -> jsonify x = x))
    /\ (forall j, (length [JNum (num_of_N 1)] <= j < N.to_nat 3)%nat ->
          nth_error l2 j = Some JNull).
Proof.
  apply (updateJsonAtPath_array_element (txt "{'a':[1]}") [SStr (u "a")] 3 n2
           (JObj [(u "a", JArr [JNum (num_of_N 1)])])); reflexivity.
Defined.

(** ** The document patcher: a field of an object *)





(** ** The document patcher: the patch at a node's path *)

(** At a path that is empty or fits the document the [try] block returns the
    text of the patched document, in which the path resolves to the new
    value. *)
Lemma try_at_path (json : jstring) (path : option (list Seg)) (newValue obj : JsValue) :
  JSON_parse json = Some obj ->
  segments path = [] \/ fits obj (segments path) = true ->
  is_json newValue = true ->
  exists s obj2,
    updateJsonAtPath_try json path newValue = Normal (Some s)
    /\ JSON_parse s = Some obj2
    /\ resolve obj2 (segments path) = Some newValue.
Proof.
  intros Hparse Hpath Hjson. pose proof Hjson as Hj. unfold is_json in Hj. bools.
  destruct Hpath as [Hroot | Hfit].
  - destruct (ser_defined [] newValue (wf_defined _ _ H)) as [s Hs].
    assert (Hstr : JSON_stringify newValue = Some s).
    { unfold JSON_stringify. now rewrite Hs. }
    exists s, newValue. rewrite Hroot. split; [|split; [|reflexivity]].
    + unfold updateJsonAtPath_try. rewrite Hparse. cbn [bind].
      destruct path as [[|? ?]|]; try discriminate; now rewrite Hstr.
    + rewrite <- (jsonify_is_json newValue Hjson).
      apply JSON_parse_stringify; [now apply wf_holes | exact Hstr].
  - destruct path as [segs|]; [|discriminate]. cbn [segments] in *.
    pose proof (JSON_parse_wf _ _ Hparse) as Hwf.
    destruct (assign_at_fits segs obj newValue Hfit (wf_holes _ Hwf) (wf_holes _ H))
      as [obj' [Ha [Hw' [Hr _]]]].
    destruct (ser_defined [] obj' (wf_defined _ _ Hw')) as [s Hs].
    exists s, (jsonify obj'). split; [|split].
    + rewrite updateJsonAtPath_try_eq, Hparse. cbn [bind].
      destruct segs as [|seg rest]; [discriminate|].
      rewrite Ha. cbn [bind]. unfold JSON_stringify. now rewrite Hs.
    + apply JSON_parse_stringify; [assumption|]. unfold JSON_stringify. now rewrite Hs.
    + rewrite resolve_jsonify, Hr. cbn [option_map]. now rewrite jsonify_is_json.
Qed.

Lemma patch_at_path (json : jstring) (path : option (list Seg)) (newValue obj : JsValue) :
  JSON_parse json = Some obj ->
  segments path = [] \/ fits obj (segments path) = true ->
  is_json newValue = true ->
  patch_within_limit json path newValue = true ->
  exists s obj2,
    updateJsonAtPath json path newValue = Normal (Some s)
    /\ N.of_nat (length s) <= string_limit
    /\ JSON_parse s = Some obj2
    /\ resolve obj2 (segments path) = Some newValue.
Proof.
  intros Hparse Hpath Hjson Hlim.
  destruct (try_at_path json path newValue obj Hparse Hpath Hjson)
    as [s [obj2 [Ht [Hp Hr]]]].
  exists s, obj2. split; [unfold updateJsonAtPath; now rewrite Ht|].
  split; [|now split].
  unfold patch_within_limit in Hlim. rewrite Ht in Hlim. now apply N.leb_le.
Qed.

(** ** The document patcher: the text it writes is canonical *)

Lemma elem_text_jsonify (v : JsValue) :
  forall ind, wf_elem v = true -> elem_text ind (jsonify v) = elem_text ind v.
Proof.
  induction v as [| |b|n|s|l IH|props IH] using JsValue_ind2; intros ind Hwf;
    try reflexivity.
  - destruct n; reflexivity.
  - assert (E : map (elem_text (ind ++ gap)) (map jsonify l)
               = map (elem_text (ind ++ gap)) l).
    { rewrite map_map. apply map_ext_in. intros x Hx.
      rewrite Forall_forall in IH. apply (IH x Hx).
      cbn [wf_elem wf] in Hwf. fold wf_elem in Hwf. rewrite forallb_forall in Hwf.
      now apply Hwf. }
    cbn [jsonify]. unfold elem_text. now rewrite !ser_arr, E.
  - assert (E : member_texts (ind ++ gap) (map (fun kv => (fst kv, jsonify (snd kv))) props)
               = member_texts (ind ++ gap) props).
    { cbn [wf_elem wf] in Hwf. apply andb_true_iff in Hwf. destruct Hwf as [_ Hwf].
      induction props as [|[k x] r IHr]; [reflexivity|].
      cbn [map member_texts fst snd forallb] in *.
      apply andb_true_iff in Hwf. destruct Hwf as [Hx Hr].
      inversion IH as [|? ? Hx' Hr']; subst. cbn [snd] in Hx'.
      assert (Hwx : wf_elem x = true) by (destruct x; try exact Hx; reflexivity).
      specialize (Hx' (ind ++ gap) Hwx). unfold elem_text in Hx'.
      destruct (ser_defined (ind ++ gap) x (wf_defined _ _ Hx)) as [t Ht].
      assert (Hjx : jsonify x <> JUndefined) by (destruct x as [| | |[]| | |]; discriminate).
      destruct (ser_defined (ind ++ gap) (jsonify x) Hjx) as [t' Ht'].
      rewrite Ht, Ht' in *. subst t'. f_equal. now apply IHr. }
    cbn [jsonify]. unfold elem_text. now rewrite !ser_obj, E.
Qed.

(** Writing what was read back from a text gives the text again. *)
Lemma stringify_jsonify (v : JsValue) (s : jstring) :
  wf true v = true -> JSON_stringify v = Some s -> JSON_stringify (jsonify v) = Some s.
Proof.
  intros Hwf Hs. unfold JSON_stringify in *.
  assert (Hwe : wf_elem v = true) by (destruct v; try exact Hwf; reflexivity).
  pose proof (elem_text_jsonify v [] Hwe) as E. unfold elem_text in E.
  assert (Hj : jsonify v <> JUndefined) by (destruct v as [| | |[]| | |]; discriminate).
  destruct (ser_defined [] (jsonify v) Hj) as [t Ht].
  rewrite Ht, Hs in E. now rewrite Ht, E.
Qed.

(** X10. What the patcher returns is the input text itself (when the [try] block
    threw) or a text in the canonical form: parsing it and writing the result
    with [JSON.stringify (_, null, 2)] gives the same text again. *)
Theorem updateJsonAtPath_canonical
    (json : jstring) (path : option (list Seg)) (newValue obj : JsValue) (s : jstring) :
  JSON_parse json = Some obj ->
  wf true newValue = true ->
  updateJsonAtPath json path newValue = Normal (Some s) ->
  s = json
  \/ exists v, JSON_parse s = Some v /\ JSON_stringify v = Some s.
Proof.
  intros Hparse Hv. unfold updateJsonAtPath. rewrite updateJsonAtPath_try_eq, Hparse.
  cbn [bind].
  assert (Hser : forall x, wf true x = true -> JSON_stringify x = Some s ->
                   exists v, JSON_parse s = Some v /\ JSON_stringify v = Some s).
  { intros x Hx Hs. exists (jsonify x).
    split; [now apply JSON_parse_stringify | now apply stringify_jsonify]. }
  destruct path as [[|seg rest]|].
  - intros H. injection H as H. right. now apply (Hser newValue).
  - destruct (assign_at obj (seg :: rest) newValue) as [obj'| |] eqn:Ha; cbn [bind].
    + intros H. injection H as H. right. apply (Hser obj'); [|assumption].
      apply (assign_at_wf (seg :: rest) obj newValue); try assumption.
      apply wf_holes. now apply (JSON_parse_wf json).
    + intros H. injection H as <-. now left.
    + discriminate.
  - intros H. injection H as H. right. now apply (Hser newValue).
Qed.

Lemma updateJsonAtPath_canonical_witness :
  stringify_object [(u "a", JNum (num_of_N 5))] = txt "{'a':1}"
  \/ exists v, JSON_parse (stringify_object [(u "a", JNum (num_of_N 5))]) = Some v
       /\ JSON_stringify v = Some (stringify_object [(u "a", JNum (num_of_N 5))]).
Proof.
  apply (updateJsonAtPath_canonical (txt "{'a':1}")
           (Some [SStr (u "a")]) (JNum (num_of_N 5))
           (JObj [(u "a", JNum (num_of_N 1))])); reflexivity.
Defined.

(** ** The document patcher: patching twice *)

Lemma put_same (c : JsValue) (k : jstring) (v : JsValue) :
  wf true c = true -> own_child c k = Some v -> put c k v = Normal c.
Proof.
  destruct c as [| |b|n|s|l|props]; cbn [own_child put]; try discriminate.
  - intros _. destruct (array_index k) as [i|]; [|discriminate].
    intros H. now rewrite (arr_set_same _ _ _ H).
  - cbn [wf]. intros Hwf H. bools. rewrite H. now rewrite obj_set_same.
Qed.

(** Assigning at a path the value it resolves to changes nothing. *)
Lemma assign_at_same (segs : list Seg) :
  forall base v,
    wf true base = true -> v <> JUndefined -> resolve base segs = Some v ->
    assign_at base segs v = Normal base.
Proof.
  induction segs as [|seg rest IH]; intros base v Hwf Hv Hr; [reflexivity|].
  cbn [resolve] in Hr.
  destruct (own_child base (key_of_seg seg)) as [ch|] eqn:Hown; [|discriminate].
  destruct rest as [|seg' rest'].
  - cbn [resolve] in Hr. injection Hr as ->. cbn [assign_at]. now apply put_same.
  - rewrite assign_at_cons2, (get_own_child _ _ _ Hown). cbn [bind].
    rewrite (IH ch v); try assumption.
    + cbn [bind]. now rewrite update_own_same.
    + apply wf_elem_defined; [now apply (wf_own_child base (key_of_seg seg)) |].
      now apply (resolve_some_defined (seg' :: rest') ch v).
Qed.

(** X11. A patch applied to its own result changes nothing: for a path that is
    empty or fits the document and a new value that is JSON data, patching
    the returned text again at the same path with the same value returns that
    text. *)
Theorem updateJsonAtPath_idempotent
    (json : jstring) (path : option (list Seg)) (newValue obj : JsValue) :
  JSON_parse json = Some obj ->
  segments path = [] \/ fits obj (segments path) = true ->
  is_json newValue = true ->
  exists s, updateJsonAtPath json path newValue = Normal (Some s)
    /\ updateJsonAtPath s path newValue = Normal (Some s).
Proof.
  intros Hparse Hpath Hjson. pose proof Hjson as Hj. unfold is_json in Hj. bools.
  pose proof (wf_holes _ H) as Hv.
  destruct Hpath as [Hroot | Hfit].
  - destruct (patch_root json path newValue obj Hparse) as [s [Hu [Hs Hp]]];
      [destruct path as [[|? ?]|]; try discriminate; auto | exact Hjson |].
    exists s. split; [exact Hu|].
    unfold updateJsonAtPath, updateJsonAtPath_try. rewrite Hp. cbn [bind].
    destruct path as [[|? ?]|]; try discriminate; now rewrite Hs.
  - destruct path as [segs|]; [|discriminate]. cbn [segments] in Hfit.
    pose proof (wf_holes _ (JSON_parse_wf _ _ Hparse)) as Hwf.
    destruct (assign_at_fits segs obj newValue Hfit Hwf Hv) as [obj' [Ha [Hw' [Hr _]]]].
    destruct (ser_defined [] obj' (wf_defined _ _ Hw')) as [s Hs].
    assert (Hstr : JSON_stringify obj' = Some s) by (unfold JSON_stringify; now rewrite Hs).
    pose proof (JSON_parse_stringify obj' s Hw' Hstr) as Hp.
    exists s. destruct segs as [|seg rest]; [discriminate|]. split.
    + unfold updateJsonAtPath. rewrite updateJsonAtPath_try_eq, Hparse. cbn [bind].
      rewrite Ha. cbn [bind]. now rewrite Hstr.
    + unfold updateJsonAtPath. rewrite updateJsonAtPath_try_eq, Hp. cbn [bind].
      rewrite (assign_at_same (seg :: rest) (jsonify obj') newValue).
      * cbn [bind]. now rewrite (stringify_jsonify obj' s).
      * apply wf_holes. now apply (JSON_parse_wf s).
      * now apply (wf_defined false).
      * rewrite resolve_jsonify, Hr. cbn [option_map]. now rewrite jsonify_is_json.
Qed.

Lemma updateJsonAtPath_idempotent_witness :
  exists s,
    updateJsonAtPath (txt "{'a':{'b':1}}") (Some [SStr (u "a"); SStr (u "c")]) n2
    = Normal (Some s)
    /\ updateJsonAtPath s (Some [SStr (u "a"); SStr (u "c")]) n2 = Normal (Some s).
Proof.
  apply (updateJsonAtPath_idempotent (txt "{'a':{'b':1}}")
           (Some [SStr (u "a"); SStr (u "c")]) n2
           (JObj [(u "a", JObj [(u "b", JNum (num_of_N 1))])])); try reflexivity.
  right. reflexivity.
Defined.

(** ** The row normaliser: faults *)




(** ** The row normaliser: reading the text back *)


Lemma row_mapping_values (P : JsValue -> bool) (rows : list Row) :
  forallb (fun row => negb (kept row) || P (value row)) rows = true ->
  forall m, forallb (fun kv => P (snd kv)) m = true ->
    forallb (fun kv => P (snd kv))
      (fold_left (fun m row => if kept row then obj_set m (key_text row) (value row) else m)
         rows m) = true.
Proof.
  induction rows as [|row rest IH]; intros H m Hm; [exact Hm|].
  cbn [forallb] in H. apply andb_true_iff in H. destruct H as [H1 H2].
  cbn [fold_left]. apply IH; [exact H2|].
  destruct (kept row); [|exact Hm]. now apply obj_set_values.
Qed.

Lemma row_mapping_keys (rows : list Row) :
  forall m, wf_keys (keys m) = true ->
    wf_keys (keys (fold_left
                     (fun m row => if kept row then obj_set m (key_text row) (value row) else m)
                     rows m)) = true.
Proof.
  induction rows as [|row rest IH]; intros m Hm; [exact Hm|].
  cbn [fold_left]. apply IH. destruct (kept row); [|exact Hm]. now apply wf_keys_obj_set.
Qed.

Lemma row_mapping_is_json (rows : list Row) :
  json_rows rows = true -> is_json (JObj (row_mapping rows)) = true.
Proof.
  intros H. unfold is_json, row_mapping. cbn [wf finite].
  fold (keys (fold_left
          (fun m row => if kept row then obj_set m (key_text row) (value row) else m) rows [])).
  rewrite (row_mapping_keys rows [] eq_refl). cbn [andb].
  rewrite (row_mapping_values (wf false) rows), (row_mapping_values finite rows);
    try reflexivity; unfold json_rows, is_json in H; rewrite forallb_forall in *;
    intros row Hrow; specialize (H row Hrow); destruct (kept row); cbn [negb orb] in *;
    try reflexivity; now bools.
Qed.

Lemma rows_read_back (rows : list Row) :
  json_rows rows = true ->
  JSON_parse (stringify_object (row_mapping rows)) = Some (JObj (row_mapping rows)).
Proof.
  intros Hj. pose proof (row_mapping_is_json rows Hj) as Hjson.
  rewrite <- (jsonify_is_json _ Hjson) at 1.
  apply JSON_parse_stringify; [|apply stringify_object_ser].
  apply wf_holes. unfold is_json in Hjson. now bools.
Qed.



(** ** The edit session: what a save does, case by case *)

Lemma map_nodes_fault (parsedContent : JsValue) (nd : NodeData) (ns : list NodeData)
    (o : Outcome (list Row)) :
  map_outcome (merge_row parsedContent) (text nd) = o ->
  (forall rows', o <> Normal rows') ->
  map_outcome
    (fun node =>
       if jstring_eqb (id node) (id nd) then
         t <- map_outcome (merge_row parsedContent) (text nd) ;;
         Normal (mkNode (id node) t (path node))
       else Normal node) ns
  = Normal ns
  \/ map_outcome
       (fun node =>
          if jstring_eqb (id node) (id nd) then
            t <- map_outcome (merge_row parsedContent) (text nd) ;;
            Normal (mkNode (id node) t (path node))
          else Normal node) ns
     = match o with
       | Throw e => Throw e
       | _ => Unmodelled
       end.
Proof.
  intros Hm Ho. induction ns as [|node r IH]; [now left|].
  cbn [map_outcome]. destruct (jstring_eqb (id node) (id nd)).
  - right. rewrite Hm. destruct o as [rows'| |]; [now contradiction (Ho rows') | |];
      reflexivity.
  - cbn [bind]. destruct IH as [-> | ->]; [now left | right].
    destruct o as [rows'| |]; reflexivity.
Qed.

(** [handleSave], outcome by outcome: no node; a draft that does not parse; a
    patch outside the model; a merge-back that goes through, throws, or leaves
    the model. The document store is set before the merge-back runs. *)
Lemma handleSave_run (st : State) :
  handleSave st =
  match selectedNode st with
  | None => (st, Normal tt)
  | Some nd =>
      match JSON_parse (editedContent st) with
      | None => (logged SyntaxError st, Normal tt)
      | Some parsedContent =>
          match updateJsonAtPath (json st) (path nd) parsedContent with
          | Throw e => (logged e st, Normal tt)
          | Unmodelled | Normal None => (st, Unmodelled)
          | Normal (Some updated) =>
              match map_outcome (merge_row parsedContent) (text nd) with
              | Normal rows' =>
                  (mkState updated (merged_nodes nd rows' (nodes st))
                     (Some (mkNode (id nd) rows' (path nd))) false
                     (editedContent st) (console st), Normal tt)
              | Throw e => (logged e (with_json updated st), Normal tt)
              | Unmodelled => (with_json updated st, Unmodelled)
              end
          end
      end
  end.
Proof.
  unfold handleSave, mbind, read, try_catch, lift, ret, setJson, setGraph, setIsEditing,
    console_error, logged, with_json.
  destruct st as [j ns sel ed ec co].
  cbn [selectedNode editedContent json nodes isEditing console].
  destruct sel as [nd|]; [|reflexivity].
  destruct (JSON_parse ec) as [parsedContent|]; [|reflexivity].
  cbn [selectedNode editedContent json nodes isEditing console].
  destruct (updateJsonAtPath j (path nd) parsedContent) as [[updated|]| |]; try reflexivity.
  cbn [selectedNode editedContent json nodes isEditing console].
  pose proof (fun rows' => map_nodes_merged parsedContent nd rows' ns) as HM.
  pose proof (map_nodes_fault parsedContent nd ns _ eq_refl) as HF.
  destruct (map_outcome (merge_row parsedContent) (text nd)) as [rows'| |].
  - rewrite (HM rows' eq_refl). reflexivity.
  - destruct HF as [-> | ->]; [discriminate | reflexivity | reflexivity].
  - destruct HF as [-> | ->]; [discriminate | reflexivity | reflexivity].
Qed.

(** ** The edit session: what every save keeps *)

Lemma merge_row_modelled (parsedContent : JsValue) (rows : list Row) :
  forallb (fun row => match key row with
                      | Some k => plain_key k
                      | None => true
                      end) rows = true ->
  map_outcome (merge_row parsedContent) rows <> Unmodelled.
Proof.
  induction rows as [|row rest IH]; [discriminate|]. cbn [forallb map_outcome].
  intros H. apply andb_true_iff in H. destruct H as [Hk Hr]. specialize (IH Hr).
  assert (Hm : merge_row parsedContent row <> Unmodelled).
  { unfold merge_row. destruct (key row) as [[|c k]|]; try discriminate.
    pose proof (get_modelled parsedContent (c :: k) Hk) as Hg.
    destruct (get parsedContent (c :: k)) as [x| |]; cbn [bind]; try congruence.
    destruct x; discriminate. }
  destruct (merge_row parsedContent row) as [row'| |]; cbn [bind]; try congruence.
  destruct (map_outcome (merge_row parsedContent) rest); cbn [bind]; congruence.
Qed.

(** X14. In a state whose selected node has a path and row keys that name no
    built-in member, [handleSave] returns normally and leaves the draft as it
    is; with no node selected it does nothing; a document store that holds
    text that parses holds text that parses afterwards; and the node-graph
    store and the mode change only together, in a run that ends in Viewing
    and logs nothing. *)
Theorem handleSave_invariants (st : State) :
  selected_plain st = true ->
  snd (handleSave st) = Normal tt
  /\ editedContent (fst (handleSave st)) = editedContent st
  /\ (selectedNode st = None -> handleSave st = (st, Normal tt))
  /\ (forall obj, JSON_parse (json st) = Some obj ->
        exists obj', JSON_parse (json (fst (handleSave st))) = Some obj')
  /\ ((nodes (fst (handleSave st)) = nodes st
       /\ selectedNode (fst (handleSave st)) = selectedNode st
       /\ isEditing (fst (handleSave st)) = isEditing st)
      \/ (isEditing (fst (handleSave st)) = false
          /\ console (fst (handleSave st)) = console st)).
Proof.
  unfold selected_plain. rewrite handleSave_run.
  destruct (selectedNode st) as [nd|] eqn:Hsel;
    [|intros _; repeat split; eauto].
  intros Hplain. unfold plain_node in Hplain.
  apply andb_true_iff in Hplain. destruct Hplain as [Hpath Hkeys].
  destruct (JSON_parse (editedContent st)) as [parsedContent|] eqn:Hdraft;
    [|repeat split; eauto; discriminate].
  pose proof (JSON_parse_wf _ _ Hdraft) as Hwf0.
  pose proof (wf_holes _ Hwf0) as Hwf.
  destruct (patch_string (json st) (path nd) parsedContent Hpath (wf_defined _ _ Hwf))
    as [updated Hu].
  rewrite Hu.
  assert (Hvalid : forall obj, JSON_parse (json st) = Some obj ->
                     exists obj', JSON_parse updated = Some obj').
  { intros obj Hobj.
    destruct (patch_keeps_valid _ _ _ obj updated Hobj Hwf Hu) as [obj' [H _]]. eauto. }
  pose proof (merge_row_modelled parsedContent (text nd) Hkeys) as Hm.
  destruct (map_outcome (merge_row parsedContent) (text nd)) as [rows'| |];
    [| | congruence];
    cbn [fst snd logged with_json json nodes selectedNode isEditing editedContent console];
    (split; [reflexivity|]); (split; [reflexivity|]); (split; [discriminate|]);
    (split; [exact Hvalid|]); [right | left]; repeat split; assumption.
Qed.

Lemma handleSave_invariants_witness :
  snd (handleSave editing_a) = Normal tt
  /\ editedContent (fst (handleSave editing_a)) = editedContent editing_a
  /\ (selectedNode editing_a = None -> handleSave editing_a = (editing_a, Normal tt))
  /\ (forall obj, JSON_parse (json editing_a) = Some obj ->
        exists obj', JSON_parse (json (fst (handleSave editing_a))) = Some obj')
  /\ ((nodes (fst (handleSave editing_a)) = nodes editing_a
       /\ selectedNode (fst (handleSave editing_a)) = selectedNode editing_a
       /\ isEditing (fst (handleSave editing_a)) = isEditing editing_a)
      \/ (isEditing (fst (handleSave editing_a)) = false
          /\ console (fst (handleSave editing_a)) = console editing_a)).
Proof. apply (handleSave_invariants editing_a). reflexivity. Defined.

(** ** The edit session: the draft null *)

Lemma merge_row_null (rows : list Row) :
  existsb (fun row => truthy (key row)) rows = true ->
  map_outcome (merge_row JNull) rows = Throw TypeError.
Proof.
  induction rows as [|row rest IH]; [discriminate|]. cbn [existsb map_outcome].
  unfold merge_row at 1. destruct (key row) as [[|c k]|]; cbn [truthy orb bind].
  - intros H. now rewrite (IH H).
  - reflexivity.
  - intros H. now rewrite (IH H).
Qed.

(** X15. A save of the draft [null] on a node that has a row with a key commits
    half: the document store takes the patched text, then the merge-back
    throws on the read of [null], so the node-graph store and the mode stay as
    they were; the TypeError is passed to [console.error] and the handler
    returns normally. *)
Theorem handleSave_null_draft (st : State) (nd : NodeData) (updated : jstring) :
  selectedNode st = Some nd ->
  JSON_parse (editedContent st) = Some JNull ->
  updateJsonAtPath (json st) (path nd) JNull = Normal (Some updated) ->
  existsb (fun row => truthy (key row)) (text nd) = true ->
  handleSave st
  = (mkState updated (nodes st) (selectedNode st) (isEditing st) (editedContent st)
       (TypeError :: console st), Normal tt).
Proof.
  intros Hsel Hdraft Hu Hrow. rewrite handleSave_run, Hsel, Hdraft, Hu.
  rewrite (merge_row_null _ Hrow). rewrite <- Hsel. reflexivity.
Qed.

Lemma handleSave_null_draft_witness :
  handleSave
    (mkState (txt "{'a':1}")
       [mkNode (u "n1") [mkRow (Some (u "a")) (JNum (num_of_N 1)) scalar] (Some [])]
       (Some (mkNode (u "n1") [mkRow (Some (u "a")) (JNum (num_of_N 1)) scalar] (Some [])))
       true (u "null") [])
  = (mkState (u "null")
       [mkNode (u "n1") [mkRow (Some (u "a")) (JNum (num_of_N 1)) scalar] (Some [])]
       (Some (mkNode (u "n1") [mkRow (Some (u "a")) (JNum (num_of_N 1)) scalar] (Some [])))
       true (u "null") [TypeError], Normal tt).
Proof.
  apply (handleSave_null_draft
           (mkState (txt "{'a':1}")
              [mkNode (u "n1") [mkRow (Some (u "a")) (JNum (num_of_N 1)) scalar] (Some [])]
              (Some (mkNode (u "n1") [mkRow (Some (u "a")) (JNum (num_of_N 1)) scalar]
                       (Some [])))
              true (u "null") [])
           (mkNode (u "n1") [mkRow (Some (u "a")) (JNum (num_of_N 1)) scalar] (Some []))
           (u "null")); reflexivity.
Defined.

(** ** The edit session: a save of the draft as it was seeded *)

Lemma handleSave_json (st : State) (nd : NodeData) (parsedContent : JsValue)
    (updated : jstring) :
  selectedNode st = Some nd ->
  JSON_parse (editedContent st) = Some parsedContent ->
  updateJsonAtPath (json st) (path nd) parsedContent = Normal (Some updated) ->
  json (fst (handleSave st)) = updated.
Proof.
  intros Hsel Hdraft Hu. rewrite handleSave_run, Hsel, Hdraft, Hu.
  destruct (map_outcome (merge_row parsedContent) (text nd)); reflexivity.
Qed.

(** X16. Edit, then Save with the draft untouched: the document then holds,
    at the node's path, the object of the rows the normaliser assigns and
    nothing else. The fields of type [array] and [object] that the document
    had there are gone from it. (The node has more than one row or a keyed
    row, its assigned rows hold JSON values and none is keyed [__proto__],
    its path is empty or fits the document, and the patched text is within
    the length a string may have.) *)
Theorem handleEdit_handleSave (st : State) (nd : NodeData) (obj : JsValue) :
  selectedNode st = Some nd ->
  JSON_parse (json st) = Some obj ->
  segments (path nd) = [] \/ fits obj (segments (path nd)) = true ->
  single_keyless (text nd) = false ->
  proto_free (text nd) = true ->
  json_rows (text nd) = true ->
  patch_within_limit (json st) (path nd) (JObj (row_mapping (text nd))) = true ->
  exists obj2,
    JSON_parse (json (fst (handleSave (fst (handleEdit st))))) = Some obj2
    /\ N.of_nat (length (json (fst (handleSave (fst (handleEdit st)))))) <= string_limit
    /\ resolve obj2 (segments (path nd)) = Some (JObj (row_mapping (text nd))).
Proof.
  intros Hsel Hparse Hpath Hs Hf Hj Hlim.
  rewrite handleEdit_run. unfold selected_rows. rewrite Hsel.
  rewrite (normalizeNodeData_rows _ Hs Hf). cbn [fst].
  pose proof (rows_read_back _ Hj) as Hdraft.
  pose proof (row_mapping_is_json _ Hj) as Hjson.
  destruct (patch_at_path (json st) (path nd) (JObj (row_mapping (text nd))) obj
              Hparse Hpath Hjson Hlim) as [s [obj2 [Hu [Hl [Hp Hr]]]]].
  exists obj2.
  erewrite handleSave_json; [| reflexivity | exact Hdraft | exact Hu].
  now repeat split.
Qed.

Lemma handleEdit_handleSave_witness :
  exists obj2,
    JSON_parse (json (fst (handleSave (fst (handleEdit
      (mkState (txt "{'a':1,'b':[1]}")
         [mkNode (u "n1") [mkRow (Some (u "a")) (JNum (num_of_N 1)) scalar;
                           mkRow (Some (u "b")) (JStr (u "[1 item]")) array] (Some [])]
         (Some (mkNode (u "n1") [mkRow (Some (u "a")) (JNum (num_of_N 1)) scalar;
                                 mkRow (Some (u "b")) (JStr (u "[1 item]")) array] (Some [])))
         false [] [])))))) = Some obj2
    /\ N.of_nat (length (json (fst (handleSave (fst (handleEdit
         (mkState (txt "{'a':1,'b':[1]}")
            [mkNode (u "n1") [mkRow (Some (u "a")) (JNum (num_of_N 1)) scalar;
                              mkRow (Some (u "b")) (JStr (u "[1 item]")) array] (Some [])]
            (Some (mkNode (u "n1") [mkRow (Some (u "a")) (JNum (num_of_N 1)) scalar;
                                    mkRow (Some (u "b")) (JStr (u "[1 item]")) array]
                     (Some [])))
            false [] []))))))) <= string_limit
    /\ resolve obj2 (segments (Some []))
       = Some (JObj (row_mapping [mkRow (Some (u "a")) (JNum (num_of_N 1)) scalar;
                                  mkRow (Some (u "b")) (JStr (u "[1 item]")) array])).
Proof.
  apply (handleEdit_handleSave
           (mkState (txt "{'a':1,'b':[1]}")
              [mkNode (u "n1") [mkRow (Some (u "a")) (JNum (num_of_N 1)) scalar;
                                mkRow (Some (u "b")) (JStr (u "[1 item]")) array] (Some [])]
              (Some (mkNode (u "n1") [mkRow (Some (u "a")) (JNum (num_of_N 1)) scalar;
                                      mkRow (Some (u "b")) (JStr (u "[1 item]")) array]
                       (Some [])))
              false [] [])
           (mkNode (u "n1") [mkRow (Some (u "a")) (JNum (num_of_N 1)) scalar;
                             mkRow (Some (u "b")) (JStr (u "[1 item]")) array] (Some []))
           (JObj [(u "a", JNum (num_of_N 1)); (u "b", JArr [JNum (num_of_N 1)])]));
    try reflexivity.
  left. reflexivity.
Defined.

(** ** The edit session: the two stores after a save *)

Lemma resolve_app (prefix : list Seg) (k : jstring) :
  forall base c, resolve base prefix = Some c ->
    resolve base (prefix ++ [SStr k]) = own_child c k.
Proof.
  induction prefix as [|seg rest IH]; intros base c; cbn [resolve app].
  - intros H. injection H as ->. cbn [key_of_seg]. now destruct (own_child c k).
  - destruct (own_child base (key_of_seg seg)) as [ch|]; [apply IH | discriminate].
Qed.

(** X17. After a save that goes through, the two stores agree on what the
    draft names: the document holds the parsed draft at the node's path, and
    every row of the selected node whose key the document has there carries
    the document's value for that key. (The draft holds no number that
    overflows, the node's path is empty or fits the document, and the
    patched text is within the length a string may have.) *)
Theorem handleSave_consistent
    (st : State) (nd : NodeData) (parsedContent obj : JsValue) (rows' : list Row) :
  selectedNode st = Some nd ->
  JSON_parse (editedContent st) = Some parsedContent ->
  finite parsedContent = true ->
  JSON_parse (json st) = Some obj ->
  segments (path nd) = [] \/ fits obj (segments (path nd)) = true ->
  patch_within_limit (json st) (path nd) parsedContent = true ->
  map_outcome (merge_row parsedContent) (text nd) = Normal rows' ->
  exists obj2,
    JSON_parse (json (fst (handleSave st))) = Some obj2
    /\ N.of_nat (length (json (fst (handleSave st)))) <= string_limit
    /\ resolve obj2 (segments (path nd)) = Some parsedContent
    /\ selectedNode (fst (handleSave st)) = Some (mkNode (id nd) rows' (path nd))
    /\ Forall2 (fun row row' =>
                  key row' = key row
                  /\ forall c k x,
                       key row = Some (c :: k) ->
                       resolve obj2 (segments (path nd) ++ [SStr (c :: k)]) = Some x ->
                       value row' = x)
         (text nd) rows'.
Proof.
  intros Hsel Hdraft Hfin Hparse Hpath Hlim Hmerge.
  pose proof (JSON_parse_wf _ _ Hdraft) as Hwf.
  assert (Hjson : is_json parsedContent = true) by (unfold is_json; now rewrite Hwf, Hfin).
  destruct (patch_at_path (json st) (path nd) parsedContent obj Hparse Hpath Hjson Hlim)
    as [s [obj2 [Hu [Hl [Hp Hr]]]]].
  exists obj2. rewrite handleSave_run, Hsel, Hdraft, Hu, Hmerge.
  cbn [fst json selectedNode]. split; [exact Hp|]. split; [exact Hl|].
  split; [exact Hr|]. split; [reflexivity|].
  pose proof (map_merge_row_merged parsedContent (text nd) rows' Hmerge) as HF.
  clear Hmerge. induction HF as [|row row' r r' Hm HF IH]; constructor; [|exact IH].
  split; [now destruct Hm|].
  intros c k x Ek Hx. rewrite (resolve_app _ _ _ _ Hr) in Hx.
  now apply (merged_own parsedContent row row' c k x).
Qed.

Lemma handleSave_consistent_witness :
  exists obj2,
    JSON_parse (json (fst (handleSave editing_a))) = Some obj2
    /\ N.of_nat (length (json (fst (handleSave editing_a)))) <= string_limit
    /\ resolve obj2 (segments (Some [])) = Some (JObj [(u "a", n2)])
    /\ selectedNode (fst (handleSave editing_a))
       = Some (mkNode (u "n1")
                 [mkRow (Some (u "a")) n2 scalar;
                  mkRow (Some (u "b")) (JStr (u "[1 item]")) array] (Some []))
    /\ Forall2 (fun row row' =>
                  key row' = key row
                  /\ forall c k x,
                       key row = Some (c :: k) ->
                       resolve obj2 (segments (Some []) ++ [SStr (c :: k)]) = Some x ->
                       value row' = x)
         [mkRow (Some (u "a")) (JNum (num_of_N 1)) scalar;
          mkRow (Some (u "b")) (JStr (u "[1 item]")) array]
         [mkRow (Some (u "a")) n2 scalar;
          mkRow (Some (u "b")) (JStr (u "[1 item]")) array].
Proof.
  apply (handleSave_consistent editing_a
           (mkNode (u "n1") [mkRow (Some (u "a")) (JNum (num_of_N 1)) scalar;
                             mkRow (Some (u "b")) (JStr (u "[1 item]")) array] (Some []))
           (JObj [(u "a", n2)])
           (JObj [(u "a", JNum (num_of_N 1)); (u "b", JArr [JNum (num_of_N 1)])]));
    try reflexivity.
  left. reflexivity.
Defined.

(** ** The modal: Edit, typing, Cancel *)

(** X18. From a modal that shows a node's text: Edit opens the text area on
    exactly the text that was shown; typing replaces the text area's value;
    Cancel brings back the text that was shown, whatever was typed. The path
    string stays throughout, a node is selected, and [handleEdit] returns
    normally. *)
Theorem NodeModal_edit_cancel (st : State) (code p typed : jstring) :
  NodeModal st = Normal (Some (mkView (CodeView code) p)) ->
  let st1 := fst (handleEdit st) in
  let st2 := fst (handleChange typed st1) in
  (exists nd, selectedNode st = Some nd)
  /\ snd (handleEdit st) = Normal tt
  /\ NodeModal st1 = Normal (Some (mkView (EditView code) p))
  /\ NodeModal st2 = Normal (Some (mkView (EditView typed) p))
  /\ NodeModal (fst (handleCancel st2)) = Normal (Some (mkView (CodeView code) p)).
Proof.
  cbv zeta. unfold NodeModal at 1. rewrite handleEdit_run. unfold selected_rows.
  destruct (selectedNode st) as [nd|] eqn:Hsel; [|discriminate].
  destruct (isEditing st) eqn:Hed; cbn [bind]; [discriminate|].
  destruct (normalizeNodeData (Some (text nd))) as [code0| |] eqn:Hn; try discriminate.
  cbn [bind]. intros H. injection H as -> <-.
  split; [now exists nd|].
  unfold NodeModal, handleChange, handleCancel, setEditedContent, setIsEditing, mbind.
  cbn [fst selectedNode isEditing editedContent]. rewrite ?Hsel, ?Hn. cbn [bind].
  repeat split; reflexivity.
Qed.

Lemma NodeModal_edit_cancel_witness :
  let st := mkState (txt "{'a':1}")
              [mkNode (u "n1") [mkRow (Some (u "a")) (JNum (num_of_N 1)) scalar] (Some [])]
              (Some (mkNode (u "n1") [mkRow (Some (u "a")) (JNum (num_of_N 1)) scalar]
                       (Some [])))
              false [] [] in
  let code := stringify_object [(u "a", JNum (num_of_N 1))] in
  let st1 := fst (handleEdit st) in
  let st2 := fst (handleChange (u "x") st1) in
  (exists nd, selectedNode st = Some nd)
  /\ snd (handleEdit st) = Normal tt
  /\ NodeModal st1 = Normal (Some (mkView (EditView code) (u "$")))
  /\ NodeModal st2 = Normal (Some (mkView (EditView (u "x")) (u "$")))
  /\ NodeModal (fst (handleCancel st2)) = Normal (Some (mkView (CodeView code) (u "$"))).
Proof.
  intros st code.
  apply (NodeModal_edit_cancel st code (u "$") (u "x")). reflexivity.
Defined.

(** ** The edit session: a save whose patch fails *)



(** ** The row normaliser: the order of the fields *)




